(** * CogniMap: the layout and visibility engine of the mind-map editor

    A shallow embedding of [src/App.tsx] (layout engine, visibility
    resolver, tree mutations), of the node types of the repository and of
    the response handling of [src/services/aiService.ts].

    Conventions of the embedding:
    - a coordinate is a JavaScript [number] that the pointer and the zoom
      make fractional and arbitrarily large: it is an IEEE 754 double, a
      primitive [float], and [+], [-] and [/] on it are the rounding
      operations of the doubles;
    - a height, a gap, a level or an index is a [number] the code builds
      from integer constants by addition only: it is a [Z], and it enters a
      coordinate as the double that holds it;
    - an optional field [f?: T] is an [option T], [undefined] being [None];
    - a [Map<string, V>] is a [gmap string V], a [Set<string>] a [gset string];
    - recursion that the source does not bound (the recursive layout, the
      queue loop of the visibility resolver, the recursive delete) takes a
      [fuel] argument and returns [None] when it runs out. *)

From stdpp Require Import gmap strings list fin_maps.
From Stdlib Require Import ZArith Lia.
From Stdlib Require Import PrimFloat.
From Stdlib Require DecimalString DecimalNat DecimalFacts.

Local Open Scope Z_scope.
Set Warnings "-clear-no-such-hyp".

(** ** Numbers *)

(** The double that holds an integer: exact below [2^53], which the sums
    of heights and gaps do not reach. *)
Fixpoint double_of_pos (p : positive) : float :=
  match p with
  | xH => 1%float
  | xO p' => (2 * double_of_pos p')%float
  | xI p' => (2 * double_of_pos p' + 1)%float
  end.

Definition double_of_Z (z : Z) : float :=
  match z with
  | Z0 => 0%float
  | Zpos p => double_of_pos p
  | Zneg p => (- double_of_pos p)%float
  end.

(** [v + k] and [v - k] in JavaScript, for a coordinate [v] and an integer
    [k]: one addition, one subtraction of doubles, rounded to nearest. *)
Definition numAdd (v : float) (k : Z) : float := (v + double_of_Z k)%float.
Definition numSub (v : float) (k : Z) : float := (v - double_of_Z k)%float.

Infix "+ₙ" := numAdd (at level 50, left associativity).
Infix "-ₙ" := numSub (at level 50, left associativity).

(** ** Data model ([types.ts]) *)

Record Position := mkPosition { x : float; y : float }.

Record Quiz := mkQuiz {
  question : string;
  options : list string;
  correctAnswer : Z
}.

Inductive NodeType := root | chapter | subchapter | detail.

(** The anonymous object type of [NodeData.data]. *)
Record NodePayload := mkPayload {
  summary : option string;
  details : option string;
  bulletPoints : option (list string);
  learningPoints : option (list string);
  quiz : option Quiz
}.

Record NodeData := mkNode {
  id : string;
  parentId : option string;
  title : string;
  position : Position;
  level : Z;
  nodeType : NodeType;
  collapsed : option bool;
  contentMinimized : option bool;
  height : option Z;
  isLoading : option bool;
  data : option NodePayload
}.

Global Instance NodeType_eq_dec : EqDecision NodeType.
Proof. solve_decision. Defined.

(** *** JavaScript truthiness of the optional fields *)

Definition truthy_bool (b : option bool) : bool := default false b.

Definition truthy_string (s : option string) : bool :=
  match s with
  | Some s => negb (String.eqb s EmptyString)
  | None => false
  end.

(** An array is always truthy, the empty one too. *)
Definition truthy_array {A} (l : option (list A)) : bool :=
  match l with Some _ => true | None => false end.

Definition truthy_number (z : option Z) : bool :=
  match z with
  | Some z => negb (Z.eqb z 0)
  | None => false
  end.

(** ** Layout engine *)

Definition INDENT_X : Z := 80.
Definition GAP_Y : Z := 40.

Definition getNodeHeight (node : NodeData) : Z :=
  if truthy_bool (contentMinimized node) then 80
  else if bool_decide (nodeType node = root) then 180
  else if bool_decide (nodeType node = detail) then 550
  else if truthy_array (data node ≫= learningPoints) then 320
  else if truthy_string (data node ≫= summary) then 260
  else 120.

(** The rule table in the words of the specification, keyed by the node
    type: used only to compare it with [getNodeHeight]. *)
Definition spec_rule_height (node : NodeData) : Z :=
  if truthy_bool (contentMinimized node) then 80
  else match nodeType node with
       | root => 180
       | detail => 550
       | subchapter =>
           if truthy_array (data node ≫= learningPoints) then 320 else 120
       | chapter =>
           if truthy_string (data node ≫= summary) then 260 else 120
       end.

Definition isRoot (n : NodeData) : bool :=
  bool_decide (nodeType n = root) || negb (truthy_string (parentId n)).

(** [childrenMap]: every node with a truthy [parentId] is pushed, in array
    order, onto the list stored under its parent's id. *)
Definition addChildEntry (cm : gmap string (list NodeData)) (n : NodeData)
  : gmap string (list NodeData) :=
  match parentId n with
  | Some p =>
      if truthy_string (Some p)
      then <[p := default [] (cm !! p) ++ [n]]> cm
      else cm
  | None => cm
  end.

Definition buildChildrenMap (nodes : list NodeData) : gmap string (list NodeData) :=
  foldl addChildEntry ∅ nodes.

(** [positionMap] and [heightMap], the two maps [layoutNode] writes. *)
Definition LayoutState : Type := gmap string Position * gmap string Z.

(** The [children.forEach] of [layoutNode]: the closure variables
    [currentChildY] and [totalSubTreeHeight] and the two maps are threaded
    through the calls [rec] of [layoutNode] on the children. *)
Fixpoint layoutChildren
    (rec : string → float → float → LayoutState → option (Z * LayoutState))
    (childX : float) (children : list NodeData)
    (currentChildY : float) (totalSubTreeHeight : Z) (st : LayoutState)
  : option (float * Z * LayoutState) :=
  match children with
  | [] => Some (currentChildY, totalSubTreeHeight, st)
  | child :: rest =>
      match rec (id child) childX currentChildY st with
      | None => None
      | Some (childHeight, st') =>
          let effectiveHeight := childHeight + GAP_Y in
          layoutChildren rec childX rest
            (currentChildY +ₙ effectiveHeight)
            (totalSubTreeHeight + effectiveHeight) st'
      end
  end.

(** [layoutNode]: [None] is the exhaustion of the call stack. *)
Fixpoint layoutNode (newNodes : list NodeData)
    (childrenMap : gmap string (list NodeData)) (fuel : nat)
    (nodeId : string) (x y : float) (st : LayoutState)
  : option (Z * LayoutState) :=
  match fuel with
  | O => None
  | S fuel' =>
      match list_find (λ n, id n = nodeId) newNodes with
      | None => Some (0, st)
      | Some (_, node) =>
          let myHeight := getNodeHeight node in
          let st1 : LayoutState :=
            (<[nodeId := mkPosition x y]> st.1, <[nodeId := myHeight]> st.2) in
          if truthy_bool (collapsed node) then Some (myHeight, st1)
          else
            let children := default [] (childrenMap !! nodeId) in
            match children with
            | [] => Some (myHeight, st1)
            | _ :: _ =>
                match layoutChildren (layoutNode newNodes childrenMap fuel')
                        (x +ₙ INDENT_X) children
                        (y +ₙ myHeight +ₙ GAP_Y) (myHeight + GAP_Y) st1 with
                | None => None
                | Some (_, totalSubTreeHeight, st') =>
                    Some (totalSubTreeHeight, st')
                end
            end
      end
  end.

(** [roots.forEach(root => layoutNode(root.id, root.position.x, root.position.y))] *)
Fixpoint layoutRoots (newNodes : list NodeData)
    (childrenMap : gmap string (list NodeData)) (fuel : nat)
    (roots : list NodeData) (st : LayoutState) : option LayoutState :=
  match roots with
  | [] => Some st
  | r :: rest =>
      match layoutNode newNodes childrenMap fuel (id r)
              (x (position r)) (y (position r)) st with
      | None => None
      | Some (_, st') => layoutRoots newNodes childrenMap fuel rest st'
      end
  end.

(** The callback of the final [newNodes.map]. *)
Definition applyLayout (st : LayoutState) (n : NodeData) : NodeData :=
  match st.1 !! id n, st.2 !! id n with
  | Some pos, Some h =>
      if truthy_number (Some h)
      then mkNode (id n) (parentId n) (title n) pos (level n) (nodeType n)
             (collapsed n) (contentMinimized n) (Some h) (isLoading n) (data n)
      else n
  | _, _ => n
  end.

(** The two maps after all roots have been laid out. *)
Definition layoutMaps (fuel : nat) (nodes : list NodeData) : option LayoutState :=
  layoutRoots nodes (buildChildrenMap nodes) fuel (filter (λ n, isRoot n = true) nodes) (∅, ∅).

Definition computeSmartLayout (fuel : nat) (nodes : list NodeData)
  : option (list NodeData) :=
  match layoutMaps fuel nodes with
  | None => None
  | Some st => Some (applyLayout st <$> nodes)
  end.

(** ** Visibility resolver *)

(** [roots.forEach(r => visibleSet.add(r.id))], and the same on children. *)
Definition addAll (visibleSet : gset string) (l : list NodeData) : gset string :=
  foldl (λ s n, {[id n]} ∪ s) visibleSet l.

(** The [while (queue.length > 0)] loop; [None] when it is still running
    after [fuel] iterations. *)
Fixpoint visitQueue (nodes : list NodeData) (fuel : nat)
    (queue : list NodeData) (visibleSet : gset string) {struct fuel}
  : option (gset string) :=
  match queue with
  | [] => Some visibleSet
  | current :: rest =>
      match fuel with
      | O => None
      | S fuel' =>
          if bool_decide (id current ∈ visibleSet)
             && negb (truthy_bool (collapsed current))
          then
            let children := filter (λ n, parentId n = Some (id current)) nodes in
            visitQueue nodes fuel' (rest ++ children) (addAll visibleSet children)
          else visitQueue nodes fuel' rest visibleSet
      end
  end.

Definition visibleSetOf (fuel : nat) (nodes : list NodeData) : option (gset string) :=
  let roots := filter (λ n, isRoot n = true) nodes in
  visitQueue nodes fuel roots (addAll ∅ roots).

Definition visibleNodes (fuel : nat) (nodes : list NodeData)
  : option (list NodeData) :=
  match visibleSetOf fuel nodes with
  | None => None
  | Some visibleSet => Some (filter (λ n, id n ∈ visibleSet) nodes)
  end.

(** ** Mutation operations *)

Definition setCollapsed (c : option bool) (n : NodeData) : NodeData :=
  mkNode (id n) (parentId n) (title n) (position n) (level n) (nodeType n)
    c (contentMinimized n) (height n) (isLoading n) (data n).

(** [n.id === id ? { ...n, collapsed: !n.collapsed } : n] *)
Definition toggleCollapsed (i : string) (n : NodeData) : NodeData :=
  if bool_decide (id n = i)
  then setCollapsed (Some (negb (truthy_bool (collapsed n)))) n
  else n.

Definition handleToggleCollapse (fuel : nat) (i : string) (prev : list NodeData)
  : option (list NodeData) :=
  computeSmartLayout fuel (toggleCollapsed i <$> prev).

(** The [children.forEach] of [deleteRecursive]. *)
Fixpoint deleteChildren (rec : string → list NodeData → option (list NodeData))
    (children : list NodeData) (remaining : list NodeData)
  : option (list NodeData) :=
  match children with
  | [] => Some remaining
  | child :: rest =>
      match rec (id child) remaining with
      | None => None
      | Some remaining' => deleteChildren rec rest remaining'
      end
  end.

Fixpoint deleteRecursive (fuel : nat) (nodeId : string)
    (currentNodes : list NodeData) : option (list NodeData) :=
  match fuel with
  | O => None
  | S fuel' =>
      let children := filter (λ n, parentId n = Some nodeId) currentNodes in
      let remaining := filter (λ n, id n ≠ nodeId) currentNodes in
      deleteChildren (deleteRecursive fuel') children remaining
  end.

Definition handleDelete (fuel : nat) (i : string) (prev : list NodeData)
  : option (list NodeData) :=
  match deleteRecursive fuel i prev with
  | None => None
  | Some remaining => computeSmartLayout fuel remaining
  end.




(** ** Content provider ([services/aiService.ts]) *)

(** What an [async] function settles to. *)
Inductive Settled (A : Type) : Type :=
| Resolved (a : A)
| Rejected (message : string).
Arguments Resolved {A} a.
Arguments Rejected {A} message.

Record GeneratedChapter := mkChapter {
  ch_title : string;
  briefDescription : string
}.

Record GeneratedSubChapter := mkSubChapter {
  sub_title : string;
  sub_learningPoints : list string
}.

Record GeneratedDetail := mkDetail {
  det_title : string;
  comprehensiveExplanation : string;
  corePoints : list string
}.

Section AiService.
(** [ai.models.generateContent], reduced to the [text] of its response;
    the prompt templates; [String.prototype.trim]; and [JSON.parse]
    followed by the field the caller reads. *)
Variable generateContent : string → Settled (option string).
Variables titlePrompt : string → string.
Variables chaptersPrompt : string → string → string.
Variables subChaptersPrompt detailsPrompt : string → string → string → string.
Variable trim : string → string.
Variable parseChapters : string → Settled (list GeneratedChapter).
Variable parseSubChapters : string → Settled (list GeneratedSubChapter).
Variable parseDetail : string → Settled GeneratedDetail.

Definition generateTopicTitle (userPrompt : string) : Settled string :=
  match generateContent (titlePrompt userPrompt) with
  | Rejected e => Rejected e
  | Resolved text =>
      if truthy_string text
      then Resolved (trim (default EmptyString text))
      else Resolved "Topik Baru"%string
  end.

Definition generateChapters (topic userContext : string)
  : Settled (list GeneratedChapter) :=
  match generateContent (chaptersPrompt topic userContext) with
  | Rejected e => Rejected e
  | Resolved text =>
      if truthy_string text
      then parseChapters (default EmptyString text)
      else Rejected "Gagal membuat bab."%string
  end.

Definition generateSubChapters (parentTopic chapterTitle userContext : string)
  : Settled (list GeneratedSubChapter) :=
  match generateContent (subChaptersPrompt parentTopic chapterTitle userContext) with
  | Rejected e => Rejected e
  | Resolved text =>
      if truthy_string text
      then parseSubChapters (default EmptyString text)
      else Rejected "Gagal membuat sub-bab."%string
  end.

Definition generateDetails (subChapterTitle contextPath focusPoint : string)
  : Settled GeneratedDetail :=
  match generateContent (detailsPrompt subChapterTitle contextPath focusPoint) with
  | Rejected e => Rejected e
  | Resolved text =>
      if truthy_string text
      then parseDetail (default EmptyString text)
      else Rejected "Gagal membuat penjelasan detail."%string
  end.
End AiService.

(** ** Vocabulary of the specification *)

(** An acyclic node set: some rank strictly decreases from a parent id to the
    id of each of its children. *)
Definition ranked (rk : string → nat) (nodes : list NodeData) : Prop :=
  ∀ n p, n ∈ nodes → parentId n = Some p → (rk (id n) < rk p)%nat.

(** [d] is the id of a strict descendant of the node with id [a]. *)
Inductive descendant (nodes : list NodeData) (a : string) : string → Prop :=
| desc_child n :
    n ∈ nodes → parentId n = Some a → descendant nodes a (id n)
| desc_step n p :
    n ∈ nodes → parentId n = Some p → descendant nodes a p →
    descendant nodes a (id n).

(** An orphan: a non-root node whose parent id is the id of no node. *)
Definition orphan (nodes : list NodeData) (n : NodeData) : Prop :=
  isRoot n = false ∧ ∀ p, parentId n = Some p → ¬ ∃ m, m ∈ nodes ∧ id m = p.

(** All the ancestors of [n], up to a root, exist and are not collapsed. *)
Inductive ancestorsOpen (nodes : list NodeData) : NodeData → Prop :=
| open_root n : n ∈ nodes → isRoot n = true → ancestorsOpen nodes n
| open_child p n :
    ancestorsOpen nodes p → truthy_bool (collapsed p) = false →
    n ∈ nodes → parentId n = Some (id p) → ancestorsOpen nodes n.

(** Every field other than [position] and [height] is the same. *)
Definition sameButLayout (n n' : NodeData) : Prop :=
  id n' = id n ∧ parentId n' = parentId n ∧ title n' = title n ∧
  level n' = level n ∧ nodeType n' = nodeType n ∧
  collapsed n' = collapsed n ∧ contentMinimized n' = contentMinimized n ∧
  isLoading n' = isLoading n ∧ data n' = data n.

(** ** Write sets of the layout

    What a run of [layoutNode] adds to the two maps, as a pair of maps of
    its own: a later write shadows an earlier one, so the writes of a list
    of calls are the left-biased union of theirs, last call first. *)

Definition overlay (W st : LayoutState) : LayoutState :=
  (W.1 ∪ st.1, W.2 ∪ st.2).

Definition noWrites : LayoutState := (∅, ∅).

(** [childWrites rec childX children y W s]: laying out [children] from the
    cursor [y] writes [W], and the footprints plus gaps add up to [s]. *)
Inductive childWrites
    (rec : string → float → float → LayoutState → option (Z * LayoutState))
    (childX : float) : list NodeData → float → LayoutState → Z → Prop :=
| cw_nil y : childWrites rec childX [] y noWrites 0
| cw_cons child rest y h W Wrest s :
    rec (id child) childX y noWrites = Some (h, W) →
    childWrites rec childX rest (y +ₙ (h + GAP_Y)) Wrest s →
    childWrites rec childX (child :: rest) y (overlay Wrest W) ((h + GAP_Y) + s).

(** [rootWrites rec roots W]: laying out [roots], each from its stored
    position, writes [W]. *)
Inductive rootWrites
    (rec : string → float → float → LayoutState → option (Z * LayoutState))
  : list NodeData → LayoutState → Prop :=
| rw_nil : rootWrites rec [] noWrites
| rw_cons r rest h W Wrest :
    rec (id r) (x (position r)) (y (position r)) noWrites = Some (h, W) →
    rootWrites rec rest Wrest →
    rootWrites rec (r :: rest) (overlay Wrest W).

(** The writes of one call on a node that has no child to lay out. *)
Definition ownWrite (i : string) (x y : float) (node : NodeData) : LayoutState :=
  ({[i := mkPosition x y]}, {[i := getNodeHeight node]}).

(** [rec] only adds to the maps it is given: its result on any maps is its
    result on empty maps, laid over them. *)
Definition framed
    (rec : string → float → float → LayoutState → option (Z * LayoutState))
  : Prop :=
  ∀ i x y st, rec i x y st = (λ r, (r.1, overlay r.2 st)) <$> rec i x y noWrites.

(** ** Traversals, as relations

    The notions the statements below are phrased with: the children and the
    footprint of a node in the layout, the ids the layout reaches, the nodes
    the visibility loop reaches, and the fuel both need. *)

(** The children [layoutNode] iterates over. *)
Definition layoutChildrenOf (nodes : list NodeData) (i : string) : list NodeData :=
  default [] (buildChildrenMap nodes !! i).

(** [h] is the subtree footprint [layoutNode] returns for the node [i]. *)
Definition footprintOf (nodes : list NodeData) (i : string) (h : Z) : Prop :=
  ∃ fuel x y st st',
    layoutNode nodes (buildChildrenMap nodes) fuel i x y st = Some (h, st').

(** The ids the layout traversal reaches: the roots, and the children of a
    reached id whose node is not collapsed. *)
Inductive laidOut (nodes : list NodeData) : string → Prop :=
| lo_root r : r ∈ nodes → isRoot r = true → laidOut nodes (id r)
| lo_child p k node c :
    laidOut nodes p →
    list_find (λ n, id n = p) nodes = Some (k, node) →
    truthy_bool (collapsed node) = false →
    c ∈ layoutChildrenOf nodes p →
    laidOut nodes (id c).

(** [c] is reached from [m] through nodes that are not collapsed: what the
    queue loop enqueues once it holds [m]. *)
Inductive reachFrom (nodes : list NodeData) : NodeData → NodeData → Prop :=
| reach_refl m : reachFrom nodes m m
| reach_step m k c :
    truthy_bool (collapsed m) = false →
    k ∈ nodes → parentId k = Some (id m) →
    reachFrom nodes k c → reachFrom nodes m c.

(** The id [i] belongs to a node reached from some root. *)
Definition visibleId (nodes : list NodeData) (i : string) : Prop :=
  ∃ r c, r ∈ nodes ∧ isRoot r = true ∧ reachFrom nodes r c ∧ id c = i.

(** A bound on the iterations the queue loop still needs: a node of rank
    [k] weighs [(N+1)^k], more than its (at most [N]) children together. *)
Definition queueWeight (rk : string → nat) (N : nat) (queue : list NodeData) : nat :=
  sum_list_with (λ m, (S N) ^ rk (id m))%nat queue.

(** Fuel that lets the layout and the visibility resolver finish on a node
    set ranked by [rk]. *)
Definition enoughFuel (rk : string → nat) (nodes : list NodeData) (fuel : nat) : Prop :=
  (∀ n, n ∈ nodes → rk (id n) < fuel)%nat ∧
  (queueWeight rk (length nodes) (filter (λ n, isRoot n = true) nodes) < fuel)%nat.

(** What a call [rec y l] of the recursive delete returns: [l] without the
    nodes whose id is in some set [Cy] of ids, made of [y] and descendants
    of [y], such that no remaining node has its parent in [Cy]. *)
Definition deletesSubtree (rec : string → list NodeData → option (list NodeData))
  : Prop :=
  ∀ y l r, rec y l = Some r →
    ∃ Cy : gset string,
      y ∈ Cy ∧ r = filter (λ m, id m ∉ Cy) l ∧
      (∀ m p, m ∈ r → parentId m = Some p → p ∉ Cy) ∧
      (∀ d, d ∈ Cy → d = y ∨ descendant l y d).

(** [newId] is fresh: no node has it as its id or as its parent id. *)
Definition freshId (nodes : list NodeData) (newId : string) : Prop :=
  ∀ n, n ∈ nodes → id n ≠ newId ∧ parentId n ≠ Some newId.


(** ** The other mutation operations *)

Definition setPosition (pos : Position) (n : NodeData) : NodeData :=
  mkNode (id n) (parentId n) (title n) pos (level n) (nodeType n)
    (collapsed n) (contentMinimized n) (height n) (isLoading n) (data n).

Definition setTitle (t : string) (n : NodeData) : NodeData :=
  mkNode (id n) (parentId n) t (position n) (level n) (nodeType n)
    (collapsed n) (contentMinimized n) (height n) (isLoading n) (data n).

Definition setContentMinimized (c : option bool) (n : NodeData) : NodeData :=
  mkNode (id n) (parentId n) (title n) (position n) (level n) (nodeType n)
    (collapsed n) c (height n) (isLoading n) (data n).

(** [node.id === id ? { ...node, position: newPos } : node] *)
Definition moveNode (i : string) (newPos : Position) (node : NodeData) : NodeData :=
  if bool_decide (id node = i) then setPosition newPos node else node.

Definition handleUpdatePosition (fuel : nat) (i : string) (newPos : Position)
    (prev : list NodeData) : option (list NodeData) :=
  computeSmartLayout fuel (moveNode i newPos <$> prev).

(** The node [handleAddRoot] creates; [newId] is the value of
    [generateId()], and the two numbers are the centre of the viewport. *)
Definition newRoot (newId : string) (viewportCenterX viewportCenterY : float)
  : NodeData :=
  {| id := newId;
     parentId := None;
     title := "Topik Baru"%string;
     position := mkPosition (viewportCenterX -ₙ 175) (viewportCenterY -ₙ 70);
     level := 0;
     nodeType := root;
     collapsed := Some false;
     contentMinimized := Some true;
     height := Some 180;
     isLoading := Some false;
     data := None |}.

Definition handleAddRoot (fuel : nat) (newId : string)
    (viewportCenterX viewportCenterY : float) (prev : list NodeData)
  : option (list NodeData) :=
  computeSmartLayout fuel (prev ++ [newRoot newId viewportCenterX viewportCenterY]).

(** [n.id === id ? { ...n, title: newTitle } : n] *)
Definition renameNode (i : string) (newTitle : string) (n : NodeData) : NodeData :=
  if bool_decide (id n = i) then setTitle newTitle n else n.

(** [handleEdit]: no layout pass follows. *)
Definition handleEdit (i : string) (newTitle : string) (prev : list NodeData)
  : list NodeData :=
  renameNode i newTitle <$> prev.

(** [n.id === id ? { ...n, contentMinimized: !n.contentMinimized } : n] *)
Definition toggleContent (i : string) (n : NodeData) : NodeData :=
  if bool_decide (id n = i)
  then setContentMinimized (Some (negb (truthy_bool (contentMinimized n)))) n
  else n.

Definition handleToggleContent (fuel : nat) (i : string) (prev : list NodeData)
  : option (list NodeData) :=
  computeSmartLayout fuel (toggleContent i <$> prev).

(** ** Vocabulary of the layout geometry *)

(** No root is somebody's child: a node the layout starts from has no
    parent id. *)
Definition rootsParentless (nodes : list NodeData) : Prop :=
  ∀ r, r ∈ nodes → isRoot r = true → parentId r = None.

(** [stacked nodes P cx cs y]: the positions [P] put the nodes [cs] in one
    column at [cx], the first at [y] and each next one at the [y] of the one
    before it plus (its footprint plus the gap), the sum in brackets being
    taken first as in [currentChildY += effectiveHeight]. *)
Inductive stacked (nodes : list NodeData) (P : gmap string Position)
    (cx : float) : list NodeData → float → Prop :=
| stacked_nil y : stacked nodes P cx [] y
| stacked_cons c rest y h :
    P !! id c = Some (mkPosition cx y) →
    footprintOf nodes (id c) h →
    stacked nodes P cx rest (y +ₙ (h + GAP_Y)) →
    stacked nodes P cx (c :: rest) y.

(** The same on the nodes themselves, read from their [position] field. *)
Inductive column (nodes : list NodeData) (cx : float)
  : list NodeData → float → Prop :=
| column_nil y : column nodes cx [] y
| column_cons c rest y h :
    position c = mkPosition cx y →
    footprintOf nodes (id c) h →
    column nodes cx rest (y +ₙ (h + GAP_Y)) →
    column nodes cx (c :: rest) y.

(** The positions [P] put the children of [p], if [p] is the id of an open
    node, in a column below it, one indent to the right. *)
Definition placedChildren (nodes : list NodeData) (P : gmap string Position)
    (p : string) : Prop :=
  ∀ k node, list_find (λ n, id n = p) nodes = Some (k, node) →
    truthy_bool (collapsed node) = false →
    ∃ pos, P !! p = Some pos ∧
      stacked nodes P (x pos +ₙ INDENT_X) (layoutChildrenOf nodes p)
        (y pos +ₙ getNodeHeight node +ₙ GAP_Y).

(** ** Connection layer *)

(** What [renderConnection] draws: the [key] of the path and the corners of
    the L-shaped path [M startX,startY L startX,endY L endX,endY]. *)
Record Connection : Type := mkConnection {
  key : string;
  startX : float;
  startY : float;
  endX : float;
  endY : float
}.

(** [nodes.forEach((n) => nodeMap.set(n.id, n))] *)
Definition nodeMap (nodes : list NodeData) : gmap string NodeData :=
  foldl (λ m n, <[id n := n]> m) ∅ nodes.

(** [h || 100] *)
Definition heightOr100 (h : option Z) : Z :=
  if truthy_number h then default 100 h else 100.

Definition renderConnection (nodes : list NodeData) (node : NodeData)
  : option Connection :=
  if negb (truthy_string (parentId node)) then None
  else
    match parentId node ≫= (λ p, nodeMap nodes !! p) with
    | None => None
    | Some parent =>
        if truthy_bool (collapsed parent) then None
        else
          let pH := heightOr100 (height parent) in
          let cH := heightOr100 (height node) in
          Some {| key := String.append (id parent)
                           (String.append "-" (id node));
                  startX := x (position parent) +ₙ 30;
                  startY := y (position parent) +ₙ pH;
                  endX := x (position node);
                  endY := (y (position node) + double_of_Z cH / 2)%float |}
    end.

(** [nodes.map(renderConnection)] *)
Definition ConnectionLayer (nodes : list NodeData) : list (option Connection) :=
  renderConnection nodes <$> nodes.

(** ** Learning a root: the chapters ([handleLearnNode], root branch) *)

(** [`${n}`] for a count [n]: its decimal digits. *)
Definition numberToString (n : nat) : string :=
  DecimalString.NilEmpty.string_of_uint (Nat.to_uint n).

(** [`${index + 1}. ${ch.title}`] *)
Definition chapterTitle (index : nat) (t : string) : string :=
  String.append (numberToString (index + 1)) (String.append ". " t).

(** [\d] *)
Definition isDigit (c : Ascii.ascii) : bool :=
  (48 <=? Ascii.nat_of_ascii c)%nat && (Ascii.nat_of_ascii c <=? 57)%nat.

(** The longest prefix of digits and what follows it. *)
Fixpoint spanDigits (s : string) : string * string :=
  match s with
  | EmptyString => (EmptyString, EmptyString)
  | String c s' =>
      if isDigit c
      then let (ds, rest) := spanDigits s' in (String c ds, rest)
      else (EmptyString, s)
  end.

(** [title.match(/^(\d+)\./)], reduced to its group 1.  The greedy [\d+]
    takes the longest prefix of digits; giving digits back cannot help,
    the character after a shorter prefix being a digit and not the dot. *)
Definition matchChapterNumber (t : string) : option string :=
  let (ds, rest) := spanDigits t in
  if negb (String.eqb ds EmptyString) && String.prefix "." rest
  then Some ds else None.

(** [match ? match[1] : dflt] *)
Definition chapterNumOf (dflt t : string) : string :=
  default dflt (matchChapterNumber t).

(** One element of [chapters.map((ch, index) => ({...}))]; [newId] is what
    [generateId()] returned for it. *)
Definition chapterNode (node : NodeData) (newId : string) (index : nat)
    (ch : GeneratedChapter) : NodeData :=
  {| id := newId; parentId := Some (id node);
     title := chapterTitle index (ch_title ch);
     position := mkPosition 0 0; level := level node + 1;
     nodeType := chapter; collapsed := Some true;
     contentMinimized := Some true; height := None; isLoading := None;
     data := Some (mkPayload (Some (briefDescription ch)) None None None None) |}.

(** [genId k] is the id the [k]-th call of [generateId] returns. *)
Definition chapterNodes (genId : nat → string) (node : NodeData)
    (chapters : list GeneratedChapter) : list NodeData :=
  imap (λ index ch, chapterNode node (genId index) index ch) chapters.


(** [match ? match[1] : '0'] in the waterfall, and [match ? match[1] : '1']
    in the chapter branch. *)
Definition waterfallChapterNum (chNode : NodeData) : string :=
  chapterNumOf "0" (title chNode).

Definition manualChapterNum (node : NodeData) : string :=
  chapterNumOf "1" (title node).


Section SubChapters.
(** [sub.title.replace(/^[\d.]+\s*/, EmptyString)], left abstract. *)
Variable cleanTitle : string → string.

(** [`${chapterNum}.${index + 1} ${cleanTitle}`] *)
Definition subChapterTitle (chapterNum : string) (index : nat) (t : string)
  : string :=
  String.append chapterNum
    (String.append "." (String.append (numberToString (index + 1))
       (String.append " " (cleanTitle t)))).

(** One element of [subChapters.map((sub, index) => {...})]. *)
Definition subChapterNode (chNode : NodeData) (chapterNum : string)
    (newId : string) (index : nat) (sub : GeneratedSubChapter) : NodeData :=
  {| id := newId; parentId := Some (id chNode);
     title := subChapterTitle chapterNum index (sub_title sub);
     position := mkPosition 0 0; level := level chNode + 1;
     nodeType := subchapter; collapsed := Some true;
     contentMinimized := Some true; height := None; isLoading := None;
     data := Some (mkPayload None None None
                     (Some (sub_learningPoints sub)) None) |}.

(** The [subNodes] of the waterfall for the chapter node [chNode], and the
    [newNodes] of the chapter branch for the chapter [node]. *)
Definition waterfallSubNodes (genId : nat → string) (chNode : NodeData)
    (subChapters : list GeneratedSubChapter) : list NodeData :=
  imap (λ index sub,
          subChapterNode chNode (waterfallChapterNum chNode)
            (genId index) index sub) subChapters.

Definition manualSubNodes (genId : nat → string) (node : NodeData)
    (subChapters : list GeneratedSubChapter) : list NodeData :=
  imap (λ index sub,
          subChapterNode node (manualChapterNum node)
            (genId index) index sub) subChapters.
(** The chapter branch, once the subchapters have arrived:
    [computeSmartLayout([...prev, ...newNodes])]. *)
Definition learnChapter (fuel : nat) (genId : nat → string) (node : NodeData)
    (subChapters : list GeneratedSubChapter) (prev : list NodeData)
  : option (list NodeData) :=
  computeSmartLayout fuel (prev ++ manualSubNodes genId node subChapters).

End SubChapters.

(** ** Node sets that run in a circle *)

(** From [x], through open nodes, an open node [m] is reached that is
    reached again from one of its own children. *)
Definition reachesOpenCycle (nodes : list NodeData) (x : NodeData) : Prop :=
  ∃ m k, reachFrom nodes x m ∧ truthy_bool (collapsed m) = false ∧
         k ∈ nodes ∧ parentId k = Some (id m) ∧ reachFrom nodes k m.

(** Every child is one level below its parent. *)
Definition levelsConsistent (nodes : list NodeData) : Prop :=
  ∀ p c, p ∈ nodes → c ∈ nodes → parentId c = Some (id p) →
         level c = level p + 1.

(** ** Example node sets *)

(** A chapter that carries a summary and a list of learning points. *)
Definition chapterWithPoints : NodeData :=
  {| id := "c1"%string; parentId := Some "r"%string; title := "1. Bab"%string;
     position := mkPosition 0 0; level := 1; nodeType := chapter;
     collapsed := Some false; contentMinimized := Some false;
     height := None; isLoading := None;
     data := Some (mkPayload (Some "ringkasan"%string) None None (Some []) None) |}.

(** A subchapter that carries a summary and no learning points. *)
Definition subchapterWithSummary : NodeData :=
  {| id := "s1"%string; parentId := Some "c1"%string;
     title := "1.1 Konsep"%string;
     position := mkPosition 0 0; level := 2; nodeType := subchapter;
     collapsed := Some false; contentMinimized := Some false;
     height := None; isLoading := None;
     data := Some (mkPayload (Some "ringkasan"%string) None None None None) |}.

(** A single expanded root without children. *)
Definition loneRoot : NodeData :=
  {| id := "r"%string; parentId := None; title := "Topik Utama"%string;
     position := mkPosition 300 100; level := 0; nodeType := root;
     collapsed := Some false; contentMinimized := Some true;
     height := Some 180; isLoading := Some false; data := None |}.



(** An open root [r] with an open chapter [a]; below [a] a node [x] whose
    type is [root] although it names [a] as its parent, and below [x] a
    subchapter [y]. *)
Definition rootTypedBelow : list NodeData :=
  [ {| id := "r"%string; parentId := None; title := "Topik Utama"%string;
       position := mkPosition 300 100; level := 0; nodeType := root;
       collapsed := Some false; contentMinimized := Some true;
       height := Some 180; isLoading := Some false; data := None |};
    {| id := "a"%string; parentId := Some "r"%string; title := "1. Bab"%string;
       position := mkPosition 0 0; level := 1; nodeType := chapter;
       collapsed := Some false; contentMinimized := Some true;
       height := None; isLoading := None; data := None |};
    {| id := "x"%string; parentId := Some "a"%string; title := "Topik"%string;
       position := mkPosition 700 100; level := 2; nodeType := root;
       collapsed := Some false; contentMinimized := Some true;
       height := None; isLoading := None; data := None |};
    {| id := "y"%string; parentId := Some "x"%string; title := "1.1 Sub"%string;
       position := mkPosition 0 0; level := 3; nodeType := subchapter;
       collapsed := Some false; contentMinimized := Some true;
       height := None; isLoading := None; data := None |} ].

(** A small map: an open root with an open chapter [a] (one subchapter
    [b]) and a collapsed chapter [c] (one subchapter [d]). *)
Definition sampleRoot : NodeData :=
  {| id := "r"%string; parentId := None; title := "Topik Utama"%string;
     position := mkPosition 300 100; level := 0; nodeType := root;
     collapsed := Some false; contentMinimized := Some false;
     height := Some 180; isLoading := Some false; data := None |}.

Definition sampleA : NodeData :=
  {| id := "a"%string; parentId := Some "r"%string; title := "1. Dasar"%string;
     position := mkPosition 0 0; level := 1; nodeType := chapter;
     collapsed := None; contentMinimized := Some true;
     height := None; isLoading := None;
     data := Some (mkPayload (Some "ringkasan"%string) None None None None) |}.

Definition sampleB : NodeData :=
  {| id := "b"%string; parentId := Some "a"%string; title := "1.1 Konsep"%string;
     position := mkPosition 0 0; level := 2; nodeType := subchapter;
     collapsed := Some true; contentMinimized := Some true;
     height := None; isLoading := None;
     data := Some (mkPayload None None None (Some ["satu"; "dua"]%string) None) |}.

Definition sampleC : NodeData :=
  {| id := "c"%string; parentId := Some "r"%string; title := "2. Lanjut"%string;
     position := mkPosition 0 0; level := 1; nodeType := chapter;
     collapsed := Some true; contentMinimized := Some false;
     height := None; isLoading := None;
     data := Some (mkPayload (Some "ringkasan"%string) None None None None) |}.

Definition sampleD : NodeData :=
  {| id := "d"%string; parentId := Some "c"%string; title := "2.1 Rinci"%string;
     position := mkPosition 7 7; level := 2; nodeType := subchapter;
     collapsed := Some false; contentMinimized := Some true;
     height := Some 11; isLoading := None; data := None |}.

Definition sampleTree : list NodeData :=
  [sampleRoot; sampleA; sampleB; sampleC; sampleD].

Definition sampleRank (i : string) : nat :=
  if String.eqb i "r" then 2%nat
  else if String.eqb i "a" || String.eqb i "c" then 1%nat
  else 0%nat.

(** A root far down the canvas, at [y = 2^56] where neighbouring doubles
    are 16 apart, with one chapter: [2^56 + 80 + 40] is rounded to
    [2^56 + 128]. *)
Definition farTree : list NodeData :=
  [ {| id := "r"%string; parentId := None; title := "Topik Utama"%string;
       position := mkPosition 300.5 72057594037927936; level := 0;
       nodeType := root; collapsed := Some false;
       contentMinimized := Some true; height := Some 180;
       isLoading := Some false; data := None |};
    {| id := "a"%string; parentId := Some "r"%string; title := "1. Bab"%string;
       position := mkPosition 0 0; level := 1; nodeType := chapter;
       collapsed := Some true; contentMinimized := Some true;
       height := None; isLoading := None; data := None |} ].

(** Two roots, each with one chapter. *)
Definition secondRoot : NodeData :=
  {| id := "q"%string; parentId := None; title := "Topik Baru"%string;
     position := mkPosition 900 40; level := 0; nodeType := root;
     collapsed := Some false; contentMinimized := Some true;
     height := Some 180; isLoading := Some false; data := None |}.

Definition secondChapter : NodeData :=
  {| id := "e"%string; parentId := Some "q"%string; title := "1. Awal"%string;
     position := mkPosition 0 0; level := 1; nodeType := chapter;
     collapsed := Some true; contentMinimized := Some true;
     height := None; isLoading := None; data := None |}.

Definition twoTrees : list NodeData := sampleTree ++ [secondRoot; secondChapter].

(** Two generated chapters and two generated subchapters, and a supply of
    new ids. *)
Definition sampleChapters : list GeneratedChapter :=
  [ mkChapter "Dasar" "ringkasan"; mkChapter "Lanjut" "ringkasan" ]%string.

Definition sampleSubChapters : list GeneratedSubChapter :=
  [ mkSubChapter "Konsep" ["satu"; "dua"];
    mkSubChapter "Contoh" ["tiga"] ]%string.

Definition sampleGenId (k : nat) : string :=
  String.append "n" (numberToString k).

Definition twoTreesRank (i : string) : nat :=
  if String.eqb i "r" then 2%nat
  else if String.eqb i "a" || String.eqb i "c" || String.eqb i "q" then 1%nat
  else 0%nat.

(** A root that names its own chapter as its parent. *)
Definition circularRoot : NodeData :=
  {| id := "r"%string; parentId := Some "a"%string;
     title := "Topik Utama"%string;
     position := mkPosition 300 100; level := 0; nodeType := root;
     collapsed := Some false; contentMinimized := Some true;
     height := Some 180; isLoading := Some false; data := None |}.

Definition circularChapter : NodeData :=
  {| id := "a"%string; parentId := Some "r"%string; title := "1. Bab"%string;
     position := mkPosition 0 0; level := 1; nodeType := chapter;
     collapsed := Some false; contentMinimized := Some true;
     height := None; isLoading := None; data := None |}.

Definition circularSet : list NodeData := [circularRoot; circularChapter].

(** * Properties *)

(** ** Node heights *)

Lemma getNodeHeight_minimized n :
  truthy_bool (contentMinimized n) = true → getNodeHeight n = 80.
Proof. unfold getNodeHeight. by intros ->. Qed.

Lemma getNodeHeight_pos n : 80 ≤ getNodeHeight n.
Proof. unfold getNodeHeight. repeat case_match; lia. Qed.

(** Where the payload follows the node type (no learning points on a
    chapter, no summary on a subchapter) the code's table is the table of
    the specification. *)
Lemma getNodeHeight_typed_payload n :
  (nodeType n = chapter → data n ≫= learningPoints = None) →
  (nodeType n = subchapter → truthy_string (data n ≫= summary) = false) →
  getNodeHeight n = spec_rule_height n.
Proof.
  unfold getNodeHeight, spec_rule_height. intros Hc Hs.
  destruct (truthy_bool _); [done|].
  destruct (nodeType n) eqn:Ht; simpl; try done.
  - by rewrite Hc by done.
  - rewrite Hs by done. by case_match.
Qed.

(** C5 (as stated) fails: a chapter with a summary that also carries
    learning points is given 320, not the 260 of a chapter with a summary;
    and a subchapter with a summary and no learning points is given 260,
    not the default 120. *)
Lemma getNodeHeight_not_keyed_by_type :
  (nodeType chapterWithPoints = chapter ∧
   truthy_string (data chapterWithPoints ≫= summary) = true ∧
   truthy_bool (contentMinimized chapterWithPoints) = false ∧
   spec_rule_height chapterWithPoints = 260 ∧
   getNodeHeight chapterWithPoints = 320) ∧
  (nodeType subchapterWithSummary = subchapter ∧
   data subchapterWithSummary ≫= learningPoints = None ∧
   truthy_bool (contentMinimized subchapterWithSummary) = false ∧
   spec_rule_height subchapterWithSummary = 120 ∧
   getNodeHeight subchapterWithSummary = 260).
Proof. by vm_compute. Qed.

(** C5 (amended): a minimized node is 80 high whatever its type; otherwise a
    root is 180 and a detail 550 high, and any other node, whatever its
    type, is 320 high when its payload has a learning-point list, else 260
    when its payload has a non-empty summary, else 120. *)
Theorem getNodeHeight_table n :
  getNodeHeight n =
    match truthy_bool (contentMinimized n), nodeType n with
    | true, _ => 80
    | false, root => 180
    | false, detail => 550
    | false, (chapter | subchapter) =>
        match data n ≫= learningPoints, truthy_string (data n ≫= summary) with
        | Some _, _ => 320
        | None, true => 260
        | None, false => 120
        end
    end.
Proof.
  unfold getNodeHeight.
  destruct (truthy_bool _), (nodeType n); simpl; try done;
    by destruct (data n ≫= learningPoints), (truthy_string _).
Qed.

(** ** Content provider *)

Section AiServiceFacts.
Variable generateContent : string → Settled (option string).
Variables titlePrompt : string → string.
Variables chaptersPrompt : string → string → string.
Variables subChaptersPrompt detailsPrompt : string → string → string → string.
Variable trim : string → string.
Variable parseChapters : string → Settled (list GeneratedChapter).
Variable parseSubChapters : string → Settled (list GeneratedSubChapter).
Variable parseDetail : string → Settled GeneratedDetail.

(** C6 (amended): when the provider answers a call with an empty text, the
    three structured operations are rejected with their error, and
    [generateTopicTitle] resolves to the default title. *)
Theorem empty_response_outcomes (text : option string) :
  truthy_string text = false →
  (∀ userPrompt,
     generateContent (titlePrompt userPrompt) = Resolved text →
     generateTopicTitle generateContent titlePrompt trim userPrompt
     = Resolved "Topik Baru"%string) ∧
  (∀ topic userContext,
     generateContent (chaptersPrompt topic userContext) = Resolved text →
     generateChapters generateContent chaptersPrompt parseChapters
       topic userContext
     = Rejected "Gagal membuat bab."%string) ∧
  (∀ parentTopic chapterTitle userContext,
     generateContent (subChaptersPrompt parentTopic chapterTitle userContext)
     = Resolved text →
     generateSubChapters generateContent subChaptersPrompt parseSubChapters
       parentTopic chapterTitle userContext
     = Rejected "Gagal membuat sub-bab."%string) ∧
  (∀ subChapterTitle contextPath focusPoint,
     generateContent (detailsPrompt subChapterTitle contextPath focusPoint)
     = Resolved text →
     generateDetails generateContent detailsPrompt parseDetail
       subChapterTitle contextPath focusPoint
     = Rejected "Gagal membuat penjelasan detail."%string).
Proof.
  intros Hempty.
  unfold generateTopicTitle, generateChapters, generateSubChapters,
    generateDetails.
  repeat split; intros; match goal with H : _ = Resolved _ |- _ => rewrite H end;
    by rewrite Hempty.
Qed.
End AiServiceFacts.

(** C6 (as stated) fails: with an empty response [generateTopicTitle] is not
    rejected, it resolves. *)
Lemma generateTopicTitle_never_rejects_empty :
  ¬ (∀ (generateContent : string → Settled (option string))
       (titlePrompt trim : string → string) (userPrompt : string)
       (text : option string),
       generateContent (titlePrompt userPrompt) = Resolved text →
       truthy_string text = false →
       ∃ e, generateTopicTitle generateContent titlePrompt trim userPrompt
            = Rejected e).
Proof.
  intros H.
  destruct (H (λ _, Resolved None) (λ s, s) (λ s, s) "kalkulus"%string None
              eq_refl eq_refl) as [e He].
  discriminate He.
Qed.

Lemma empty_response_outcomes_witness :
  truthy_string (Some EmptyString) = false ∧
  generateTopicTitle (λ _, Resolved (Some EmptyString)) (λ s, s) (λ s, s)
    "kalkulus"%string = Resolved "Topik Baru"%string ∧
  generateChapters (λ _, Resolved (Some EmptyString)) (λ a _, a)
    (λ _, Resolved []) "kalkulus"%string EmptyString
  = Rejected "Gagal membuat bab."%string.
Proof.
  pose proof (empty_response_outcomes
    (λ _, Resolved (Some EmptyString)) (λ s, s) (λ a _, a) (λ a _ _, a)
    (λ a _ _, a) (λ s, s) (λ _, Resolved []) (λ _, Resolved [])
    (λ _, Rejected "parse"%string) (Some EmptyString) eq_refl) as (H1 & H2 & _).
  split; [reflexivity|].
  split; [apply H1; reflexivity | apply H2; reflexivity].
Defined.

(** ** Layout engine: the writes of one call *)

Lemma overlay_assoc A B C : overlay A (overlay B C) = overlay (overlay A B) C.
Proof. unfold overlay; simpl. by rewrite !(assoc_L (∪)). Qed.

Lemma overlay_empty_l st : overlay noWrites st = st.
Proof. destruct st. unfold overlay; simpl. by rewrite !(left_id_L ∅ (∪)). Qed.

Lemma overlay_empty_r W : overlay W noWrites = W.
Proof. destruct W. unfold overlay; simpl. by rewrite !(right_id_L ∅ (∪)). Qed.

Lemma layoutChildren_framed rec cx cs :
  framed rec → ∀ cy tot st,
  layoutChildren rec cx cs cy tot st
  = (λ r, (r.1, overlay r.2 st)) <$> layoutChildren rec cx cs cy tot noWrites.
Proof.
  intros Hrec. induction cs as [|c cs IH]; intros cy tot st; simpl.
  - by rewrite overlay_empty_l.
  - rewrite (Hrec (id c) cx cy st).
    destruct (rec (id c) cx cy noWrites) as [[h W]|]; simpl; [|done].
    rewrite (IH _ _ (overlay W st)), (IH _ _ W).
    destruct (layoutChildren rec cx cs _ _ noWrites) as [[[cy' tot'] W']|];
      simpl; [|done].
    by rewrite overlay_assoc.
Qed.

Section LayoutFacts.
Variable nodes : list NodeData.
Variable cm : gmap string (list NodeData).
Abbreviation LN := (layoutNode nodes cm).

Lemma layoutNode_eq fuel i x y st :
  LN (S fuel) i x y st =
    match list_find (λ n, id n = i) nodes with
    | None => Some (0, st)
    | Some (_, node) =>
        let st1 : LayoutState :=
          (<[i := mkPosition x y]> st.1, <[i := getNodeHeight node]> st.2) in
        if truthy_bool (collapsed node) then Some (getNodeHeight node, st1)
        else
          match default [] (cm !! i) with
          | [] => Some (getNodeHeight node, st1)
          | c :: cs =>
              match layoutChildren (LN fuel) (x +ₙ INDENT_X) (c :: cs)
                      (y +ₙ getNodeHeight node +ₙ GAP_Y)
                      (getNodeHeight node + GAP_Y) st1 with
              | None => None
              | Some (_, total, st') => Some (total, st')
              end
          end
    end.
Proof.
  cbn [layoutNode].
  destruct (list_find _ nodes) as [[k node]|]; [|done].
  destruct (truthy_bool _); [done|].
  by destruct (default [] (cm !! i)).
Qed.

Lemma insert_as_overlay i x y node st :
  (<[i := mkPosition x y]> st.1, <[i := getNodeHeight node]> st.2)
  = overlay (ownWrite i x y node) st.
Proof. unfold overlay, ownWrite; simpl. by rewrite !insert_union_singleton_l. Qed.

Lemma layoutNode_framed fuel : framed (LN fuel).
Proof.
  induction fuel as [|fuel IH]; intros i x y st; [done|].
  rewrite !layoutNode_eq.
  destruct (list_find _ nodes) as [[k node]|];
    [|by simpl; rewrite overlay_empty_l].
  cbv zeta. rewrite !insert_as_overlay, overlay_empty_r.
  destruct (truthy_bool _); [done|].
  destruct (default [] (cm !! i)) as [|c cs]; [done|].
  rewrite (layoutChildren_framed _ _ _ IH _ _ (overlay _ st)).
  rewrite (layoutChildren_framed _ _ _ IH _ _ (ownWrite i x y node)).
  destruct (layoutChildren _ _ _ _ _ noWrites) as [[[cy' tot'] W']|];
    simpl; [|done].
  by rewrite overlay_assoc.
Qed.

(** The loop over the children returns the total and the maps of
    [childWrites]; the cursor it ends on is not read again. *)
Lemma layoutChildren_spec rec cx cs cy tot st tot' st' :
  framed rec →
  (∃ cy', layoutChildren rec cx cs cy tot st = Some (cy', tot', st')) ↔
  ∃ W s, childWrites rec cx cs cy W s ∧ tot' = tot + s ∧ st' = overlay W st.
Proof.
  intros Hrec. split.
  - intros [cy' Hlc]. revert cy tot st Hlc.
    induction cs as [|c cs IH]; intros cy tot st; simpl.
    + intros [= <- <- <-]. exists noWrites, 0.
      split; [constructor|]. by rewrite overlay_empty_l, !Z.add_0_r.
    + rewrite (Hrec (id c) cx cy st).
      destruct (rec (id c) cx cy noWrites) as [[h W]|] eqn:Hc; simpl; [|done].
      intros (Wr & s & Hcw & -> & ->)%IH.
      exists (overlay Wr W), ((h + GAP_Y) + s).
      split; [by econstructor|]. rewrite overlay_assoc. split; [lia|done].
  - intros (W & s & Hcw & -> & ->). revert tot st.
    induction Hcw as [y0|c rest y0 h W Wrest s Hc Hcw IH]; intros tot st; simpl.
    + exists y0. by rewrite overlay_empty_l, !Z.add_0_r.
    + rewrite (Hrec (id c) cx y0 st), Hc. simpl.
      destruct (IH (tot + (h + GAP_Y)) (overlay W st)) as [cy' ->].
      exists cy'. by rewrite overlay_assoc, !Z.add_assoc.
Qed.

(** One call of [layoutNode] from empty maps, case by case. *)
Lemma layoutNode_unfold fuel i x y h W :
  LN (S fuel) i x y noWrites = Some (h, W) ↔
  match list_find (λ n, id n = i) nodes with
  | None => h = 0 ∧ W = noWrites
  | Some (_, node) =>
      if truthy_bool (collapsed node)
      then h = getNodeHeight node ∧ W = ownWrite i x y node
      else
        match default [] (cm !! i) with
        | [] => h = getNodeHeight node ∧ W = ownWrite i x y node
        | c :: cs =>
            ∃ Wc s,
              childWrites (LN fuel) (x +ₙ INDENT_X) (c :: cs)
                (y +ₙ getNodeHeight node +ₙ GAP_Y) Wc s ∧
              h = getNodeHeight node + GAP_Y + s ∧
              W = overlay Wc (ownWrite i x y node)
        end
  end.
Proof.
  rewrite layoutNode_eq.
  destruct (list_find _ nodes) as [[k node]|];
    [|by split; [intros [= <- <-]|intros [-> ->]]].
  cbv zeta. rewrite insert_as_overlay, overlay_empty_r.
  destruct (truthy_bool _); [by split; [intros [= <- <-]|intros [-> ->]]|].
  destruct (default [] (cm !! i)) as [|c cs];
    [by split; [intros [= <- <-]|intros [-> ->]]|].
  pose proof (layoutChildren_spec (LN fuel) (x +ₙ INDENT_X) (c :: cs)
                (y +ₙ getNodeHeight node +ₙ GAP_Y) (getNodeHeight node + GAP_Y)
                (ownWrite i x y node)) as Hspec.
  destruct (layoutChildren _ _ _ _ _ _) as [[[cy' tot'] st']|] eqn:Hlc.
  - split.
    + intros [= <- <-].
      destruct (proj1 (Hspec _ _ (layoutNode_framed fuel)) (ex_intro _ cy' eq_refl))
        as (Wc & s & Hcw & -> & ->).
      eauto.
    + intros (Wc' & s' & Hcw' & -> & ->).
      destruct (proj2 (Hspec (getNodeHeight node + GAP_Y + s')
                         (overlay Wc' (ownWrite i x y node))
                         (layoutNode_framed fuel)))
        as [cy'' Hlc']; [eauto|].
      congruence.
  - split; [done|]. intros (Wc' & s' & Hcw' & -> & ->).
    destruct (proj2 (Hspec (getNodeHeight node + GAP_Y + s')
                       (overlay Wc' (ownWrite i x y node))
                       (layoutNode_framed fuel)))
      as [cy'' Hlc']; [eauto|].
    congruence.
Qed.

Lemma childWrites_impl rec rec' cx cs cy W s :
  (∀ i x y r, rec i x y noWrites = Some r → rec' i x y noWrites = Some r) →
  childWrites rec cx cs cy W s → childWrites rec' cx cs cy W s.
Proof. intros H. induction 1; econstructor; eauto. Qed.

Lemma layoutNode_mono_S fuel i x y r :
  LN fuel i x y noWrites = Some r → LN (S fuel) i x y noWrites = Some r.
Proof.
  revert i x y r. induction fuel as [|fuel IH]; intros i x y [h W]; [done|].
  rewrite !layoutNode_unfold.
  destruct (list_find _ nodes) as [[k node]|]; [|done].
  destruct (truthy_bool _); [done|].
  destruct (default [] (cm !! i)) as [|c cs]; [done|].
  intros (Wc & s & Hcw & -> & ->). exists Wc, s. split_and!; [|done..].
  eapply childWrites_impl; [|done]. intros ????. apply IH.
Qed.

Lemma layoutNode_mono fuel fuel' i x y r :
  (fuel ≤ fuel')%nat →
  LN fuel i x y noWrites = Some r → LN fuel' i x y noWrites = Some r.
Proof. induction 1; eauto using layoutNode_mono_S. Qed.

(** The footprint, the visited ids and the heights do not depend on where
    the node is put, and each visited id has both a position and a
    height. *)
Lemma layoutNode_shift fuel i x y h W :
  LN fuel i x y noWrites = Some (h, W) →
  dom W.1 = dom W.2 ∧
  ∀ x' y', ∃ W', LN fuel i x' y' noWrites = Some (h, W') ∧
                 dom W'.1 = dom W.1 ∧ W'.2 = W.2.
Proof.
  revert i x y h W. induction fuel as [|fuel IH]; intros i x y h W; [done|].
  assert (∀ cx cs cy Wc s,
    childWrites (LN fuel) cx cs cy Wc s →
    dom Wc.1 = dom Wc.2 ∧
    ∀ cx' cy', ∃ Wc', childWrites (LN fuel) cx' cs cy' Wc' s ∧
                      dom Wc'.1 = dom Wc.1 ∧ Wc'.2 = Wc.2) as Hcs.
  { intros cx cs cy Wc s Hcw.
    induction Hcw as [y0|c rest y0 hc W0 Wrest s Hc Hcw [IHd IHs]].
    - split; [done|]. intros cx' cy'. exists noWrites. split; [constructor|done].
    - destruct (IH _ _ _ _ _ Hc) as [Hd Hs]. split.
      + simpl. rewrite !dom_union_L. congruence.
      + intros cx' cy'.
        destruct (Hs cx' cy') as (W0' & Hc' & Hd0 & Hh0).
        destruct (IHs cx' (cy' +ₙ (hc + GAP_Y))) as (Wr' & Hcw' & Hdr & Hhr).
        exists (overlay Wr' W0'). split; [by econstructor|].
        simpl. rewrite !dom_union_L. split; congruence. }
  rewrite layoutNode_unfold.
  destruct (list_find _ nodes) as [[k node]|] eqn:Hfind.
  - destruct (truthy_bool (collapsed node)) eqn:Hcol;
      [|destruct (default [] (cm !! i)) as [|c cs] eqn:Hch].
    1,2: intros [-> ->]; split; [by simpl; rewrite !dom_singleton_L|];
      intros x' y'; exists (ownWrite i x' y' node);
      rewrite layoutNode_unfold, Hfind, Hcol, ?Hch;
      by simpl; rewrite !dom_singleton_L.
    intros (Wc & s & Hcw & -> & ->).
    destruct (Hcs _ _ _ _ _ Hcw) as [Hd Hs]. split.
    + simpl. rewrite !dom_union_L, !dom_singleton_L. congruence.
    + intros x' y'.
      destruct (Hs (x' +ₙ INDENT_X) (y' +ₙ getNodeHeight node +ₙ GAP_Y))
        as (Wc' & Hcw' & Hd' & Hh').
      exists (overlay Wc' (ownWrite i x' y' node)).
      rewrite layoutNode_unfold, Hfind, Hcol, Hch. split; [eauto|].
      simpl. rewrite !dom_union_L, !dom_singleton_L. split; congruence.
  - intros [-> ->]. split; [done|]. intros x' y'. exists noWrites.
    by rewrite layoutNode_unfold, Hfind.
Qed.

Lemma layoutNode_footprint_eq fuel fuel' i x y x' y' h h' W W' :
  LN fuel i x y noWrites = Some (h, W) →
  LN fuel' i x' y' noWrites = Some (h', W') →
  h' = h ∧ dom W'.1 = dom W.1 ∧ W'.2 = W.2.
Proof.
  intros H H'.
  destruct (Nat.le_ge_cases fuel fuel') as [Hle|Hle].
  - apply (layoutNode_mono _ _ _ _ _ _ Hle) in H.
    apply layoutNode_shift in H as [_ Hs].
    destruct (Hs x' y') as (W2 & H2 & ? & ?).
    rewrite H' in H2. by injection H2 as <- <-.
  - apply (layoutNode_mono _ _ _ _ _ _ Hle) in H'.
    apply layoutNode_shift in H' as [_ Hs].
    destruct (Hs x y) as (W2 & H2 & ? & ?).
    rewrite H in H2. by injection H2 as <- <-.
Qed.

Lemma childWrites_nonneg rec cx cs cy W s :
  (∀ i x y h W, rec i x y noWrites = Some (h, W) → 0 ≤ h) →
  childWrites rec cx cs cy W s → 0 ≤ s.
Proof.
  intros Hrec. induction 1 as [|c rest y0 h W0 Wrest s Hc Hcw IH]; [done|].
  apply Hrec in Hc. unfold GAP_Y. lia.
Qed.

Lemma layoutNode_nonneg fuel i x y h W :
  LN fuel i x y noWrites = Some (h, W) → 0 ≤ h.
Proof.
  revert i x y h W. induction fuel as [|fuel IH]; intros i x y h W; [done|].
  rewrite layoutNode_unfold.
  destruct (list_find _ nodes) as [[k node]|]; [|intros [-> _]; lia].
  pose proof (getNodeHeight_pos node).
  destruct (truthy_bool _); [intros [-> _]; lia|].
  destruct (default [] (cm !! i)) as [|c cs]; [intros [-> _]; lia|].
  intros (Wc & s & Hcw & -> & _).
  apply childWrites_nonneg in Hcw; [|done]. unfold GAP_Y. lia.
Qed.

(** A visited child accounts for its footprint and one gap in the sum. *)
Lemma childWrites_elem rec cx cs cy W s j :
  (∀ i x y h W, rec i x y noWrites = Some (h, W) → 0 ≤ h) →
  childWrites rec cx cs cy W s → j ∈ dom W.1 →
  ∃ c yc hc Wc, c ∈ cs ∧ rec (id c) cx yc noWrites = Some (hc, Wc) ∧
                j ∈ dom Wc.1 ∧ dom Wc.1 ⊆ dom W.1 ∧ hc + GAP_Y ≤ s.
Proof.
  intros Hrec.
  induction 1 as [|c rest y0 h W0 Wrest s Hc Hcw IH]; simpl.
  - by rewrite dom_empty_L.
  - rewrite dom_union_L. intros [Hj|Hj]%elem_of_union.
    + destruct (IH Hj) as (c' & yc & hc & Wc & Hin & Hc' & Hjc & Hsub & Hle).
      exists c', yc, hc, Wc. split_and!; [by right|done|done|set_solver|].
      apply Hrec in Hc. unfold GAP_Y in *. lia.
    + exists c, y0, h, W0. split_and!; [by left|done|done|set_solver|].
      apply childWrites_nonneg in Hcw; [|done]. lia.
Qed.

Lemma childWrites_dom_child rec cx cs cy W s c :
  childWrites rec cx cs cy W s → c ∈ cs →
  ∃ yc hc Wc, rec (id c) cx yc noWrites = Some (hc, Wc) ∧ dom Wc.1 ⊆ dom W.1.
Proof.
  induction 1 as [|c0 rest y0 h W0 Wrest s Hc Hcw IH]; simpl.
  - by intros ?%elem_of_nil.
  - rewrite dom_union_L. intros [->|Hin]%elem_of_cons.
    + exists y0, h, W0. split; [done|set_solver].
    + destruct (IH Hin) as (yc & hc & Wc & ? & ?).
      exists yc, hc, Wc. split; [done|set_solver].
Qed.

(** Whatever a call visits was laid out by a call of its own, whose
    visited ids are among the caller's and whose footprint is no larger. *)
Lemma layoutNode_visits fuel i x y h W j :
  LN fuel i x y noWrites = Some (h, W) → j ∈ dom W.1 →
  ∃ x' y' hj Wj, LN fuel j x' y' noWrites = Some (hj, Wj) ∧
                 dom Wj.1 ⊆ dom W.1 ∧ hj ≤ h.
Proof.
  revert i x y h W. induction fuel as [|fuel IH]; intros i x y h W; [done|].
  intros Hrun Hj.
  destruct (decide (j = i)) as [->|Hne]; [by exists x, y, h, W|].
  revert Hrun Hj. rewrite layoutNode_unfold.
  destruct (list_find _ nodes) as [[k node]|];
    [|by intros [-> ->]; simpl; rewrite dom_empty_L].
  pose proof (getNodeHeight_pos node).
  destruct (truthy_bool _);
    [by intros [-> ->]; simpl; rewrite dom_singleton_L, elem_of_singleton|].
  destruct (default [] (cm !! i)) as [|c cs];
    [by intros [-> ->]; simpl; rewrite dom_singleton_L, elem_of_singleton|].
  intros (Wc & s & Hcw & -> & ->). simpl.
  rewrite dom_union_L, dom_singleton_L, elem_of_union, elem_of_singleton.
  intros [Hj|?]; [|done].
  destruct (childWrites_elem _ _ _ _ _ _ _ (layoutNode_nonneg fuel) Hcw Hj)
    as (c' & yc & hc & Wc' & _ & Hc & Hjc & Hsub & Hle).
  destruct (IH _ _ _ _ _ Hc Hjc) as (x' & y' & hj & Wj & Hrunj & Hsubj & Hlej).
  exists x', y', hj, Wj. split_and!.
  - by apply layoutNode_mono_S.
  - set_solver.
  - unfold GAP_Y in *. lia.
Qed.

(** The position a call writes for its own node is the one it was given:
    the node is not met again further down. *)
Lemma layoutNode_self fuel i x y h W :
  LN fuel i x y noWrites = Some (h, W) →
  is_Some (list_find (λ n, id n = i) nodes) →
  W.1 !! i = Some (mkPosition x y).
Proof.
  destruct fuel as [|fuel]; [done|]. intros Hrun [[k node] Hfind].
  pose proof Hrun as Hrun'. revert Hrun'.
  rewrite layoutNode_unfold, Hfind.
  destruct (truthy_bool _);
    [by intros [-> ->]; simpl; rewrite lookup_singleton_eq|].
  destruct (default [] (cm !! i)) as [|c cs];
    [by intros [-> ->]; simpl; rewrite lookup_singleton_eq|].
  intros (Wc & s & Hcw & -> & ->). simpl.
  destruct (Wc.1 !! i) as [p|] eqn:Hi;
    [|by rewrite lookup_union_r, lookup_singleton_eq].
  exfalso.
  assert (i ∈ dom Wc.1) as Hd by (apply elem_of_dom; eauto).
  destruct (childWrites_elem _ _ _ _ _ _ _ (layoutNode_nonneg fuel) Hcw Hd)
    as (c' & yc & hc & Wc' & _ & Hc & Hjc & _ & Hle).
  destruct (layoutNode_visits _ _ _ _ _ _ _ Hc Hjc)
    as (x' & y' & hj & Wj & Hrunj & _ & Hlej).
  destruct (layoutNode_footprint_eq _ _ _ _ _ _ _ _ _ _ _ Hrun Hrunj)
    as (-> & _).
  pose proof (getNodeHeight_pos node). unfold GAP_Y in *. lia.
Qed.

Lemma layoutRoots_spec fuel rs st st' :
  layoutRoots nodes cm fuel rs st = Some st' ↔
  ∃ W, rootWrites (LN fuel) rs W ∧ st' = overlay W st.
Proof.
  split.
  - revert st. induction rs as [|r rs IH]; intros st; simpl.
    + intros [= <-]. exists noWrites. split; [constructor|].
      by rewrite overlay_empty_l.
    + rewrite (layoutNode_framed fuel (id r) _ _ st).
      destruct (LN fuel (id r) _ _ noWrites) as [[h W]|] eqn:Hr; simpl; [|done].
      intros (Wr & Hrw & ->)%IH. exists (overlay Wr W).
      split; [by econstructor|]. by rewrite overlay_assoc.
  - intros (W & Hrw & ->). revert st.
    induction Hrw as [|r rest h W Wrest Hr Hrw IH]; intros st; simpl.
    + by rewrite overlay_empty_l.
    + rewrite (layoutNode_framed fuel (id r) _ _ st), Hr. simpl.
      by rewrite IH, overlay_assoc.
Qed.

Lemma rootWrites_snoc rec rs r F :
  rootWrites rec (rs ++ [r]) F ↔
  ∃ h W Wrs, rec (id r) (x (position r)) (y (position r)) noWrites = Some (h, W) ∧
             rootWrites rec rs Wrs ∧ F = overlay W Wrs.
Proof.
  revert F. induction rs as [|r0 rs IH]; intros F; simpl.
  - split.
    + inversion 1 as [|???? Wrest Hr Hrest]; subst.
      inversion Hrest; subst. eexists _, _, noWrites.
      split_and!; [done|constructor|].
      by rewrite overlay_empty_l, overlay_empty_r.
    + intros (h & W & Wrs & Hr & Hrs & ->). inversion Hrs; subst.
      rewrite overlay_empty_r, <-(overlay_empty_l W).
      econstructor; [done|constructor].
  - split.
    + inversion 1 as [|???? Wrest Hr Hrest]; subst.
      apply IH in Hrest as (h' & W' & Wrs & Hr' & Hrs & ->).
      exists h', W', (overlay Wrs W). split_and!; [done|by econstructor|].
      by rewrite overlay_assoc.
    + intros (h & W & Wrs & Hr & Hrs & ->).
      inversion Hrs as [|???? Wrest Hr0 Hrest]; subst.
      rewrite overlay_assoc. econstructor; [done|]. apply IH. eauto 6.
Qed.

Lemma rootWrites_dom rec rs F r :
  rootWrites rec rs F → r ∈ rs →
  ∃ h W, rec (id r) (x (position r)) (y (position r)) noWrites = Some (h, W) ∧
         dom W.1 ⊆ dom F.1.
Proof.
  induction 1 as [|r0 rest h W Wrest Hr Hrw IH]; simpl.
  - by intros ?%elem_of_nil.
  - rewrite dom_union_L. intros [->|Hin]%elem_of_cons.
    + exists h, W. split; [done|set_solver].
    + destruct (IH Hin) as (h' & W' & ? & ?). exists h', W'.
      split; [done|set_solver].
Qed.

(** Laying the roots out again from the positions of a first pass [F]
    writes the same maps [F].  Stated for any set [D] of ids that a later
    root overwrites: the roots in [D] may start anywhere. *)
Lemma rootWrites_again fuel rs F :
  rootWrites (LN fuel) rs F →
  ∀ (D : gset string) rs',
    Forall2 (λ r r', id r' = id r ∧
               (id r ∉ D → F.1 !! id r = Some (position r'))) rs rs' →
    (∀ r, r ∈ rs → is_Some (list_find (λ n, id n = id r) nodes)) →
    (∀ r x y h W, r ∈ rs → id r ∈ D →
       LN fuel (id r) x y noWrites = Some (h, W) → dom W.1 ⊆ D) →
    ∃ F', rootWrites (LN fuel) rs' F' ∧
          (∀ j, j ∉ D → F'.1 !! j = F.1 !! j) ∧
          F'.2 = F.2 ∧ dom F'.1 = dom F.1.
Proof.
  revert F. induction rs as [|r rs IH] using rev_ind; intros F HF D rs' H2 Hex HD.
  - inversion HF; subst. apply Forall2_nil_inv_l in H2 as ->.
    exists noWrites. split; [constructor|done].
  - apply rootWrites_snoc in HF as (h & W & Wrs & Hr & Hrs & ->).
    apply Forall2_app_inv_l in H2 as (rs0' & l' & H2 & H2r & ->).
    apply Forall2_cons_inv_l in H2r as (r' & ? & [Hid Hpos] & ->%Forall2_nil_inv_l & ->).
    simpl in Hpos.
    destruct (layoutNode_shift _ _ _ _ _ _ Hr) as [_ Hshift].
    destruct (Hshift (x (position r')) (y (position r')))
      as (W' & Hr' & HdW' & HhW').
    rewrite <-Hid in Hr'.
    assert (∀ r0 r0', id r0' = id r0 ∧
              (id r0 ∉ D → (W.1 ∪ Wrs.1) !! id r0 = Some (position r0')) →
              id r0' = id r0 ∧
              (id r0 ∉ D ∪ dom W.1 → Wrs.1 !! id r0 = Some (position r0')))
      as Hweak.
    { intros r0 r0' [? Hp]. split; [done|].
      intros [Hn1 Hn2%not_elem_of_dom]%not_elem_of_union.
      by rewrite <-Hp, lookup_union_r. }
    destruct (decide (id r ∈ D)) as [HrD|HrD].
    + assert (dom W.1 ⊆ D) as HWD.
      { eapply HD; [|done|done]. apply elem_of_app. right. by left. }
      destruct (IH Wrs Hrs D rs0') as (F0 & HF0 & Hag & Hh & Hd).
      * eapply Forall2_impl; [done|]. intros r0 r0' [? Hp]. split; [done|].
        intros Hn. rewrite <-Hp by done. symmetry. apply lookup_union_r.
        apply not_elem_of_dom. set_solver.
      * intros r0 Hin. apply Hex, elem_of_app. by left.
      * intros r0 ???? Hin. apply HD, elem_of_app. by left.
      * exists (overlay W' F0). split_and!.
        -- apply rootWrites_snoc. eauto 7.
        -- intros j Hj. simpl.
           rewrite !lookup_union_r; [by apply Hag| |];
             apply not_elem_of_dom; set_solver.
        -- simpl. congruence.
        -- simpl. rewrite !dom_union_L. congruence.
    + specialize (Hpos HrD).
      assert (position r' = position r) as Hsame.
      { assert (W.1 !! id r = Some (mkPosition (x (position r)) (y (position r))))
          as Hself.
        { eapply layoutNode_self; [done|]. apply Hex, elem_of_app. right. by left. }
        rewrite (lookup_union_Some_l _ _ _ _ Hself) in Hpos.
        injection Hpos as <-. by destruct (position r). }
      rewrite Hsame, Hid, Hr in Hr'. injection Hr' as <-.
      destruct (IH Wrs Hrs (D ∪ dom W.1) rs0') as (F0 & HF0 & Hag & Hh & Hd).
      * eapply Forall2_impl; [done|]. apply Hweak.
      * intros r0 Hin. apply Hex, elem_of_app. by left.
      * intros r0 x0 y0 h0 W0 Hin [HinD|HinW]%elem_of_union Hr0.
        -- etrans; [|apply union_subseteq_l]. eapply HD; [|done|done].
           apply elem_of_app. by left.
        -- destruct (layoutNode_visits _ _ _ _ _ _ _ Hr HinW)
             as (x1 & y1 & h1 & W1 & Hr1 & Hsub & _).
           destruct (layoutNode_footprint_eq _ _ _ _ _ _ _ _ _ _ _ Hr1 Hr0)
             as (_ & Hdeq & _).
           rewrite Hdeq. set_solver.
      * exists (overlay W F0). split_and!.
        -- apply rootWrites_snoc. exists h, W, F0.
           by rewrite Hid, Hsame.
        -- intros j Hj. simpl.
           destruct (W.1 !! j) as [p|] eqn:Hj'.
           ++ by rewrite !(lookup_union_Some_l _ _ _ _ Hj').
           ++ rewrite !lookup_union_r by done. apply Hag.
              apply not_elem_of_dom in Hj'. set_solver.
        -- simpl. congruence.
        -- simpl. rewrite !dom_union_L. congruence.
Qed.

Lemma layoutNode_heights fuel i x y h W j hj :
  LN fuel i x y noWrites = Some (h, W) → W.2 !! j = Some hj →
  ∃ k node, list_find (λ n, id n = j) nodes = Some (k, node) ∧
            hj = getNodeHeight node.
Proof.
  revert i x y h W. induction fuel as [|fuel IH]; intros i x y h W; [done|].
  rewrite layoutNode_unfold.
  destruct (list_find (λ n, id n = i) nodes) as [[k node]|] eqn:Hfind;
    [|by intros [-> ->]].
  assert ((ownWrite i x y node).2 !! j = Some hj →
          ∃ k node, list_find (λ n, id n = j) nodes = Some (k, node) ∧
                    hj = getNodeHeight node) as Hown.
  { simpl. intros [<- <-]%lookup_singleton_Some. eauto. }
  destruct (truthy_bool _); [by intros [-> ->]|].
  destruct (default [] (cm !! i)) as [|c cs]; [by intros [-> ->]|].
  intros (Wc & s & Hcw & -> & ->). simpl.
  intros [Hj|[_ Hj]]%lookup_union_Some_raw; [|by apply Hown].
  clear Hown. induction Hcw as [|c0 rest y0 h0 W0 Wrest s0 Hc Hcw IHcw];
    [done|].
  simpl in Hj. apply lookup_union_Some_raw in Hj as [Hj|[_ Hj]]; eauto.
Qed.

Lemma rootWrites_heights fuel rs F j hj :
  rootWrites (LN fuel) rs F → F.2 !! j = Some hj → 80 ≤ hj.
Proof.
  induction 1 as [|r rest h W Wrest Hr Hrw IH]; [done|]. simpl.
  intros [Hj|[_ Hj]]%lookup_union_Some_raw; [by apply IH|].
  destruct (layoutNode_heights _ _ _ _ _ _ _ _ Hr Hj) as (k & node & _ & ->).
  apply getNodeHeight_pos.
Qed.

Lemma rootWrites_balanced fuel rs F :
  rootWrites (LN fuel) rs F → dom F.1 = dom F.2.
Proof.
  induction 1 as [|r rest h W Wrest Hr Hrw IH]; [done|]. simpl.
  apply layoutNode_shift in Hr as [Hr _]. rewrite !dom_union_L. congruence.
Qed.
End LayoutFacts.

(** *** The layout reads only ids, parents, flags and payloads *)

Lemma filter_fmap {A B} (f : A → B) (P : B → Prop) `{!∀ b, Decision (P b)}
    (l : list A) :
  filter P (f <$> l) = f <$> filter (P ∘ f) l.
Proof.
  induction l as [|a l IH]; [done|]. rewrite fmap_cons, !filter_cons. simpl.
  case_decide; by rewrite IH.
Qed.

Section Relabel.
Variable g : NodeData → NodeData.
Hypothesis g_id : ∀ n, id (g n) = id n.
Hypothesis g_parent : ∀ n, parentId (g n) = parentId n.
Hypothesis g_collapsed : ∀ n, collapsed (g n) = collapsed n.
Hypothesis g_height : ∀ n, getNodeHeight (g n) = getNodeHeight n.

Let gs : list NodeData → list NodeData := fmap g.

Lemma addChildEntry_fmap (cm : gmap string (list NodeData)) n :
  addChildEntry (gs <$> cm) (g n) = gs <$> addChildEntry cm n.
Proof.
  unfold addChildEntry. rewrite g_parent.
  destruct (parentId n) as [p|]; [|done].
  destruct (truthy_string _); [|done].
  rewrite fmap_insert, lookup_fmap. f_equal.
  destruct (cm !! p); simpl; unfold gs; by rewrite ?fmap_app.
Qed.

Lemma foldl_addChildEntry_fmap (cm : gmap string (list NodeData)) nodes :
  foldl addChildEntry (gs <$> cm) (g <$> nodes)
  = gs <$> foldl addChildEntry cm nodes.
Proof.
  revert cm. induction nodes as [|n nodes IH]; intros cm; [done|]. simpl.
  by rewrite addChildEntry_fmap, IH.
Qed.

Lemma buildChildrenMap_fmap nodes :
  buildChildrenMap (g <$> nodes) = gs <$> buildChildrenMap nodes.
Proof.
  unfold buildChildrenMap.
  by rewrite <-foldl_addChildEntry_fmap, fmap_empty.
Qed.

Lemma layoutChildren_fmap rec rec' cx cs cy tot st :
  (∀ i x y st, rec' i x y st = rec i x y st) →
  layoutChildren rec' cx (g <$> cs) cy tot st
  = layoutChildren rec cx cs cy tot st.
Proof.
  intros Hrec. revert cy tot st.
  induction cs as [|c cs IH]; intros cy tot st; [done|]. simpl.
  rewrite g_id, Hrec. destruct (rec _ _ _ _) as [[h st']|]; [|done]. apply IH.
Qed.

Lemma layoutNode_fmap nodes (cm : gmap string (list NodeData)) fuel i x y st :
  layoutNode (g <$> nodes) (gs <$> cm) fuel i x y st
  = layoutNode nodes cm fuel i x y st.
Proof.
  revert i x y st. induction fuel as [|fuel IH]; intros i x y st; [done|].
  rewrite !layoutNode_eq, list_find_fmap, lookup_fmap.
  rewrite (list_find_ext _ (λ n, id n = i)) by (intros n; simpl; by rewrite g_id).
  destruct (list_find _ nodes) as [[k node]|]; [|done]. simpl.
  rewrite g_collapsed, g_height. destruct (truthy_bool _); [done|].
  destruct (cm !! i) as [[|c cs]|]; simpl; [done| |done].
  rewrite g_id, IH. destruct (layoutNode nodes cm fuel _ _ _ _) as [[h st']|];
    [|done].
  unfold gs. by rewrite (layoutChildren_fmap (layoutNode nodes cm fuel)).
Qed.

Lemma layoutRoots_fmap nodes (cm : gmap string (list NodeData)) fuel rs st :
  layoutRoots (g <$> nodes) (gs <$> cm) fuel rs st
  = layoutRoots nodes cm fuel rs st.
Proof.
  revert st. induction rs as [|r rs IH]; intros st; [done|]. simpl.
  rewrite layoutNode_fmap. destruct (layoutNode _ _ _ _ _ _ _) as [[h st']|];
    [apply IH|done].
Qed.
End Relabel.

(** *** The final [map] *)

Lemma applyLayout_same st n : sameButLayout n (applyLayout st n).
Proof. unfold applyLayout, sameButLayout. by repeat case_match. Qed.

Lemma applyLayout_id st n : id (applyLayout st n) = id n.
Proof. apply applyLayout_same. Qed.

Lemma applyLayout_parent st n : parentId (applyLayout st n) = parentId n.
Proof. apply applyLayout_same. Qed.

Lemma applyLayout_collapsed st n : collapsed (applyLayout st n) = collapsed n.
Proof. apply applyLayout_same. Qed.

Lemma sameButLayout_height n n' :
  sameButLayout n n' → getNodeHeight n' = getNodeHeight n.
Proof.
  intros (_ & _ & _ & _ & Ht & _ & Hm & _ & Hd).
  unfold getNodeHeight. by rewrite Ht, Hm, Hd.
Qed.

Lemma sameButLayout_isRoot n n' : sameButLayout n n' → isRoot n' = isRoot n.
Proof. intros (_ & Hp & _ & _ & Ht & _). unfold isRoot. by rewrite Ht, Hp. Qed.

Lemma applyLayout_height st n :
  getNodeHeight (applyLayout st n) = getNodeHeight n.
Proof. apply sameButLayout_height, applyLayout_same. Qed.

Lemma applyLayout_visited st n pos h :
  st.1 !! id n = Some pos → st.2 !! id n = Some h → h ≠ 0 →
  position (applyLayout st n) = pos ∧ height (applyLayout st n) = Some h.
Proof.
  intros Hp Hh Hz. unfold applyLayout. rewrite Hp, Hh. simpl.
  by destruct (Z.eqb_spec h 0).
Qed.

Lemma applyLayout_unvisited st n :
  st.1 !! id n = None → applyLayout st n = n.
Proof. intros Hp. unfold applyLayout. by rewrite Hp. Qed.

Lemma applyLayout_twice st n :
  applyLayout st (applyLayout st n) = applyLayout st n.
Proof.
  destruct (applyLayout st n) as [i p t pos l ty c m h ld d] eqn:Hn.
  pose proof (applyLayout_id st n) as Hid. rewrite Hn in Hid. simpl in Hid.
  revert Hn. unfold applyLayout. simpl. rewrite Hid.
  destruct (st.1 !! id n) as [pos'|] eqn:Hp; [|intros _; reflexivity].
  destruct (st.2 !! id n) as [h'|] eqn:Hh; [|intros _; reflexivity].
  destruct (negb (Z.eqb h' 0)) eqn:Hz; [|intros _; reflexivity].
  by intros [= <- <- <- <- <- <- <- <- <- <-].
Qed.

Lemma layoutMaps_spec fuel nodes F :
  layoutMaps fuel nodes = Some F ↔
  rootWrites (layoutNode nodes (buildChildrenMap nodes) fuel)
    (filter (λ n, isRoot n = true) nodes) F.
Proof.
  unfold layoutMaps. rewrite layoutRoots_spec. split.
  - intros (W & HW & ->). by rewrite overlay_empty_r.
  - intros HF. exists F. by rewrite overlay_empty_r.
Qed.

(** Every root is given a position and a (non-zero) height. *)
Lemma layoutMaps_root fuel nodes F r :
  layoutMaps fuel nodes = Some F → r ∈ nodes → isRoot r = true →
  F.1 !! id r = Some (position (applyLayout F r)).
Proof.
  intros HF%layoutMaps_spec Hin Hroot.
  assert (r ∈ filter (λ n, isRoot n = true) nodes) as Hr
    by by apply list_elem_of_filter.
  destruct (rootWrites_dom _ _ _ _ HF Hr) as (h & W & Hrun & Hsub).
  assert (id r ∈ dom F.1) as Hd.
  { apply Hsub, elem_of_dom. eexists.
    eapply layoutNode_self; [done|]. by eapply list_find_elem_of. }
  pose proof Hd as Hd2. rewrite (rootWrites_balanced _ _ _ _ _ HF) in Hd2.
  apply elem_of_dom in Hd as [pos Hpos], Hd2 as [hr Hhr].
  pose proof (rootWrites_heights _ _ _ _ _ _ _ HF Hhr).
  destruct (applyLayout_visited F r pos hr) as [-> _]; [done|done|lia|done].
Qed.

(** C2: a second layout pass returns, and returns its input: no position
    and no height changes. *)
Theorem computeSmartLayout_idempotent fuel nodes laid :
  computeSmartLayout fuel nodes = Some laid →
  computeSmartLayout fuel laid = Some laid.
Proof.
  unfold computeSmartLayout.
  destruct (layoutMaps fuel nodes) as [F|] eqn:HF; [|done]. intros [= <-].
  assert (layoutMaps fuel (applyLayout F <$> nodes) = Some F) as ->.
  { pose proof HF as Hrw%layoutMaps_spec.
    unfold layoutMaps.
    rewrite (buildChildrenMap_fmap _ (applyLayout_parent F)).
    rewrite (layoutRoots_fmap _ (applyLayout_id F) (applyLayout_collapsed F)
               (applyLayout_height F)).
    rewrite filter_fmap.
    rewrite (list_filter_iff _ (λ n, isRoot n = true)); last first.
    { intros n. simpl. by rewrite (sameButLayout_isRoot _ _ (applyLayout_same F n)). }
    apply layoutRoots_spec.
    destruct (rootWrites_again _ _ _ _ _ Hrw ∅
                (applyLayout F <$> filter (λ n, isRoot n = true) nodes))
      as (F' & HF' & Hag & Hh & _).
    - apply Forall2_fmap_r, Forall_Forall2_diag, Forall_forall.
      intros r [Hroot Hin]%list_elem_of_filter.
      split; [apply applyLayout_id|]. intros _.
      by eapply layoutMaps_root.
    - intros r [_ Hin]%list_elem_of_filter. by eapply list_find_elem_of.
    - intros ?????? []%elem_of_empty.
    - exists F'. split; [done|]. rewrite overlay_empty_r.
      destruct F as [Fp Fh], F' as [Fp' Fh']. simpl in *. f_equal; [|done].
      symmetry. apply map_eq. intros j. by apply Hag. }
  f_equal. rewrite <-list_fmap_compose. apply list_fmap_ext.
  intros _ n _. apply applyLayout_twice.
Qed.

(** ** Layout engine: children and termination *)

Lemma foldl_addChildEntry_lookup (cm : gmap string (list NodeData)) l p :
  default [] (foldl addChildEntry cm l !! p)
  = default [] (cm !! p)
    ++ filter (λ n, parentId n = Some p ∧ p ≠ EmptyString) l.
Proof.
  revert cm. induction l as [|n l IH]; intros cm; simpl.
  - by rewrite filter_nil, app_nil_r.
  - rewrite IH, filter_cons. unfold addChildEntry.
    destruct (parentId n) as [q|] eqn:Hq; simpl.
    + destruct (String.eqb_spec q EmptyString) as [->|Hne]; simpl.
      * rewrite decide_False; [done|]. by intros [[= <-] ?].
      * destruct (decide (q = p)) as [->|Hqp].
        -- rewrite lookup_insert_eq. simpl.
           rewrite decide_True by done. by rewrite <-app_assoc.
        -- rewrite lookup_insert_ne by done.
           rewrite decide_False; [done|]. by intros [[= ->] _].
    + done.
Qed.

Lemma layoutChildrenOf_filter nodes p :
  layoutChildrenOf nodes p
  = filter (λ n, parentId n = Some p ∧ p ≠ EmptyString) nodes.
Proof.
  unfold layoutChildrenOf, buildChildrenMap.
  by rewrite foldl_addChildEntry_lookup, lookup_empty.
Qed.

Lemma layoutChildrenOf_elem nodes p c :
  c ∈ layoutChildrenOf nodes p → c ∈ nodes ∧ parentId c = Some p.
Proof.
  rewrite layoutChildrenOf_filter. intros [[? _] ?]%list_elem_of_filter. done.
Qed.

Section Termination.
Variable rk : string → nat.
Variable nodes : list NodeData.
Hypothesis Hrk : ranked rk nodes.

Lemma layoutNode_total fuel i x y :
  (rk i < fuel)%nat →
  is_Some (layoutNode nodes (buildChildrenMap nodes) fuel i x y noWrites).
Proof.
  revert i x y. induction fuel as [|fuel IH]; intros i x y Hlt; [lia|].
  assert (∀ cs cx cy, (∀ c, c ∈ cs → c ∈ layoutChildrenOf nodes i) →
    ∃ W s, childWrites (layoutNode nodes (buildChildrenMap nodes) fuel)
             cx cs cy W s) as Hcs.
  { induction cs as [|c cs IHcs]; intros cx cy Hin.
    - eexists _, _. constructor.
    - destruct (layoutChildrenOf_elem nodes i c) as [Hc Hp];
        [apply Hin; by left|].
      destruct (IH (id c) cx cy) as [[h W] Hrun].
      { specialize (Hrk c i Hc Hp). lia. }
      destruct (IHcs cx (cy +ₙ (h + GAP_Y))) as (Wr & s & Hcw).
      { intros c' ?. apply Hin. by right. }
      eexists _, _. by econstructor. }
  destruct (list_find (λ n, id n = i) nodes) as [[k node]|] eqn:Hfind.
  - destruct (truthy_bool (collapsed node)) eqn:Hcol.
    { eexists (_, _). apply layoutNode_unfold. by rewrite Hfind, Hcol. }
    destruct (default [] (buildChildrenMap nodes !! i)) as [|c cs] eqn:Hch.
    { eexists (_, _). apply layoutNode_unfold. by rewrite Hfind, Hcol, Hch. }
    destruct (Hcs (c :: cs) (x +ₙ INDENT_X) (y +ₙ getNodeHeight node +ₙ GAP_Y))
      as (W & s & Hcw).
    { intros c'. unfold layoutChildrenOf. by rewrite Hch. }
    eexists (_, _). apply layoutNode_unfold. rewrite Hfind, Hcol, Hch. eauto.
  - eexists (_, _). apply layoutNode_unfold. by rewrite Hfind.
Qed.

Lemma computeSmartLayout_total fuel :
  (∀ n, n ∈ nodes → rk (id n) < fuel)%nat →
  is_Some (computeSmartLayout fuel nodes).
Proof.
  intros Hfuel. unfold computeSmartLayout.
  assert (∀ rs, (∀ r, r ∈ rs → r ∈ nodes) →
    ∃ F, rootWrites (layoutNode nodes (buildChildrenMap nodes) fuel) rs F)
    as Hrs.
  { induction rs as [|r rs IH]; intros Hin.
    - eexists. constructor.
    - destruct (layoutNode_total fuel (id r) (x (position r)) (y (position r)))
        as [[h W] Hrun]; [apply Hfuel, Hin; by left|].
      destruct IH as [F HF]; [intros r' ?; apply Hin; by right|].
      eexists. by econstructor. }
  destruct (Hrs (filter (λ n, isRoot n = true) nodes)) as [F HF].
  { by intros r [_ ?]%list_elem_of_filter. }
  apply layoutMaps_spec in HF. by rewrite HF.
Qed.
End Termination.

(** ** Layout engine: footprint and frame *)

Lemma layoutNode_on_state nodes cm fuel i x y st h st' :
  layoutNode nodes cm fuel i x y st = Some (h, st') →
  ∃ W, layoutNode nodes cm fuel i x y noWrites = Some (h, W) ∧
       st' = overlay W st.
Proof.
  rewrite (layoutNode_framed nodes cm fuel i x y st).
  destruct (layoutNode nodes cm fuel i x y noWrites) as [[h0 W]|]; [|done].
  simpl. intros [= <- <-]. eauto.
Qed.

Lemma footprintOf_unique nodes i h h' :
  footprintOf nodes i h → footprintOf nodes i h' → h = h'.
Proof.
  intros (f & x & y & st & st' & (W & H & _)%layoutNode_on_state)
         (f' & x' & y' & st2 & st2' & (W' & H' & _)%layoutNode_on_state).
  by destruct (layoutNode_footprint_eq _ _ _ _ _ _ _ _ _ _ _ _ _ H H') as [-> _].
Qed.

Lemma childWrites_footprints nodes fuel cx cs cy W s :
  childWrites (layoutNode nodes (buildChildrenMap nodes) fuel) cx cs cy W s →
  ∃ hs, Forall2 (λ c hc, footprintOf nodes (id c) hc) cs hs ∧
        s = foldr Z.add 0 ((λ hc, hc + GAP_Y) <$> hs).
Proof.
  induction 1 as [|c rest y0 h W0 Wrest s Hc Hcw (hs & Hhs & ->)].
  - exists []. by split; [constructor|].
  - exists (h :: hs). split; [|done]. constructor; [|done].
    by exists fuel, cx, y0, noWrites, W0.
Qed.

(** C1 (as stated) fails: an expanded node without children has a footprint
    of its own height, with no gap added. *)
Lemma leaf_footprint_without_gap :
  truthy_bool (collapsed loneRoot) = false ∧
  layoutChildrenOf [loneRoot] "r" = [] ∧
  getNodeHeight loneRoot = 80 ∧
  footprintOf [loneRoot] "r" 80 ∧
  ¬ footprintOf [loneRoot] "r" (getNodeHeight loneRoot + GAP_Y + 0).
Proof.
  assert (footprintOf [loneRoot] "r" 80) as H80.
  { exists 1%nat, 0%float, 0%float, noWrites. eexists. by vm_compute. }
  split_and!; [done..|].
  intros H. by specialize (footprintOf_unique _ _ _ _ H H80).
Qed.

(** C1 (amended): the footprint returned for a node is its own height when
    it is collapsed or has no children; otherwise it is its own height plus
    the gap plus the sum of (child footprint + gap) over its children. *)
Theorem footprint_rule nodes i h k node :
  footprintOf nodes i h →
  list_find (λ n, id n = i) nodes = Some (k, node) →
  if truthy_bool (collapsed node) then h = getNodeHeight node
  else match layoutChildrenOf nodes i with
       | [] => h = getNodeHeight node
       | children =>
           ∃ hs, Forall2 (λ c hc, footprintOf nodes (id c) hc) children hs ∧
                 h = getNodeHeight node + GAP_Y
                     + foldr Z.add 0 ((λ hc, hc + GAP_Y) <$> hs)
       end.
Proof.
  intros (fuel & x & y & st & st' & (W & Hrun & _)%layoutNode_on_state) Hfind.
  destruct fuel as [|fuel]; [done|].
  apply layoutNode_unfold in Hrun. rewrite Hfind in Hrun.
  destruct (truthy_bool _); [by destruct Hrun|].
  unfold layoutChildrenOf.
  destruct (default [] (buildChildrenMap nodes !! i)) as [|c cs];
    [by destruct Hrun|].
  destruct Hrun as (Wc & s & Hcw & -> & _).
  apply childWrites_footprints in Hcw as (hs & Hhs & ->). eauto.
Qed.

Lemma layoutNode_visited_laidOut nodes fuel i x y h W j :
  layoutNode nodes (buildChildrenMap nodes) fuel i x y noWrites = Some (h, W) →
  laidOut nodes i → j ∈ dom W.1 → laidOut nodes j.
Proof.
  revert i x y h W. induction fuel as [|fuel IH]; intros i x y h W; [done|].
  rewrite layoutNode_unfold.
  destruct (list_find _ nodes) as [[k node]|] eqn:Hfind;
    [|by intros [-> ->] _; simpl; rewrite dom_empty_L].
  destruct (truthy_bool _) eqn:Hcol;
    [by intros [-> ->] ?; simpl;
        rewrite dom_singleton_L; intros ->%elem_of_singleton|].
  destruct (default [] (buildChildrenMap nodes !! i)) as [|c cs] eqn:Hch;
    [by intros [-> ->] ?; simpl;
        rewrite dom_singleton_L; intros ->%elem_of_singleton|].
  intros (Wc & s & Hcw & -> & ->) Hi. simpl.
  rewrite dom_union_L, dom_singleton_L.
  intros [Hj| ->%elem_of_singleton]%elem_of_union; [|done].
  destruct (childWrites_elem _ _ _ _ _ _ _
              (layoutNode_nonneg nodes _ fuel) Hcw Hj)
    as (c' & yc & hc & Wc' & Hin & Hc & Hjc & _).
  eapply IH; [done| |done].
  apply (lo_child nodes i k node); [done|done|done|].
  unfold layoutChildrenOf. by rewrite Hch.
Qed.

Lemma rootWrites_visited_laidOut nodes fuel rs F j :
  rootWrites (layoutNode nodes (buildChildrenMap nodes) fuel) rs F →
  (∀ r, r ∈ rs → laidOut nodes (id r)) → j ∈ dom F.1 → laidOut nodes j.
Proof.
  induction 1 as [|r rest h W Wrest Hr Hrw IH]; simpl; intros Hroots.
  - by rewrite dom_empty_L.
  - rewrite dom_union_L. intros [Hj|Hj]%elem_of_union.
    + apply IH; [|done]. intros r' ?. apply Hroots. by right.
    + eapply layoutNode_visited_laidOut; [done| |done]. apply Hroots. by left.
Qed.

Lemma layoutMaps_visited_laidOut fuel nodes F j :
  layoutMaps fuel nodes = Some F → j ∈ dom F.1 → laidOut nodes j.
Proof.
  intros HF%layoutMaps_spec. eapply rootWrites_visited_laidOut; [done|].
  intros r [? ?]%list_elem_of_filter. by constructor.
Qed.

(** C7: the layout returns the same nodes, in the same order, with every
    field other than [position] and [height] unchanged; a node the
    traversal does not reach is returned as it was. *)
Theorem computeSmartLayout_frame fuel nodes laid :
  computeSmartLayout fuel nodes = Some laid →
  Forall2 (λ n n', sameButLayout n n' ∧ (¬ laidOut nodes (id n) → n' = n))
    nodes laid.
Proof.
  unfold computeSmartLayout.
  destruct (layoutMaps fuel nodes) as [F|] eqn:HF; [|done]. intros [= <-].
  apply Forall2_fmap_r, Forall_Forall2_diag, Forall_forall. intros n Hn.
  split; [apply applyLayout_same|]. intros Hnot.
  apply applyLayout_unvisited, not_elem_of_dom. intros Hd.
  by eapply Hnot, layoutMaps_visited_laidOut.
Qed.

(** ** Visibility resolver *)

Lemma addAll_elem vs l i :
  i ∈ addAll vs l ↔ i ∈ vs ∨ ∃ c, c ∈ l ∧ id c = i.
Proof.
  unfold addAll. revert vs. induction l as [|c l IH]; intros vs; simpl.
  - split; [by left|]. intros [?|(c & ?%elem_of_nil & _)]; done.
  - rewrite IH, elem_of_union, elem_of_singleton. split.
    + intros [[->|?]|(c' & ? & ?)]; [right|by left|right].
      * exists c. split; [by left|done].
      * exists c'. split; [by right|done].
    + intros [?|(c' & [->|?]%elem_of_cons & <-)]; [by left; right|by left; left|].
      right. by exists c'.
Qed.

(** The loop returns the ids it was given together with the ids of
    everything reached from the queue. *)
Lemma visitQueue_spec nodes fuel queue vs vs' :
  (∀ m, m ∈ queue → id m ∈ vs) →
  visitQueue nodes fuel queue vs = Some vs' →
  ∀ i, i ∈ vs' ↔ i ∈ vs ∨ ∃ m c, m ∈ queue ∧ reachFrom nodes m c ∧ id c = i.
Proof.
  revert queue vs.
  induction fuel as [|fuel IH]; intros [|m rest] vs Hq; simpl; try done.
  - intros [= <-] i. split; [by left|].
    by intros [?|(m & c & ?%elem_of_nil & _)].
  - intros [= <-] i. split; [by left|].
    by intros [?|(m & c & ?%elem_of_nil & _)].
  - rewrite bool_decide_eq_true_2 by (apply Hq; by left). simpl.
    destruct (truthy_bool (collapsed m)) eqn:Hcol; simpl.
    + intros Hrun i.
      assert (∀ m', m' ∈ rest → id m' ∈ vs) as Hq'
        by (intros ??; apply Hq; by right).
      rewrite (IH _ _ Hq' Hrun i). split.
      * intros [?|(m' & c & ? & ? & ?)]; [by left|right].
        exists m', c. split; [by right|done].
      * intros [?|(m' & c & [->|?]%elem_of_cons & Hreach & <-)]; [by left| |].
        -- left. inversion Hreach; subst; [apply Hq; by left|congruence].
        -- right. by exists m', c.
    + set (children := filter (λ n, parentId n = Some (id m)) nodes).
      intros Hrun i.
      assert (∀ m', m' ∈ rest ++ children → id m' ∈ addAll vs children) as Hq'.
      { intros m' [?|?]%elem_of_app; apply addAll_elem.
        - left. apply Hq. by right.
        - right. by exists m'. }
      rewrite (IH _ _ Hq' Hrun i), addAll_elem. split.
      * intros [[?|(c & [Hp Hc]%list_elem_of_filter & <-)]
                |(m' & c & [?|[Hp Hc]%list_elem_of_filter]%elem_of_app & Hreach & <-)].
        -- by left.
        -- right. exists m, c. split; [by left|]. split; [|done].
           eapply reach_step; [done..|constructor].
        -- right. exists m', c. split; [by right|done].
        -- right. exists m, c. split; [by left|]. split; [|done].
           by eapply reach_step.
      * intros [?|(m' & c & [->|?]%elem_of_cons & Hreach & <-)].
        -- by left; left.
        -- inversion Hreach as [|? k ? ? Hk Hpk Hkc]; subst.
           ++ left; left. apply Hq. by left.
           ++ right. exists k, c. split; [|done].
              apply elem_of_app. right. by apply list_elem_of_filter.
        -- right. exists m', c. split; [|done]. apply elem_of_app. by left.
Qed.

Lemma visibleSetOf_spec nodes fuel vs :
  visibleSetOf fuel nodes = Some vs → ∀ i, i ∈ vs ↔ visibleId nodes i.
Proof.
  unfold visibleSetOf. intros Hrun i.
  assert (∀ m, m ∈ filter (λ n, isRoot n = true) nodes →
              id m ∈ addAll ∅ (filter (λ n, isRoot n = true) nodes)) as Hq.
  { intros m ?. apply addAll_elem. right. by exists m. }
  rewrite (visitQueue_spec _ _ _ _ _ Hq Hrun i), addAll_elem.
  unfold visibleId. split.
  - intros [[?%not_elem_of_empty|(r & [? ?]%list_elem_of_filter & <-)]
           |(r & c & [? ?]%list_elem_of_filter & ? & <-)]; [done| |].
    + exists r, r. split_and!; [done..|constructor|done].
    + by exists r, c.
  - intros (r & c & ? & ? & ? & <-). right. exists r, c.
    split; [by apply list_elem_of_filter|done].
Qed.

Lemma visibleNodes_spec nodes fuel vis :
  visibleNodes fuel nodes = Some vis →
  ∀ n, n ∈ vis ↔ n ∈ nodes ∧ visibleId nodes (id n).
Proof.
  unfold visibleNodes.
  destruct (visibleSetOf fuel nodes) as [vs|] eqn:Hvs; [|done].
  intros [= <-] n. rewrite list_elem_of_filter.
  rewrite (visibleSetOf_spec _ _ _ Hvs). tauto.
Qed.

(** *** The loop terminates on acyclic node sets *)

Section QueueTermination.
Variable rk : string → nat.
Variable nodes : list NodeData.
Hypothesis Hrk : ranked rk nodes.

Local Open Scope nat_scope.

Lemma queueWeight_app N q1 q2 :
  queueWeight rk N (q1 ++ q2) = queueWeight rk N q1 + queueWeight rk N q2.
Proof. apply sum_list_with_app. Qed.

Lemma queueWeight_bounded N q B :
  (∀ c, c ∈ q → S N ^ rk (id c) ≤ B) → queueWeight rk N q ≤ length q * B.
Proof.
  unfold queueWeight. induction q as [|c q IH]; intros Hc; simpl; [lia|].
  pose proof (Hc c ltac:(by left)).
  assert (sum_list_with (λ m, S N ^ rk (id m)) q ≤ length q * B)
    by (apply IH; intros ??; apply Hc; by right).
  lia.
Qed.

Lemma children_weigh_less m :
  queueWeight rk (length nodes)
    (filter (λ n, parentId n = Some (id m)) nodes)
  < S (length nodes) ^ rk (id m).
Proof.
  set (N := length nodes).
  set (cs := filter (λ n, parentId n = Some (id m)) nodes).
  destruct (rk (id m)) as [|k] eqn:Hk.
  - assert (cs = []) as ->; [|simpl; unfold queueWeight; simpl; lia].
    destruct cs as [|c cs'] eqn:Hcs; [done|exfalso].
    assert (c ∈ cs) as [Hp Hc]%list_elem_of_filter by (rewrite Hcs; by left).
    specialize (Hrk c (id m) Hc Hp). lia.
  - assert (queueWeight rk N cs ≤ length cs * S N ^ k) as Hle.
    { apply queueWeight_bounded.
      intros c [Hp Hc]%list_elem_of_filter.
      specialize (Hrk c (id m) Hc Hp).
      apply Nat.pow_le_mono_r; lia. }
    assert (length cs ≤ N) by apply length_filter.
    assert (0 < S N ^ k) by (apply Nat.neq_0_lt_0, Nat.pow_nonzero; lia).
    rewrite Nat.pow_succ_r'. nia.
Qed.

Lemma visitQueue_total fuel queue vs :
  queueWeight rk (length nodes) queue < fuel →
  is_Some (visitQueue nodes fuel queue vs).
Proof.
  revert queue vs. induction fuel as [|fuel IH]; intros queue vs Hw; [lia|].
  destruct queue as [|m rest]; simpl; [done|].
  assert (0 < S (length nodes) ^ rk (id m))
    by (apply Nat.neq_0_lt_0, Nat.pow_nonzero; lia).
  unfold queueWeight in Hw. simpl in Hw.
  destruct (_ && _).
  - apply IH. rewrite queueWeight_app.
    pose proof (children_weigh_less m). unfold queueWeight at 1. lia.
  - apply IH. unfold queueWeight. lia.
Qed.
End QueueTermination.

Lemma visibleNodes_total rk nodes fuel :
  ranked rk nodes → enoughFuel rk nodes fuel →
  is_Some (visibleNodes fuel nodes).
Proof.
  intros Hrk [_ Hfuel]. unfold visibleNodes, visibleSetOf.
  by destruct (visitQueue_total rk nodes Hrk fuel _
                (addAll ∅ (filter (λ n, isRoot n = true) nodes)) Hfuel)
    as [vs ->].
Qed.

Lemma enoughFuel_layout rk nodes fuel :
  ranked rk nodes → enoughFuel rk nodes fuel →
  is_Some (computeSmartLayout fuel nodes).
Proof. intros Hrk [Hfuel _]. by eapply computeSmartLayout_total. Qed.

Lemma enoughFuel_mono rk nodes fuel fuel' :
  (fuel ≤ fuel')%nat → enoughFuel rk nodes fuel → enoughFuel rk nodes fuel'.
Proof.
  intros Hle [H1 H2]. split; [|lia]. intros n Hn. specialize (H1 n Hn). lia.
Qed.

Lemma enoughFuel_exists rk nodes : ∃ fuel, enoughFuel rk nodes fuel.
Proof.
  exists (S (sum_list_with (λ n, rk (id n)) nodes
             + queueWeight rk (length nodes)
                 (filter (λ n, isRoot n = true) nodes)))%nat.
  split; [|lia]. intros n Hn.
  pose proof (sum_list_with_in n (λ n, rk (id n)) nodes Hn). simpl in *. lia.
Qed.

(** *** The resolver reads only ids, parents, root-ness and the flag *)

Section RelabelVisible.
Variable g : NodeData → NodeData.
Hypothesis g_id : ∀ n, id (g n) = id n.
Hypothesis g_parent : ∀ n, parentId (g n) = parentId n.
Hypothesis g_root : ∀ n, isRoot (g n) = isRoot n.

Lemma ranked_fmap rk (nodes : list NodeData) : ranked rk (g <$> nodes) ↔ ranked rk nodes.
Proof.
  unfold ranked. split.
  - intros H n p Hn Hp. rewrite <-(g_id n). apply H.
    + by apply list_elem_of_fmap_2.
    + by rewrite g_parent.
  - intros H n' p (n & -> & Hn)%list_elem_of_fmap. rewrite g_id, g_parent.
    by apply H.
Qed.

Lemma roots_fmap (nodes : list NodeData) :
  filter (λ n, isRoot n = true) (g <$> nodes)
  = g <$> filter (λ n, isRoot n = true) nodes.
Proof.
  rewrite filter_fmap. f_equal. apply list_filter_iff. intros n. simpl.
  by rewrite g_root.
Qed.

Lemma queueWeight_fmap rk N q :
  queueWeight rk N (g <$> q) = queueWeight rk N q.
Proof.
  unfold queueWeight. induction q as [|m q IH]; [done|].
  csimpl. by rewrite g_id, IH.
Qed.

Lemma enoughFuel_fmap rk nodes fuel :
  enoughFuel rk (g <$> nodes) fuel ↔ enoughFuel rk nodes fuel.
Proof.
  unfold enoughFuel. rewrite roots_fmap, queueWeight_fmap, length_fmap.
  split; intros [H1 H2]; (split; [|done]).
  - intros n Hn. rewrite <-(g_id n). by apply H1, list_elem_of_fmap_2.
  - intros n' (n & -> & Hn)%list_elem_of_fmap. rewrite g_id. by apply H1.
Qed.

Lemma addAll_fmap vs l : addAll vs (g <$> l) = addAll vs l.
Proof.
  unfold addAll. revert vs. induction l as [|c l IH]; intros vs; [done|].
  csimpl. by rewrite g_id, IH.
Qed.

Hypothesis g_collapsed :
  ∀ n, truthy_bool (collapsed (g n)) = truthy_bool (collapsed n).

Lemma visitQueue_fmap nodes fuel queue vs :
  visitQueue (g <$> nodes) fuel (g <$> queue) vs
  = visitQueue nodes fuel queue vs.
Proof.
  revert queue vs. induction fuel as [|fuel IH]; intros [|m rest] vs; try done.
  simpl. rewrite g_id, g_collapsed.
  destruct (_ && _); [|apply IH].
  rewrite filter_fmap, <-fmap_app, addAll_fmap.
  rewrite (list_filter_iff _ (λ n, parentId n = Some (id m)));
    [apply IH|].
  intros n. simpl. by rewrite g_parent.
Qed.

Lemma visibleSetOf_fmap nodes fuel :
  visibleSetOf fuel (g <$> nodes) = visibleSetOf fuel nodes.
Proof.
  unfold visibleSetOf. by rewrite roots_fmap, addAll_fmap, visitQueue_fmap.
Qed.

Lemma visibleNodes_fmap (nodes : list NodeData) fuel :
  visibleNodes fuel (g <$> nodes)
  = option_map (fmap g) (visibleNodes fuel nodes).
Proof.
  unfold visibleNodes. rewrite visibleSetOf_fmap.
  destruct (visibleSetOf fuel nodes) as [vs|]; [|done]. simpl. f_equal.
  rewrite filter_fmap. f_equal. apply list_filter_iff. intros n. simpl.
  by rewrite g_id.
Qed.
End RelabelVisible.

(** ** Collapsing and re-opening a node *)

Lemma NoDup_id_inj (nodes : list NodeData) m m' :
  NoDup (id <$> nodes) → m ∈ nodes → m' ∈ nodes → id m = id m' → m = m'.
Proof.
  induction nodes as [|n nodes IH]; csimpl; [by intros _ ?%elem_of_nil|].
  intros [Hn Hnd]%NoDup_cons [->|Hm]%elem_of_cons [->|Hm']%elem_of_cons Hid;
    [done| | |by apply IH].
  - destruct Hn. rewrite Hid. by apply list_elem_of_fmap_2.
  - destruct Hn. rewrite <-Hid. by apply list_elem_of_fmap_2.
Qed.

Lemma list_find_NoDup (nodes : list NodeData) n :
  NoDup (id <$> nodes) → n ∈ nodes →
  ∃ k, list_find (λ m, id m = id n) nodes = Some (k, n).
Proof.
  intros Hnd Hn.
  destruct (list_find_elem_of (λ m, id m = id n) nodes n Hn eq_refl)
    as [[k m] Hfind].
  exists k. rewrite Hfind. do 2 f_equal.
  apply list_find_Some in Hfind as (Hk%list_elem_of_lookup_2 & Hid & _).
  by eapply NoDup_id_inj.
Qed.

Lemma toggleCollapsed_id i n : id (toggleCollapsed i n) = id n.
Proof. unfold toggleCollapsed. by case_bool_decide. Qed.

Lemma toggleCollapsed_parent i n : parentId (toggleCollapsed i n) = parentId n.
Proof. unfold toggleCollapsed. by case_bool_decide. Qed.

Lemma toggleCollapsed_isRoot i n : isRoot (toggleCollapsed i n) = isRoot n.
Proof. unfold toggleCollapsed. by case_bool_decide. Qed.

Lemma toggleCollapsed_other i n : id n ≠ i → toggleCollapsed i n = n.
Proof. intros ?. unfold toggleCollapsed. by rewrite bool_decide_eq_false_2. Qed.

Lemma toggleCollapsed_flag i n :
  id n = i →
  truthy_bool (collapsed (toggleCollapsed i n)) = negb (truthy_bool (collapsed n)).
Proof. intros ?. unfold toggleCollapsed. by rewrite bool_decide_eq_true_2. Qed.

Lemma toggleCollapsed_twice i n :
  truthy_bool (collapsed (toggleCollapsed i (toggleCollapsed i n)))
  = truthy_bool (collapsed n).
Proof.
  destruct (decide (id n = i)) as [Hi|Hi].
  - rewrite (toggleCollapsed_flag i (toggleCollapsed i n))
      by by rewrite toggleCollapsed_id.
    rewrite (toggleCollapsed_flag i n) by done. apply negb_involutive.
  - by rewrite !(toggleCollapsed_other i n Hi).
Qed.

Lemma descendant_fmap g (nodes : list NodeData) a d :
  (∀ n, id (g n) = id n) → (∀ n, parentId (g n) = parentId n) →
  descendant (g <$> nodes) a d ↔ descendant nodes a d.
Proof.
  intros g_id g_parent. split.
  - induction 1 as [n' (n & -> & Hn)%list_elem_of_fmap Hp
                   |n' p (n & -> & Hn)%list_elem_of_fmap Hp _ IH];
      rewrite g_id; rewrite g_parent in Hp.
    + by apply desc_child.
    + by eapply desc_step.
  - induction 1 as [n Hn Hp|n p Hn Hp _ IH]; rewrite <-(g_id n).
    + apply desc_child; [by apply list_elem_of_fmap_2|by rewrite g_parent].
    + eapply desc_step; [by apply list_elem_of_fmap_2|by rewrite g_parent|done].
Qed.

Lemma reachFrom_descendant nodes a k c :
  reachFrom nodes k c → descendant nodes a (id k) → descendant nodes a (id c).
Proof.
  induction 1 as [|m k c Hcol Hk Hp _ IH]; [done|]. intros Hm.
  apply IH. by eapply desc_step.
Qed.

Section Collapse.
Variable nodes : list NodeData.
Variable n : NodeData.
Hypothesis Hnd : NoDup (id <$> nodes).
Hypothesis Hn : n ∈ nodes.
Hypothesis Hopen : truthy_bool (collapsed n) = false.
Hypothesis Hroots :
  ∀ m, m ∈ nodes → isRoot m = true → ¬ descendant nodes (id n) (id m).

Let tg := toggleCollapsed (id n).

Lemma reachFrom_toggled_sound m' c' :
  reachFrom (tg <$> nodes) m' c' →
  ∀ m, m' = tg m → m ∈ nodes → ¬ descendant nodes (id n) (id m) →
  ∃ c, c' = tg c ∧ c ∈ nodes ∧ reachFrom nodes m c ∧
       ¬ descendant nodes (id n) (id c).
Proof.
  induction 1 as [m'|m' k' c' Hcol (k & -> & Hk)%list_elem_of_fmap Hp _ IH];
    intros m -> Hm Hnot.
  - exists m. split_and!; [done|done|constructor|done].
  - assert (id m ≠ id n) as Hne.
    { intros Hid. unfold tg in Hcol.
      rewrite toggleCollapsed_flag in Hcol by done.
      pose proof (NoDup_id_inj nodes m n Hnd Hm Hn Hid) as Heq.
      rewrite Heq, Hopen in Hcol. done. }
    unfold tg in Hcol, Hp.
    rewrite toggleCollapsed_other in Hcol by done.
    rewrite toggleCollapsed_parent, toggleCollapsed_id in Hp.
    destruct (IH k eq_refl Hk) as (c & -> & Hc & Hreach & Hnotc).
    { inversion 1 as [k1 Hk1 Hp1 Hid|k1 p Hk1 Hp1 Hdesc Hid];
        apply (NoDup_id_inj nodes k1 k Hnd Hk1 Hk) in Hid as ->.
      - congruence.
      - assert (p = id m) as -> by congruence. done. }
    exists c. split_and!; [done|done| |done]. by apply (reach_step _ _ k).
Qed.

Lemma reachFrom_toggled_complete m c :
  reachFrom nodes m c → ¬ descendant nodes (id n) (id c) →
  reachFrom (tg <$> nodes) (tg m) (tg c).
Proof.
  induction 1 as [|m k c Hcol Hk Hp Hreach IH]; intros Hnot; [constructor|].
  assert (id m ≠ id n) as Hne.
  { intros Hid. apply Hnot. eapply reachFrom_descendant; [done|].
    apply desc_child; [done|congruence]. }
  eapply (reach_step _ _ (tg k)).
  - unfold tg. by rewrite toggleCollapsed_other.
  - by apply list_elem_of_fmap_2.
  - unfold tg. by rewrite toggleCollapsed_parent, toggleCollapsed_id.
  - by apply IH.
Qed.

(** With [n] collapsed, exactly the strict descendants of [n] leave the
    visible ids. *)
Lemma visibleId_toggled i :
  visibleId (tg <$> nodes) i ↔
  visibleId nodes i ∧ ¬ descendant nodes (id n) i.
Proof.
  split.
  - intros (r' & c' & (r & -> & Hr)%list_elem_of_fmap & Hroot & Hreach & <-).
    unfold tg in Hroot. rewrite toggleCollapsed_isRoot in Hroot.
    destruct (reachFrom_toggled_sound _ _ Hreach r eq_refl Hr (Hroots r Hr Hroot))
      as (c & -> & Hc & Hreach' & Hnot).
    unfold tg. rewrite toggleCollapsed_id. split; [|done]. by exists r, c.
  - intros [(r & c & Hr & Hroot & Hreach & <-) Hnot].
    exists (tg r), (tg c). split_and!.
    + by apply list_elem_of_fmap_2.
    + unfold tg. by rewrite toggleCollapsed_isRoot.
    + by apply reachFrom_toggled_complete.
    + unfold tg. by rewrite toggleCollapsed_id.
Qed.
End Collapse.

Lemma reachFrom_elem nodes r c : reachFrom nodes r c → r ∈ nodes → c ∈ nodes.
Proof. induction 1; auto. Qed.

Lemma visibleNodes_ids nodes fuel vis :
  visibleNodes fuel nodes = Some vis →
  ∀ i, i ∈ id <$> vis ↔ visibleId nodes i.
Proof.
  intros Hvis i. rewrite list_elem_of_fmap. split.
  - intros (m & -> & Hm). by apply (visibleNodes_spec _ _ _ Hvis) in Hm as [_ ?].
  - intros (r & c & Hr & Hroot & Hreach & <-). exists c. split; [done|].
    apply (visibleNodes_spec _ _ _ Hvis). split.
    + by eapply reachFrom_elem.
    + by exists r, c.
Qed.

Lemma applyLayout_isRoot st n : isRoot (applyLayout st n) = isRoot n.
Proof. apply sameButLayout_isRoot, applyLayout_same. Qed.

Lemma applyLayout_truthy_collapsed st n :
  truthy_bool (collapsed (applyLayout st n)) = truthy_bool (collapsed n).
Proof. by rewrite applyLayout_collapsed. Qed.

(** The visibility resolver gives the same answer before and after a
    layout pass. *)
Lemma visibleNodes_laid_out fuel' fuel nodes laid :
  computeSmartLayout fuel' nodes = Some laid →
  ∃ F, laid = applyLayout F <$> nodes ∧
       visibleNodes fuel laid
       = option_map (fmap (applyLayout F)) (visibleNodes fuel nodes).
Proof.
  unfold computeSmartLayout.
  destruct (layoutMaps fuel' nodes) as [F|]; [|done]. intros [= <-].
  exists F. split; [done|].
  apply visibleNodes_fmap;
    auto using applyLayout_id, applyLayout_parent, applyLayout_isRoot,
      applyLayout_truthy_collapsed.
Qed.

(** C3 (as stated) fails: a node whose type is [root] is a root of the
    resolver whatever its parent id.  Below the chapter [a] the root-typed
    [x] and its child [y] are strict descendants of [a], and both are still
    shown after [a] has been collapsed. *)
Lemma collapse_keeps_root_typed_descendant :
  NoDup (id <$> rootTypedBelow) ∧
  descendant rootTypedBelow "a" "x" ∧ descendant rootTypedBelow "a" "y" ∧
  option_map (fmap id) (visibleNodes 10 rootTypedBelow)
  = Some ["r"; "a"; "x"; "y"]%string ∧
  option_map (fmap (λ n, (id n, collapsed n)))
    (handleToggleCollapse 10 "a" rootTypedBelow)
  = Some [("r", Some false); ("a", Some true); ("x", Some false);
          ("y", Some false)]%string ∧
  option_map (fmap id)
    (handleToggleCollapse 10 "a" rootTypedBelow ≫= visibleNodes 10)
  = Some ["r"; "a"; "x"; "y"]%string.
Proof.
  assert (descendant rootTypedBelow "a" "x") as Hx.
  { eapply (desc_child _ _ (mkNode "x" _ _ _ _ _ _ _ _ _ _));
      [repeat constructor|reflexivity]. }
  split_and!; [|exact Hx| |by vm_compute..].
  - apply (bool_decide_unpack _). by vm_compute.
  - eapply (desc_step _ _ (mkNode "y" _ _ _ _ _ _ _ _ _ _));
      [repeat constructor|reflexivity|exact Hx].
Qed.

(** C3 (amended): on an acyclic node set with unique ids the resolver
    shows the ids reached from a root through open nodes; collapsing an
    open node [n] below which there is no root removes exactly the strict
    descendants of [n] from the ids shown, and re-opening it restores the
    ids shown before. *)
Theorem collapse_round_trip rk nodes n fuel :
  ranked rk nodes → enoughFuel rk nodes fuel →
  NoDup (id <$> nodes) → n ∈ nodes →
  truthy_bool (collapsed n) = false →
  (∀ m, m ∈ nodes → isRoot m = true → ¬ descendant nodes (id n) (id m)) →
  ∃ vis closed vis1 reopened vis2,
    visibleNodes fuel nodes = Some vis ∧
    handleToggleCollapse fuel (id n) nodes = Some closed ∧
    visibleNodes fuel closed = Some vis1 ∧
    handleToggleCollapse fuel (id n) closed = Some reopened ∧
    visibleNodes fuel reopened = Some vis2 ∧
    (∀ i, i ∈ id <$> vis ↔ visibleId nodes i) ∧
    (∀ i, i ∈ id <$> vis1 ↔
          i ∈ id <$> vis ∧ ¬ descendant nodes (id n) i) ∧
    id <$> vis2 = id <$> vis.
Proof.
  intros Hrk Hfuel Hnd Hn Hopen Hroots.
  set (tg := toggleCollapsed (id n)).
  destruct (visibleNodes_total rk nodes fuel Hrk Hfuel) as [vis Hvis].
  (* collapse *)
  assert (ranked rk (tg <$> nodes)) as Hrk1
    by by apply (ranked_fmap tg (toggleCollapsed_id (id n))
                   (toggleCollapsed_parent (id n))).
  assert (enoughFuel rk (tg <$> nodes) fuel) as Hfuel1
    by by apply (enoughFuel_fmap tg (toggleCollapsed_id (id n))
                   (toggleCollapsed_isRoot (id n))).
  destruct (enoughFuel_layout rk _ fuel Hrk1 Hfuel1) as [closed Hclosed].
  destruct (visibleNodes_laid_out fuel fuel _ _ Hclosed) as (F1 & -> & Hv1).
  destruct (visibleNodes_total rk _ fuel Hrk1 Hfuel1) as [visT HvisT].
  rewrite HvisT in Hv1. simpl in Hv1.
  (* re-open *)
  set (h := λ m, tg (applyLayout F1 (tg m))).
  assert (tg <$> (applyLayout F1 <$> (tg <$> nodes)) = h <$> nodes) as Hh
    by by rewrite <-!list_fmap_compose.
  assert (∀ m, id (h m) = id m) as h_id
    by (intros m; unfold h, tg;
        by rewrite toggleCollapsed_id, applyLayout_id, toggleCollapsed_id).
  assert (∀ m, parentId (h m) = parentId m) as h_parent
    by (intros m; unfold h, tg;
        by rewrite toggleCollapsed_parent, applyLayout_parent,
             toggleCollapsed_parent).
  assert (∀ m, isRoot (h m) = isRoot m) as h_root
    by (intros m; unfold h, tg;
        by rewrite toggleCollapsed_isRoot, applyLayout_isRoot,
             toggleCollapsed_isRoot).
  assert (∀ m, truthy_bool (collapsed (h m)) = truthy_bool (collapsed m))
    as h_col.
  { intros m. rewrite <-(toggleCollapsed_twice (id n) m). unfold h, tg.
    unfold toggleCollapsed at 1 3.
    rewrite applyLayout_id. case_bool_decide; [|apply applyLayout_truthy_collapsed].
    simpl. by rewrite applyLayout_collapsed. }
  assert (ranked rk (h <$> nodes)) as Hrk2 by by apply ranked_fmap.
  assert (enoughFuel rk (h <$> nodes) fuel) as Hfuel2 by by apply enoughFuel_fmap.
  destruct (enoughFuel_layout rk _ fuel Hrk2 Hfuel2) as [reopened Hreopened].
  destruct (visibleNodes_laid_out fuel fuel _ _ Hreopened) as (F2 & -> & Hv2).
  rewrite (visibleNodes_fmap h h_id h_parent h_root h_col), Hvis in Hv2.
  simpl in Hv2.
  eexists vis, _, _, _, _. split_and!; [done|done|done| |done| | |].
  - unfold handleToggleCollapse. fold tg. by rewrite Hh.
  - exact (visibleNodes_ids _ _ _ Hvis).
  - intros i.
    assert (id <$> (applyLayout F1 <$> visT) = id <$> visT) as ->.
    { rewrite <-list_fmap_compose. apply list_fmap_ext. intros _ m _.
      apply applyLayout_id. }
    rewrite (visibleNodes_ids _ _ _ HvisT), (visibleNodes_ids _ _ _ Hvis).
    by apply visibleId_toggled.
  - rewrite <-!list_fmap_compose. apply list_fmap_ext. intros _ m _. simpl.
    by rewrite applyLayout_id, h_id.
Qed.

(** ** A collapsed node is itself shown and laid out *)

Lemma reachFrom_snoc nodes r p c :
  reachFrom nodes r p → truthy_bool (collapsed p) = false →
  c ∈ nodes → parentId c = Some (id p) → reachFrom nodes r c.
Proof.
  induction 1 as [p|m k p Hcol Hk Hp _ IH]; intros Hopen Hc Hpc.
  - apply (reach_step _ _ c); [done|done|done|constructor].
  - apply (reach_step _ _ k); [done|done|done|by apply IH].
Qed.

Lemma reachFrom_last nodes r c :
  reachFrom nodes r c → r ∈ nodes →
  c = r ∨ ∃ m, m ∈ nodes ∧ truthy_bool (collapsed m) = false ∧
               parentId c = Some (id m).
Proof.
  induction 1 as [|m k c Hcol Hk Hp _ IH]; intros Hr; [by left|].
  destruct (IH Hk) as [->|?]; [|by right]. right. by exists m.
Qed.

Lemma ancestorsOpen_elem nodes n : ancestorsOpen nodes n → n ∈ nodes.
Proof. by destruct 1. Qed.

Lemma ancestorsOpen_reach nodes n :
  ancestorsOpen nodes n →
  ∃ r, r ∈ nodes ∧ isRoot r = true ∧ reachFrom nodes r n.
Proof.
  induction 1 as [n Hn Hroot|p n _ (r & Hr & Hroot & Hreach) Hopen Hn Hp].
  - exists n. split_and!; [done..|constructor].
  - exists r. split_and!; [done..|]. by eapply reachFrom_snoc.
Qed.

Lemma rootWrites_elem rec rs F j :
  rootWrites rec rs F → j ∈ dom F.1 →
  ∃ r h W, r ∈ rs ∧
    rec (id r) (x (position r)) (y (position r)) noWrites = Some (h, W) ∧
    j ∈ dom W.1 ∧ dom W.1 ⊆ dom F.1.
Proof.
  induction 1 as [|r rest h W Wrest Hr Hrw IH]; simpl.
  - by rewrite dom_empty_L.
  - rewrite dom_union_L. intros [Hj|Hj]%elem_of_union.
    + destruct (IH Hj) as (r' & h' & W' & ? & ? & ? & ?).
      exists r', h', W'. split_and!; [by right|done|done|set_solver].
    + exists r, h, W. split_and!; [by left|done|done|set_solver].
Qed.

Lemma rootWrites_height_of nodes cm fuel rs F j hj :
  rootWrites (layoutNode nodes cm fuel) rs F → F.2 !! j = Some hj →
  ∃ k node, list_find (λ n, id n = j) nodes = Some (k, node) ∧
            hj = getNodeHeight node.
Proof.
  induction 1 as [|r rest h W Wrest Hr Hrw IH]; [done|]. simpl.
  intros [Hj|[_ Hj]]%lookup_union_Some_raw; [by apply IH|].
  by eapply layoutNode_heights.
Qed.

Section Visited.
Variable nodes : list NodeData.
Hypothesis Hnd : NoDup (id <$> nodes).
Variables (fuel : nat) (F : LayoutState).
Hypothesis HF : layoutMaps fuel nodes = Some F.

Lemma layoutMaps_child_visited p c :
  p ∈ nodes → id p ∈ dom F.1 → truthy_bool (collapsed p) = false →
  c ∈ layoutChildrenOf nodes (id p) → id c ∈ dom F.1.
Proof.
  intros Hp Hvis Hopen Hc.
  pose proof (layoutChildrenOf_elem nodes (id p) c Hc) as [Hcn _].
  pose proof HF as Hrw%layoutMaps_spec.
  destruct (rootWrites_elem _ _ _ _ Hrw Hvis)
    as (r & h & W & _ & Hrun & Hin & Hsub).
  destruct (layoutNode_visits _ _ _ _ _ _ _ _ _ Hrun Hin)
    as (x' & y' & hp & Wp & Hrunp & Hsubp & _).
  destruct fuel as [|fuel']; [done|].
  apply layoutNode_unfold in Hrunp.
  destruct (list_find_NoDup nodes p Hnd Hp) as [k Hfind].
  rewrite Hfind, Hopen in Hrunp.
  unfold layoutChildrenOf in Hc.
  destruct (default [] (buildChildrenMap nodes !! id p)) as [|c0 cs];
    [by apply elem_of_nil in Hc|].
  destruct Hrunp as (Wc & s & Hcw & _ & ->).
  destruct (childWrites_dom_child _ _ _ _ _ _ _ Hcw Hc)
    as (yc & hc & Wc' & Hrunc & Hsubc).
  apply Hsub, Hsubp. simpl. rewrite dom_union_L. apply elem_of_union_l, Hsubc.
  apply elem_of_dom. eexists. eapply layoutNode_self; [done|].
  by eapply list_find_elem_of.
Qed.
End Visited.

(** C10: a node whose ancestors are all open is itself visible and is
    given the position and the height the layout computes for it, also when
    it is collapsed; its non-root children are then not visible. *)
Theorem collapsed_node_itself_shown rk nodes n fuel :
  ranked rk nodes → enoughFuel rk nodes fuel →
  NoDup (id <$> nodes) →
  ancestorsOpen nodes n → truthy_bool (collapsed n) = true →
  ∃ vis F pos,
    visibleNodes fuel nodes = Some vis ∧ n ∈ vis ∧
    (∀ c, c ∈ nodes → parentId c = Some (id n) → isRoot c = false → c ∉ vis) ∧
    layoutMaps fuel nodes = Some F ∧
    computeSmartLayout fuel nodes = Some (applyLayout F <$> nodes) ∧
    F.1 !! id n = Some pos ∧ F.2 !! id n = Some (getNodeHeight n) ∧
    position (applyLayout F n) = pos ∧
    height (applyLayout F n) = Some (getNodeHeight n).
Proof.
  intros Hrk Hfuel Hnd Hopen Hcol.
  pose proof (ancestorsOpen_elem _ _ Hopen) as Hn.
  destruct (visibleNodes_total rk nodes fuel Hrk Hfuel) as [vis Hvis].
  destruct (enoughFuel_layout rk nodes fuel Hrk Hfuel) as [laid Hlaid].
  pose proof Hlaid as Hlaid'. unfold computeSmartLayout in Hlaid'.
  destruct (layoutMaps fuel nodes) as [F|] eqn:HF; [|done].
  injection Hlaid' as <-.
  assert (id n ∈ dom F.1) as Hdom.
  { clear Hcol Hn. induction Hopen as [n Hn Hroot|p n Hp IH Hpopen Hn Hpar].
    - apply elem_of_dom. eexists. by eapply layoutMaps_root.
    - destruct (isRoot n) eqn:Hroot.
      { apply elem_of_dom. eexists. by eapply layoutMaps_root. }
      eapply (layoutMaps_child_visited nodes Hnd fuel F HF p);
        [by eapply ancestorsOpen_elem|done|done|].
      rewrite layoutChildrenOf_filter. apply list_elem_of_filter.
      split; [|done]. split; [done|]. intros Hempty.
      unfold isRoot in Hroot. rewrite Hpar, Hempty in Hroot. simpl in Hroot.
      by rewrite orb_true_r in Hroot. }
  pose proof Hdom as Hdom2.
  pose proof HF as Hrw%layoutMaps_spec.
  rewrite (rootWrites_balanced _ _ _ _ _ Hrw) in Hdom2.
  apply elem_of_dom in Hdom as [pos Hpos], Hdom2 as [hn Hhn].
  destruct (rootWrites_height_of _ _ _ _ _ _ _ Hrw Hhn) as (k & node & Hfind & ->).
  destruct (list_find_NoDup nodes n Hnd Hn) as [k' Hfind'].
  rewrite Hfind' in Hfind. injection Hfind as _ <-.
  destruct (applyLayout_visited F n pos (getNodeHeight n) Hpos Hhn) as [Hp Hh].
  { pose proof (getNodeHeight_pos n). lia. }
  exists vis, F, pos. split_and!; try done.
  - apply (visibleNodes_spec _ _ _ Hvis). split; [done|].
    destruct (ancestorsOpen_reach _ _ Hopen) as (r & ? & ? & ?). by exists r, n.
  - intros c Hc Hpar Hroot [_ (r & c' & Hr & Hrroot & Hreach & Hid)]%(visibleNodes_spec _ _ _ Hvis).
    assert (c' = c) as ->.
    { eapply NoDup_id_inj; [done| |done|done]. by eapply reachFrom_elem. }
    destruct (reachFrom_last _ _ _ Hreach Hr) as [->|(m & Hm & Hmopen & Hpm)];
      [congruence|].
    assert (m = n) as ->; [|congruence].
    eapply NoDup_id_inj; [done..|congruence].
Qed.

(** ** Cascading delete *)

Lemma descendant_trans nodes a b d :
  descendant nodes b d → descendant nodes a b → descendant nodes a d.
Proof.
  induction 1 as [n Hn Hp|n p Hn Hp _ IH]; intros Hab.
  - by eapply desc_step.
  - eapply desc_step; [done..|]. by apply IH.
Qed.

Lemma descendant_mono nodes nodes' a d :
  (∀ n, n ∈ nodes → n ∈ nodes') →
  descendant nodes a d → descendant nodes' a d.
Proof.
  intros Hsub. induction 1 as [n Hn Hp|n p Hn Hp _ IH].
  - apply desc_child; auto.
  - eapply desc_step; eauto.
Qed.

Lemma deleteChildren_spec rec x l cs :
  deletesSubtree rec →
  (∀ c, c ∈ cs → c ∈ l ∧ parentId c = Some x) →
  ∀ (C0 : gset string) r,
    deleteChildren rec cs (filter (λ m, id m ∉ C0) l) = Some r →
    ∃ C : gset string,
      C0 ⊆ C ∧ (∀ c, c ∈ cs → id c ∈ C) ∧
      r = filter (λ m, id m ∉ C) l ∧
      (∀ m p, m ∈ r → parentId m = Some p → p ∈ C → p ∈ C0) ∧
      (∀ d, d ∈ C → d ∈ C0 ∨ descendant l x d).
Proof.
  intros Hrec. induction cs as [|c cs IH]; intros Hcs C0 r; simpl.
  - intros [= <-]. exists C0. split_and!; auto. by intros ? ?%elem_of_nil.
  - destruct (rec (id c) _) as [rem|] eqn:Hc; [|done]. intros Hrest.
    destruct (Hrec _ _ _ Hc) as (Cc & Hcin & -> & Hpar & Hdesc).
    rewrite list_filter_filter in Hrest.
    rewrite (list_filter_iff _ (λ m, id m ∉ C0 ∪ Cc)) in Hrest
      by (intros m; set_solver).
    assert (∀ c', c' ∈ cs → c' ∈ l ∧ parentId c' = Some x) as Hcs'
      by (intros c' ?; apply Hcs; by right).
    destruct (IH Hcs' _ _ Hrest) as (C & Hsub & Hin & -> & Hpar' & Hdesc').
    destruct (Hcs c) as [Hcl Hcx]; [by left|].
    exists C. split_and!.
    + set_solver.
    + intros c' [->|?]%elem_of_cons; [set_solver|auto].
    + done.
    + intros m p Hm Hp HpC.
      pose proof (Hpar' m p Hm Hp HpC) as HpC'.
      apply elem_of_union in HpC' as [?|HpCc]; [done|].
      exfalso. apply (Hpar m p); [|done|done].
      apply list_elem_of_filter in Hm as [HmC Hml].
      rewrite list_filter_filter. apply list_elem_of_filter. set_solver.
    + intros d [[?|Hd]%elem_of_union|?]%Hdesc'; [by left| |by right].
      right. destruct (Hdesc d Hd) as [->|Hd'].
      * by apply desc_child.
      * eapply descendant_trans; [|by apply desc_child].
        eapply descendant_mono; [|done]. by intros n [_ ?]%list_elem_of_filter.
Qed.

Lemma deleteRecursive_spec fuel : deletesSubtree (deleteRecursive fuel).
Proof.
  induction fuel as [|fuel IH]; intros x l r; [done|]. simpl.
  rewrite (list_filter_iff (λ n, id n ≠ x) (λ m, id m ∉ ({[x]} : gset string)))
    by (intros m; set_solver).
  intros Hrun.
  assert (∀ c, c ∈ filter (λ n, parentId n = Some x) l →
               c ∈ l ∧ parentId c = Some x) as Hcs
    by (by intros c [? ?]%list_elem_of_filter).
  destruct (deleteChildren_spec _ x l _ IH Hcs _ _ Hrun)
    as (C & Hsub & Hin & -> & Hpar & Hdesc).
  exists C. split_and!; [set_solver|done| |].
  - intros m p Hm Hp HpC.
    apply (Hpar m p Hm Hp) in HpC as ->%elem_of_singleton.
    apply list_elem_of_filter in Hm as [HmC Hml].
    apply HmC, Hin. by apply list_elem_of_filter.
  - intros d [->%elem_of_singleton|?]%Hdesc; auto.
Qed.

Lemma ranked_filter rk (P : NodeData → Prop) `{!∀ n, Decision (P n)} nodes :
  ranked rk nodes → ranked rk (filter P nodes).
Proof. intros Hrk n p [_ Hn]%list_elem_of_filter. by apply Hrk. Qed.

Lemma deleteRecursive_total rk fuel x l :
  ranked rk l → (rk x < fuel)%nat → is_Some (deleteRecursive fuel x l).
Proof.
  revert x l. induction fuel as [|fuel IH]; intros x l Hrk Hlt; [lia|]. simpl.
  assert (∀ c, c ∈ filter (λ n, parentId n = Some x) l → (rk (id c) < fuel)%nat)
    as Hcs.
  { intros c [Hp Hc]%list_elem_of_filter. specialize (Hrk c x Hc Hp). lia. }
  revert Hcs. generalize (filter (λ n, parentId n = Some x) l) as cs.
  assert (ranked rk (filter (λ n, id n ≠ x) l)) as Hrem by by apply ranked_filter.
  revert Hrem. generalize (filter (λ n, id n ≠ x) l) as rem.
  intros rem Hrem cs. revert rem Hrem.
  induction cs as [|c cs IHcs]; intros rem Hrem Hcs; simpl; [done|].
  destruct (IH (id c) rem Hrem) as [rem' Hrun]; [apply Hcs; by left|].
  rewrite Hrun. apply IHcs.
  - destruct (deleteRecursive_spec _ _ _ _ Hrun) as (C & _ & -> & _).
    by apply ranked_filter.
  - intros c' ?. apply Hcs. by right.
Qed.

Lemma orphan_laid_out st nodes n :
  orphan (applyLayout st <$> nodes) (applyLayout st n) ↔ orphan nodes n.
Proof.
  unfold orphan. rewrite applyLayout_isRoot, applyLayout_parent.
  split; intros [Hroot Hno]; (split; [done|]); intros p Hp [m [Hm Hid]];
    apply (Hno p Hp).
  - exists (applyLayout st m). split; [by apply list_elem_of_fmap_2|].
    by rewrite applyLayout_id.
  - apply list_elem_of_fmap in Hm as (m0 & -> & Hm0). exists m0.
    by rewrite applyLayout_id in Hid.
Qed.

(** C4: deleting an existing node of a node set without orphans removes
    the node and all its descendants, removes nothing else, and leaves no
    orphan. *)
Theorem handleDelete_cascade rk nodes i fuel :
  ranked rk nodes → enoughFuel rk nodes fuel →
  (∀ n, n ∈ nodes → ¬ orphan nodes n) →
  (∃ n, n ∈ nodes ∧ id n = i) →
  ∃ out,
    handleDelete fuel i nodes = Some out ∧
    (∀ m, m ∈ out → id m ≠ i ∧ ¬ descendant nodes i (id m)) ∧
    (∀ m, m ∈ nodes → id m ≠ i → ¬ descendant nodes i (id m) →
          ∃ m', m' ∈ out ∧ sameButLayout m m') ∧
    (∀ m, m ∈ out → ¬ orphan out m).
Proof.
  intros Hrk [Hfuel _] Hno (n & Hn & <-). unfold handleDelete.
  destruct (deleteRecursive_total rk fuel (id n) nodes Hrk (Hfuel n Hn))
    as [rem Hrem].
  rewrite Hrem.
  destruct (deleteRecursive_spec _ _ _ _ Hrem) as (C & Hin & -> & Hpar & Hdesc).
  assert (∀ d, descendant nodes (id n) d → d ∈ C) as Hall.
  { induction 1 as [c Hc Hp|c p Hc Hp _ IH].
    - destruct (decide (id c ∈ C)) as [|Hout]; [done|exfalso].
      apply (Hpar c (id n)); [by apply list_elem_of_filter|done|done].
    - destruct (decide (id c ∈ C)) as [|Hout]; [done|exfalso].
      apply (Hpar c p); [by apply list_elem_of_filter|done|done]. }
  destruct (computeSmartLayout_total rk (filter (λ m, id m ∉ C) nodes)
              (ranked_filter rk _ nodes Hrk) fuel) as [out Hout].
  { intros m [_ Hm]%list_elem_of_filter. by apply Hfuel. }
  exists out. split; [done|].
  unfold computeSmartLayout in Hout.
  destruct (layoutMaps fuel _) as [F|]; [|done]. injection Hout as <-.
  split_and!.
  - intros m' (m & -> & [HmC Hm]%list_elem_of_filter)%list_elem_of_fmap.
    rewrite applyLayout_id. split.
    + intros Hid. apply HmC. by rewrite Hid.
    + intros Hd. by apply HmC, Hall.
  - intros m Hm Hne Hnd. exists (applyLayout F m).
    split; [|apply applyLayout_same].
    apply list_elem_of_fmap_2, list_elem_of_filter. split; [|done].
    intros [?|?]%Hdesc; done.
  - intros m' (m & -> & Hmr)%list_elem_of_fmap.
    rewrite orphan_laid_out. intros [Hroot Horph].
    pose proof Hmr as [HmC Hm]%list_elem_of_filter.
    apply (Hno m Hm). split; [done|]. intros p Hp (q & Hq & Hid).
    apply (Horph p Hp). exists q. split; [|done].
    apply list_elem_of_filter. split; [|done]. rewrite Hid.
    by apply (Hpar m p).
Qed.

(** ** Adding a child *)



Lemma reachFrom_fmap_open g (nodes : list NodeData) m c :
  (∀ n, id (g n) = id n) → (∀ n, parentId (g n) = parentId n) →
  (∀ n, n ∈ nodes → truthy_bool (collapsed n) = false →
        truthy_bool (collapsed (g n)) = false) →
  reachFrom nodes m c → m ∈ nodes →
  reachFrom (g <$> nodes) (g m) (g c).
Proof.
  intros g_id g_parent g_open.
  induction 1 as [|m k c Hcol Hk Hp _ IH]; intros Hm; [constructor|].
  apply (reach_step _ _ (g k)); [by apply g_open|by apply list_elem_of_fmap_2| |by apply IH].
  by rewrite g_parent, g_id.
Qed.

Lemma computeSmartLayout_shape fuel nodes laid :
  computeSmartLayout fuel nodes = Some laid →
  ∃ F, laid = applyLayout F <$> nodes.
Proof.
  unfold computeSmartLayout. destruct (layoutMaps fuel nodes) as [F|]; [|done].
  intros [= <-]. by exists F.
Qed.




(** ** Checking the assumptions on a concrete node set *)

Lemma ranked_check rk nodes :
  forallb (λ n, match parentId n with
                | Some p => Nat.ltb (rk (id n)) (rk p)
                | None => true
                end) nodes = true →
  ranked rk nodes.
Proof.
  rewrite forallb_forall. intros H n p Hn%list_elem_of_In Hp.
  specialize (H n Hn). rewrite Hp in H. by apply Nat.ltb_lt.
Qed.

Lemma enoughFuel_check rk nodes fuel :
  forallb (λ n, Nat.ltb (rk (id n)) fuel) nodes
  && Nat.ltb (queueWeight rk (length nodes)
                (filter (λ n, isRoot n = true) nodes)) fuel = true →
  enoughFuel rk nodes fuel.
Proof.
  intros [H1 H2%Nat.ltb_lt]%andb_true_iff. split; [|done].
  rewrite forallb_forall in H1. intros n Hn%list_elem_of_In.
  by apply Nat.ltb_lt, H1.
Qed.

Lemma descendant_rank rk nodes a d :
  ranked rk nodes → descendant nodes a d → (rk d < rk a)%nat.
Proof.
  intros Hrk. induction 1 as [n Hn Hp|n p Hn Hp _ IH].
  - by apply Hrk.
  - specialize (Hrk n p Hn Hp). lia.
Qed.

Lemma roots_not_below_check rk nodes a :
  ranked rk nodes →
  forallb (λ m, negb (isRoot m) || Nat.leb (rk a) (rk (id m))) nodes = true →
  ∀ m, m ∈ nodes → isRoot m = true → ¬ descendant nodes a (id m).
Proof.
  intros Hrk H m Hm%list_elem_of_In Hroot Hdesc.
  rewrite forallb_forall in H. specialize (H m Hm).
  rewrite Hroot in H. simpl in H. apply Nat.leb_le in H.
  pose proof (descendant_rank rk nodes a (id m) Hrk Hdesc). lia.
Qed.

Lemma no_orphan_check nodes :
  forallb (λ n, isRoot n
                || match parentId n with
                   | Some p => bool_decide (p ∈ id <$> nodes)
                   | None => false
                   end) nodes = true →
  ∀ n, n ∈ nodes → ¬ orphan nodes n.
Proof.
  rewrite forallb_forall. intros H n Hn [Hroot Hno].
  specialize (H n (proj1 (list_elem_of_In _ _) Hn)). rewrite Hroot in H.
  simpl in H. destruct (parentId n) as [p|] eqn:Hp; [|done].
  apply bool_decide_eq_true in H.
  apply list_elem_of_fmap in H as (m & -> & Hm).
  apply (Hno (id m) eq_refl). by exists m.
Qed.

Lemma freshId_check nodes newId :
  forallb (λ n, negb (String.eqb (id n) newId)
                && match parentId n with
                   | Some p => negb (String.eqb p newId)
                   | None => true
                   end) nodes = true →
  freshId nodes newId.
Proof.
  rewrite forallb_forall. intros H n Hn%list_elem_of_In.
  apply H, andb_true_iff in Hn as [H1 H2]. split.
  - intros Heq. by rewrite Heq, String.eqb_refl in H1.
  - intros Hp. rewrite Hp, String.eqb_refl in H2. done.
Qed.

(** ** The theorems at work on the sample map *)

Lemma footprint_rule_witness :
  footprintOf sampleTree "r" 800 ∧
  ∃ hs, Forall2 (λ c hc, footprintOf sampleTree (id c) hc) [sampleA; sampleC] hs ∧
        800 = 180 + GAP_Y + foldr Z.add 0 ((λ hc, hc + GAP_Y) <$> hs).
Proof.
  assert (footprintOf sampleTree "r" 800) as H.
  { exists 3%nat, 0%float, 0%float, noWrites. eexists. vm_compute. reflexivity. }
  split; [exact H|].
  exact (footprint_rule sampleTree "r" 800 0 sampleRoot H eq_refl).
Defined.

Lemma computeSmartLayout_idempotent_witness :
  ∃ laid, computeSmartLayout 3 sampleTree = Some laid ∧
          computeSmartLayout 3 laid = Some laid.
Proof.
  eexists. split; [vm_compute; reflexivity|].
  apply (computeSmartLayout_idempotent 3 sampleTree). vm_compute. reflexivity.
Defined.

Lemma computeSmartLayout_frame_witness :
  ∃ laid, computeSmartLayout 3 sampleTree = Some laid ∧
          Forall2 (λ n n', sameButLayout n n' ∧
                           (¬ laidOut sampleTree (id n) → n' = n))
            sampleTree laid.
Proof.
  eexists. split; [vm_compute; reflexivity|].
  apply (computeSmartLayout_frame 3 sampleTree). vm_compute. reflexivity.
Defined.

Lemma collapse_round_trip_witness :
  ∃ vis closed vis1 reopened vis2,
    visibleNodes 200 sampleTree = Some vis ∧
    handleToggleCollapse 200 "a" sampleTree = Some closed ∧
    visibleNodes 200 closed = Some vis1 ∧
    handleToggleCollapse 200 "a" closed = Some reopened ∧
    visibleNodes 200 reopened = Some vis2 ∧
    (∀ i, i ∈ id <$> vis ↔ visibleId sampleTree i) ∧
    (∀ i, i ∈ id <$> vis1 ↔
          i ∈ id <$> vis ∧ ¬ descendant sampleTree "a" i) ∧
    id <$> vis2 = id <$> vis.
Proof.
  assert (ranked sampleRank sampleTree) as Hrk
    by (apply ranked_check; vm_compute; reflexivity).
  apply (collapse_round_trip sampleRank sampleTree sampleA 200 Hrk).
  - apply enoughFuel_check. vm_compute. reflexivity.
  - apply (bool_decide_unpack _). vm_compute. exact I.
  - repeat constructor.
  - reflexivity.
  - apply (roots_not_below_check sampleRank); [exact Hrk|].
    vm_compute. reflexivity.
Defined.

Lemma handleDelete_cascade_witness :
  ∃ out,
    handleDelete 200 "a" sampleTree = Some out ∧
    (∀ m, m ∈ out → id m ≠ "a"%string ∧ ¬ descendant sampleTree "a" (id m)) ∧
    (∀ m, m ∈ sampleTree → id m ≠ "a"%string →
          ¬ descendant sampleTree "a" (id m) →
          ∃ m', m' ∈ out ∧ sameButLayout m m') ∧
    (∀ m, m ∈ out → ¬ orphan out m).
Proof.
  apply (handleDelete_cascade sampleRank sampleTree "a" 200).
  - apply ranked_check. vm_compute. reflexivity.
  - apply enoughFuel_check. vm_compute. reflexivity.
  - apply no_orphan_check. vm_compute. reflexivity.
  - exists sampleA. split; [repeat constructor|reflexivity].
Defined.



Lemma collapsed_node_itself_shown_witness :
  ∃ vis F pos,
    visibleNodes 200 sampleTree = Some vis ∧ sampleC ∈ vis ∧
    (∀ c, c ∈ sampleTree → parentId c = Some "c"%string →
          isRoot c = false → c ∉ vis) ∧
    layoutMaps 200 sampleTree = Some F ∧
    computeSmartLayout 200 sampleTree = Some (applyLayout F <$> sampleTree) ∧
    F.1 !! "c"%string = Some pos ∧ F.2 !! "c"%string = Some 260 ∧
    position (applyLayout F sampleC) = pos ∧
    height (applyLayout F sampleC) = Some 260.
Proof.
  apply (collapsed_node_itself_shown sampleRank sampleTree sampleC 200).
  - apply ranked_check. vm_compute. reflexivity.
  - apply enoughFuel_check. vm_compute. reflexivity.
  - apply (bool_decide_unpack _). vm_compute. exact I.
  - apply (open_child _ sampleRoot).
    + apply open_root; [repeat constructor|reflexivity].
    + reflexivity.
    + repeat constructor.
    + reflexivity.
  - reflexivity.
Defined.

(** * Further properties

    ** What the layout reads, and what the resolver reads *)

Lemma layoutRoots_same_calls nodes cm fuel g rs st :
  (∀ n, id (g n) = id n) → (∀ n, n ∈ rs → position (g n) = position n) →
  layoutRoots nodes cm fuel (g <$> rs) st = layoutRoots nodes cm fuel rs st.
Proof.
  intros g_id. revert st. induction rs as [|r rs IH]; intros st g_pos; [done|].
  csimpl. rewrite g_id, g_pos by by left.
  destruct (layoutNode _ _ _ _ _ _ _) as [[h st']|]; [|done].
  apply IH. intros n ?. apply g_pos. by right.
Qed.

(** A change of the nodes that keeps ids, parents, types, flags, payloads
    and the positions of the roots does not change the two layout maps. *)
Lemma layoutMaps_relabel g fuel (nodes : list NodeData) :
  (∀ n, id (g n) = id n) → (∀ n, parentId (g n) = parentId n) →
  (∀ n, collapsed (g n) = collapsed n) →
  (∀ n, getNodeHeight (g n) = getNodeHeight n) →
  (∀ n, isRoot (g n) = isRoot n) →
  (∀ n, n ∈ nodes → isRoot n = true → position (g n) = position n) →
  layoutMaps fuel (g <$> nodes) = layoutMaps fuel nodes.
Proof.
  intros g_id g_parent g_col g_h g_root g_pos. unfold layoutMaps.
  rewrite (buildChildrenMap_fmap g g_parent), (roots_fmap g g_root).
  rewrite (layoutRoots_fmap g g_id g_col g_h).
  apply layoutRoots_same_calls; [done|].
  intros n [? ?]%list_elem_of_filter. by apply g_pos.
Qed.

Lemma renameNode_same i t n :
  id (renameNode i t n) = id n ∧ parentId (renameNode i t n) = parentId n ∧
  position (renameNode i t n) = position n ∧
  nodeType (renameNode i t n) = nodeType n ∧
  collapsed (renameNode i t n) = collapsed n ∧
  contentMinimized (renameNode i t n) = contentMinimized n ∧
  data (renameNode i t n) = data n.
Proof. unfold renameNode. by case_bool_decide. Qed.

Lemma renameNode_applyLayout st i t n :
  applyLayout st (renameNode i t n) = renameNode i t (applyLayout st n).
Proof.
  unfold renameNode. rewrite applyLayout_id.
  case_bool_decide; [|done].
  unfold applyLayout. simpl. by repeat case_match.
Qed.

(** X1: [handleEdit] and the layout commute: laying out after an edit gives what
    editing the laid-out nodes gives, so an edit needs no layout pass. *)
Theorem handleEdit_commutes_with_layout fuel i t nodes :
  computeSmartLayout fuel (handleEdit i t nodes)
  = option_map (handleEdit i t) (computeSmartLayout fuel nodes).
Proof.
  unfold computeSmartLayout, handleEdit.
  rewrite (layoutMaps_relabel (renameNode i t)).
  - destruct (layoutMaps fuel nodes) as [F|]; [|done]. simpl. f_equal.
    rewrite <-!list_fmap_compose. apply list_fmap_ext. intros _ n _.
    apply renameNode_applyLayout.
  - intros n. apply renameNode_same.
  - intros n. apply renameNode_same.
  - intros n. apply renameNode_same.
  - intros n. unfold getNodeHeight.
    destruct (renameNode_same i t n) as (_ & _ & _ & -> & _ & -> & ->). done.
  - intros n. unfold isRoot.
    destruct (renameNode_same i t n) as (_ & -> & _ & -> & _). done.
  - intros n _ _. apply renameNode_same.
Qed.

Lemma visibleIds_relabel g fv (nodes : list NodeData) :
  (∀ n, id (g n) = id n) → (∀ n, parentId (g n) = parentId n) →
  (∀ n, isRoot (g n) = isRoot n) →
  (∀ n, truthy_bool (collapsed (g n)) = truthy_bool (collapsed n)) →
  option_map (fmap id) (visibleNodes fv (g <$> nodes))
  = option_map (fmap id) (visibleNodes fv nodes).
Proof.
  intros g_id g_parent g_root g_col.
  rewrite (visibleNodes_fmap g g_id g_parent g_root g_col).
  destruct (visibleNodes fv nodes) as [vis|]; [|done]. simpl. f_equal.
  rewrite <-list_fmap_compose. apply list_fmap_ext. intros _ n _. apply g_id.
Qed.

Lemma moveNode_same i pos n :
  id (moveNode i pos n) = id n ∧ parentId (moveNode i pos n) = parentId n ∧
  nodeType (moveNode i pos n) = nodeType n ∧
  collapsed (moveNode i pos n) = collapsed n ∧
  contentMinimized (moveNode i pos n) = contentMinimized n ∧
  data (moveNode i pos n) = data n.
Proof. unfold moveNode. by case_bool_decide. Qed.

Lemma toggleContent_same i n :
  id (toggleContent i n) = id n ∧ parentId (toggleContent i n) = parentId n ∧
  nodeType (toggleContent i n) = nodeType n ∧
  collapsed (toggleContent i n) = collapsed n ∧
  position (toggleContent i n) = position n ∧
  data (toggleContent i n) = data n.
Proof. unfold toggleContent. by case_bool_decide. Qed.

(** X2: Editing a title, toggling the content of a node, dragging a node and
    the layout pass itself never change which ids the resolver shows. *)
Theorem visible_ids_unchanged fuel fv i t pos nodes :
  option_map (fmap id) (visibleNodes fv (handleEdit i t nodes))
  = option_map (fmap id) (visibleNodes fv nodes) ∧
  (∀ out, handleToggleContent fuel i nodes = Some out →
     option_map (fmap id) (visibleNodes fv out)
     = option_map (fmap id) (visibleNodes fv nodes)) ∧
  (∀ out, handleUpdatePosition fuel i pos nodes = Some out →
     option_map (fmap id) (visibleNodes fv out)
     = option_map (fmap id) (visibleNodes fv nodes)) ∧
  (∀ out, computeSmartLayout fuel nodes = Some out →
     option_map (fmap id) (visibleNodes fv out)
     = option_map (fmap id) (visibleNodes fv nodes)).
Proof.
  assert (∀ l out, computeSmartLayout fuel l = Some out →
            option_map (fmap id) (visibleNodes fv out)
            = option_map (fmap id) (visibleNodes fv l)) as Hlaid.
  { intros l out [F ->]%computeSmartLayout_shape.
    apply visibleIds_relabel;
      auto using applyLayout_id, applyLayout_parent, applyLayout_isRoot,
        applyLayout_truthy_collapsed. }
  split_and!.
  - apply visibleIds_relabel; intros n; unfold isRoot;
      destruct (renameNode_same i t n) as (E1 & E2 & _ & E3 & E4 & _);
      by rewrite ?E1, ?E2, ?E3, ?E4.
  - intros out Hout. rewrite (Hlaid _ _ Hout).
    apply visibleIds_relabel; intros n; unfold isRoot;
      destruct (toggleContent_same i n) as (E1 & E2 & E3 & E4 & _);
      by rewrite ?E1, ?E2, ?E3, ?E4.
  - intros out Hout. rewrite (Hlaid _ _ Hout).
    apply visibleIds_relabel; intros n; unfold isRoot;
      destruct (moveNode_same i pos n) as (E1 & E2 & E3 & E4 & _);
      by rewrite ?E1, ?E2, ?E3, ?E4.
  - apply Hlaid.
Qed.

(** ** What the layout reaches *)

Lemma layoutMaps_children_visited fuel nodes F p k node c :
  layoutMaps fuel nodes = Some F →
  p ∈ dom F.1 → list_find (λ n, id n = p) nodes = Some (k, node) →
  truthy_bool (collapsed node) = false →
  c ∈ layoutChildrenOf nodes p → id c ∈ dom F.1.
Proof.
  intros HF Hvis Hfind Hopen Hc.
  pose proof (layoutChildrenOf_elem nodes p c Hc) as [Hcn _].
  pose proof HF as Hrw%layoutMaps_spec.
  destruct (rootWrites_elem _ _ _ _ Hrw Hvis)
    as (r & h & W & _ & Hrun & Hin & Hsub).
  destruct (layoutNode_visits _ _ _ _ _ _ _ _ _ Hrun Hin)
    as (x' & y' & hp & Wp & Hrunp & Hsubp & _).
  destruct fuel as [|fuel']; [done|].
  apply layoutNode_unfold in Hrunp. rewrite Hfind, Hopen in Hrunp.
  unfold layoutChildrenOf in Hc.
  destruct (default [] (buildChildrenMap nodes !! p)) as [|c0 cs];
    [by apply elem_of_nil in Hc|].
  destruct Hrunp as (Wc & s & Hcw & _ & ->).
  destruct (childWrites_dom_child _ _ _ _ _ _ _ Hcw Hc)
    as (yc & hc & Wc' & Hrunc & Hsubc).
  apply Hsub, Hsubp. simpl. rewrite dom_union_L. apply elem_of_union_l, Hsubc.
  apply elem_of_dom. eexists. eapply layoutNode_self; [done|].
  by eapply list_find_elem_of.
Qed.

(** The layout gives a position to exactly the ids it can reach from a
    root through nodes that are not collapsed. *)
Lemma layoutMaps_reaches fuel nodes F j :
  layoutMaps fuel nodes = Some F → (j ∈ dom F.1 ↔ laidOut nodes j).
Proof.
  intros HF. split; [by eapply layoutMaps_visited_laidOut|].
  induction 1 as [r Hr Hroot|p k node c _ IH Hfind Hopen Hc].
  - apply elem_of_dom. eexists. by eapply layoutMaps_root.
  - by eapply layoutMaps_children_visited.
Qed.

Lemma computeSmartLayout_maps fuel nodes laid :
  computeSmartLayout fuel nodes = Some laid →
  ∃ F, layoutMaps fuel nodes = Some F ∧ laid = applyLayout F <$> nodes.
Proof.
  unfold computeSmartLayout.
  destruct (layoutMaps fuel nodes) as [F|]; [|done]. intros [= <-]. eauto.
Qed.

(** What the final [map] makes of a node whose id has a position. *)
Lemma layoutMaps_applied fuel nodes F n pos :
  layoutMaps fuel nodes = Some F → NoDup (id <$> nodes) → n ∈ nodes →
  F.1 !! id n = Some pos →
  F.2 !! id n = Some (getNodeHeight n) ∧
  position (applyLayout F n) = pos ∧
  height (applyLayout F n) = Some (getNodeHeight n).
Proof.
  intros HF Hnd Hn Hpos.
  pose proof HF as Hrw%layoutMaps_spec.
  assert (id n ∈ dom F.2) as [hn Hhn]%elem_of_dom.
  { rewrite <-(rootWrites_balanced _ _ _ _ _ Hrw). apply elem_of_dom. eauto. }
  destruct (rootWrites_height_of _ _ _ _ _ _ _ Hrw Hhn)
    as (k & node & Hfind & ->).
  destruct (list_find_NoDup nodes n Hnd Hn) as [k' Hfind'].
  rewrite Hfind' in Hfind. injection Hfind as _ <-.
  split; [done|]. apply applyLayout_visited; [done..|].
  pose proof (getNodeHeight_pos n). lia.
Qed.

(** X3: After a layout pass over nodes with unique ids, the cached height of
    every node the layout reaches is the height rule applied to that node. *)
Theorem laid_out_height_is_fresh fuel nodes laid n' :
  computeSmartLayout fuel nodes = Some laid →
  NoDup (id <$> nodes) →
  n' ∈ laid → laidOut nodes (id n') →
  height n' = Some (getNodeHeight n').
Proof.
  intros (F & HF & ->)%computeSmartLayout_maps Hnd
    (n & -> & Hn)%list_elem_of_fmap.
  rewrite applyLayout_id, applyLayout_height.
  intros [pos Hpos]%(layoutMaps_reaches _ _ _ _ HF)%elem_of_dom.
  by destruct (layoutMaps_applied _ _ _ _ _ HF Hnd Hn Hpos) as (_ & _ & ->).
Qed.

Lemma laidOut_visibleId nodes i :
  NoDup (id <$> nodes) → (laidOut nodes i ↔ visibleId nodes i).
Proof.
  intros Hnd. split.
  - induction 1 as [r Hr Hroot|p k node c _ (r & c0 & Hr & Hroot & Hreach & Hid)
                                  Hfind Hopen Hc].
    + exists r, r. split_and!; [done..|constructor|done].
    + apply layoutChildrenOf_elem in Hc as [Hc Hp].
      assert (c0 ∈ nodes) as Hc0 by by eapply reachFrom_elem.
      destruct (list_find_NoDup nodes c0 Hnd Hc0) as [k' Hfind'].
      rewrite Hid, Hfind in Hfind'. injection Hfind' as _ ->.
      exists r, c. split_and!; [done..| |done].
      eapply reachFrom_snoc; [done..|]. by rewrite Hid.
  - intros (r & c & Hr & Hroot & Hreach & <-).
    assert (laidOut nodes (id r)) as Hlr by by constructor.
    revert Hr Hlr. clear Hroot.
    induction Hreach as [m|m k c Hcol Hk Hp _ IH]; intros Hm Hlm; [done|].
    apply IH; [done|].
    destruct (isRoot k) eqn:Hroot; [by constructor|].
    destruct (list_find_NoDup nodes m Hnd Hm) as [km Hfind].
    apply (lo_child nodes (id m) km m); [done..|].
    rewrite layoutChildrenOf_filter. apply list_elem_of_filter.
    split; [|done]. split; [done|]. intros Hempty.
    unfold isRoot in Hroot. rewrite Hp, Hempty in Hroot. simpl in Hroot.
    by rewrite orb_true_r in Hroot.
Qed.

(** X4: With unique ids the resolver and the layout agree: the nodes shown are
    exactly the nodes that are given a position. *)
Theorem shown_iff_laid_out fuel fv nodes F vis n :
  NoDup (id <$> nodes) →
  layoutMaps fuel nodes = Some F → visibleNodes fv nodes = Some vis →
  (n ∈ vis ↔ n ∈ nodes ∧ id n ∈ dom F.1).
Proof.
  intros Hnd HF Hvis.
  rewrite (visibleNodes_spec _ _ _ Hvis), (layoutMaps_reaches _ _ _ _ HF).
  by rewrite (laidOut_visibleId _ _ Hnd).
Qed.

(** ** Dragging a node *)


(** ** Adding a root *)

Lemma list_find_app_fresh (P : NodeData → Prop) `{!∀ n, Decision (P n)}
    (l : list NodeData) n0 :
  ¬ P n0 → list_find P (l ++ [n0]) = list_find P l.
Proof.
  intros Hn0. destruct (list_find P l) as [[k m]|] eqn:Hfind.
  - by apply list_find_app_l.
  - apply list_find_app_None. split; [done|].
    apply list_find_None. by repeat constructor.
Qed.

Lemma layoutChildren_ext rec rec' cx l cy tot st :
  (∀ m x y st, m ∈ l → rec' (id m) x y st = rec (id m) x y st) →
  layoutChildren rec' cx l cy tot st = layoutChildren rec cx l cy tot st.
Proof.
  revert cy tot st. induction l as [|m l IH]; intros cy tot st Hrec; [done|].
  simpl. rewrite Hrec by by left.
  destruct (rec (id m) cx cy st) as [[h st']|]; [|done].
  apply IH. intros m' ????. apply Hrec. by right.
Qed.

Lemma layoutNode_app_fresh nodes cm n0 fuel i x y st :
  (∀ p c, cm !! p = Some c → ∀ m, m ∈ c → id m ≠ id n0) →
  i ≠ id n0 →
  layoutNode (nodes ++ [n0]) cm fuel i x y st
  = layoutNode nodes cm fuel i x y st.
Proof.
  intros Hcm. revert i x y st.
  induction fuel as [|fuel IH]; intros i x y st Hi; [done|].
  rewrite !layoutNode_eq, list_find_app_fresh by congruence.
  destruct (list_find _ nodes) as [[k node]|]; [|done].
  cbv zeta. destruct (truthy_bool _); [done|].
  destruct (cm !! i) as [[|c cs']|] eqn:Hcs; [done| |done].
  cbn [default from_option Datatypes.id].
  rewrite (layoutChildren_ext (layoutNode nodes cm fuel)); [done|].
  intros m ???? . apply IH. by eapply Hcm.
Qed.

Lemma layoutRoots_app nodes cm fuel rs1 rs2 st :
  layoutRoots nodes cm fuel (rs1 ++ rs2) st
  = layoutRoots nodes cm fuel rs1 st ≫= layoutRoots nodes cm fuel rs2.
Proof.
  revert st. induction rs1 as [|r rs1 IH]; intros st; [done|]. simpl.
  destruct (layoutNode _ _ _ _ _ _ _) as [[h st']|]; [apply IH|done].
Qed.

Lemma layoutRoots_app_fresh nodes cm n0 fuel rs st :
  (∀ p c, cm !! p = Some c → ∀ m, m ∈ c → id m ≠ id n0) →
  (∀ r, r ∈ rs → id r ≠ id n0) →
  layoutRoots (nodes ++ [n0]) cm fuel rs st = layoutRoots nodes cm fuel rs st.
Proof.
  intros Hcm. revert st. induction rs as [|r rs IH]; intros st Hrs; [done|].
  simpl. rewrite layoutNode_app_fresh by (done || apply Hrs; by left).
  destruct (layoutNode _ _ _ _ _ _ _) as [[h st']|]; [|done].
  apply IH. intros r' ?. apply Hrs. by right.
Qed.

Lemma buildChildrenMap_elem nodes p cs m :
  buildChildrenMap nodes !! p = Some cs → m ∈ cs → m ∈ nodes.
Proof.
  intros Hp Hm. apply (layoutChildrenOf_elem nodes p).
  unfold layoutChildrenOf. by rewrite Hp.
Qed.

(** X6: Adding a root with a fresh id moves no node: the result is the layout
    of the old nodes followed by the new root, at the position asked for
    and 80 high. *)
Theorem handleAddRoot_moves_nothing fuel newId vx vy nodes :
  freshId nodes newId →
  handleAddRoot (S fuel) newId vx vy nodes
  = option_map
      (λ laid, laid ++ [mkNode newId None "Topik Baru"
                          (mkPosition (vx - 175) (vy - 70)) 0 root
                          (Some false) (Some true) (Some 80) (Some false) None])
      (computeSmartLayout (S fuel) nodes).
Proof.
  intros Hfresh. unfold handleAddRoot, computeSmartLayout, layoutMaps.
  set (nr := newRoot newId vx vy).
  set (cm := buildChildrenMap nodes).
  assert (buildChildrenMap (nodes ++ [nr]) = cm) as ->.
  { unfold cm, buildChildrenMap. by rewrite foldl_app. }
  assert (∀ p c, cm !! p = Some c → ∀ m, m ∈ c → id m ≠ id nr) as Hcm.
  { intros p c Hp m Hm. apply Hfresh. by eapply buildChildrenMap_elem. }
  rewrite filter_app, layoutRoots_app.
  rewrite layoutRoots_app_fresh; [|done|]; last first.
  { intros r [_ Hr]%list_elem_of_filter. by apply Hfresh. }
  fold cm.
  destruct (layoutRoots nodes cm (S fuel) (filter _ nodes) _) as [F|] eqn:HF;
    [|done].
  cbn [mbind option_bind]. rewrite filter_cons, decide_True, filter_nil by done.
  cbn [layoutRoots]. rewrite layoutNode_eq.
  assert (list_find (λ n, id n = id nr) (nodes ++ [nr])
          = Some (length nodes, nr)) as ->.
  { apply list_find_Some. split_and!.
    - by rewrite lookup_app_r, Nat.sub_diag by lia.
    - done.
    - intros j m Hj Hlt. rewrite lookup_app_l in Hj by done.
      apply list_elem_of_lookup_2 in Hj. by apply Hfresh. }
  assert (default [] (cm !! id nr) = []) as ->.
  { change (default [] (cm !! id nr)) with (layoutChildrenOf nodes (id nr)).
    destruct (layoutChildrenOf nodes (id nr)) as [|c cs] eqn:Hcs; [done|].
    assert (c ∈ layoutChildrenOf nodes (id nr)) as Hc by (rewrite Hcs; by left).
    apply layoutChildrenOf_elem in Hc as [Hc Hp]. by apply (Hfresh c Hc) in Hp. }
  cbv zeta. simpl.
  f_equal. rewrite fmap_app. f_equal.
  - apply list_fmap_ext. intros _ n Hn%list_elem_of_lookup_2.
    unfold applyLayout. simpl.
    destruct (Hfresh n Hn) as [Hne _].
    by rewrite !lookup_insert_ne by done.
  - simpl. unfold applyLayout. simpl. by rewrite !lookup_insert_eq.
Qed.

(** ** Where the layout puts the children *)

Lemma stacked_dom nodes P cx cs y c :
  stacked nodes P cx cs y → c ∈ cs → id c ∈ dom P.
Proof.
  induction 1 as [|c0 rest y0 h Hc0 _ _ IH]; [by intros ?%elem_of_nil|].
  intros [->|Hin]%elem_of_cons; [by apply elem_of_dom; eauto|by apply IH].
Qed.

Lemma stacked_agree nodes P P' cx cs y :
  stacked nodes P cx cs y → (∀ c, c ∈ cs → P' !! id c = P !! id c) →
  stacked nodes P' cx cs y.
Proof.
  induction 1 as [|c0 rest y0 h Hc0 Hfp _ IH]; intros Hag; [constructor|].
  econstructor; [|done|].
  - rewrite Hag; [done|by left].
  - apply IH. intros c ?. apply Hag. by right.
Qed.

Lemma NoDup_id_filter (P : NodeData → Prop) `{!∀ n, Decision (P n)}
    (nodes : list NodeData) :
  NoDup (id <$> nodes) → NoDup (id <$> filter P nodes).
Proof.
  intros Hnd. eapply sublist_NoDup; [done|].
  apply fmap_sublist, sublist_filter.
Qed.

Lemma childWrites_child rec cx cs cy W s c :
  (∀ i x y h W, rec i x y noWrites = Some (h, W) → 0 ≤ h) →
  childWrites rec cx cs cy W s → c ∈ cs →
  ∃ yc hc Wc, rec (id c) cx yc noWrites = Some (hc, Wc) ∧
              dom Wc.1 ⊆ dom W.1 ∧ hc + GAP_Y ≤ s.
Proof.
  intros Hrec.
  induction 1 as [|c0 rest y0 h W0 Wrest s Hc Hcw IH]; simpl.
  - by intros ?%elem_of_nil.
  - rewrite dom_union_L. intros [->|Hin]%elem_of_cons.
    + exists y0, h, W0. split_and!; [done|set_solver|].
      apply childWrites_nonneg in Hcw; [|done]. lia.
    + destruct (IH Hin) as (yc & hc & Wc & ? & ? & ?).
      exists yc, hc, Wc. split_and!; [done|set_solver|].
      apply Hrec in Hc. unfold GAP_Y in *. lia.
Qed.

Section Geometry.
Variable nodes : list NodeData.
Hypothesis Hnd : NoDup (id <$> nodes).
Abbreviation LNg := (layoutNode nodes (buildChildrenMap nodes)).

(** A visited id other than the starting one is a child of a visited id. *)
Lemma layoutNode_parent_visited fuel i x y h W j :
  LNg fuel i x y noWrites = Some (h, W) → j ∈ dom W.1 →
  j = i ∨ ∃ c p, c ∈ layoutChildrenOf nodes p ∧ id c = j ∧ p ∈ dom W.1.
Proof.
  revert i x y h W. induction fuel as [|fuel IH]; intros i x y h W; [done|].
  rewrite layoutNode_unfold.
  destruct (list_find _ nodes) as [[k node]|];
    [|by intros [-> ->]; simpl; rewrite dom_empty_L].
  destruct (truthy_bool _);
    [intros [-> ->]; simpl; rewrite dom_singleton_L, elem_of_singleton; auto|].
  destruct (default [] (buildChildrenMap nodes !! i)) as [|c cs] eqn:Hch;
    [intros [-> ->]; simpl; rewrite dom_singleton_L, elem_of_singleton; auto|].
  intros (Wc & s & Hcw & -> & ->). simpl.
  rewrite dom_union_L, dom_singleton_L.
  intros [Hj| ->%elem_of_singleton]%elem_of_union; [|by left].
  destruct (childWrites_elem _ _ _ _ _ _ _
              (layoutNode_nonneg nodes _ fuel) Hcw Hj)
    as (c' & yc & hc & Wc' & Hin & Hc & Hjc & Hsub & _).
  right. destruct (IH _ _ _ _ _ Hc Hjc) as [->|(c0 & p & Hc0 & <- & Hp)].
  - exists c', i. split_and!; [|done|set_solver].
    unfold layoutChildrenOf. by rewrite Hch.
  - exists c0, p. split_and!; [done..|set_solver].
Qed.

(** A call on a child of an open node does not come back to that node. *)
Lemma layoutNode_not_inside fuel fuel' i x y h W k node c x' y' hc Wc :
  LNg fuel i x y noWrites = Some (h, W) →
  list_find (λ n, id n = i) nodes = Some (k, node) →
  truthy_bool (collapsed node) = false →
  c ∈ layoutChildrenOf nodes i →
  LNg fuel' (id c) x' y' noWrites = Some (hc, Wc) →
  i ∉ dom Wc.1.
Proof.
  intros Hrun Hfind Hopen Hc Hrunc Hi.
  destruct fuel as [|fuel]; [done|].
  pose proof Hrun as Hrun'. apply layoutNode_unfold in Hrun'.
  rewrite Hfind, Hopen in Hrun'. unfold layoutChildrenOf in Hc.
  destruct (default [] (buildChildrenMap nodes !! i)) as [|c0 cs];
    [by apply elem_of_nil in Hc|].
  destruct Hrun' as (Wcs & s & Hcw & -> & _).
  destruct (childWrites_child _ _ _ _ _ _ _
              (layoutNode_nonneg nodes _ fuel) Hcw Hc)
    as (yc & hc' & Wc' & Hrunc' & _ & Hle).
  destruct (layoutNode_footprint_eq _ _ _ _ _ _ _ _ _ _ _ _ _ Hrunc Hrunc')
    as (-> & _).
  destruct (layoutNode_visits _ _ _ _ _ _ _ _ _ Hrunc Hi)
    as (x1 & y1 & h1 & W1 & Hrun1 & _ & Hle1).
  destruct (layoutNode_footprint_eq _ _ _ _ _ _ _ _ _ _ _ _ _ Hrun Hrun1)
    as (-> & _).
  pose proof (getNodeHeight_pos node). unfold GAP_Y in *. lia.
Qed.

Lemma placedChildren_agree P P' p :
  placedChildren nodes P p → p ∈ dom P →
  (∀ j, j ∈ dom P → P' !! j = P !! j) →
  placedChildren nodes P' p.
Proof.
  intros Hpl Hp Hag k node Hfind Hopen.
  destruct (Hpl k node Hfind Hopen) as (pos & Hpos & Hst).
  exists pos. split; [by rewrite Hag|].
  eapply stacked_agree; [done|]. intros c Hc. apply Hag.
  by eapply stacked_dom.
Qed.

Lemma child_parent_unique c p c' p' :
  c ∈ layoutChildrenOf nodes p → c' ∈ layoutChildrenOf nodes p' →
  id c = id c' → p = p'.
Proof.
  intros [Hc Hp]%layoutChildrenOf_elem [Hc' Hp']%layoutChildrenOf_elem Hid.
  assert (c = c') as -> by by eapply NoDup_id_inj. congruence.
Qed.

Lemma childWrites_stacked fuel i cx cs cy Wc s :
  (∀ j x y h W, LNg fuel j x y noWrites = Some (h, W) →
     ∀ p, p ∈ dom W.1 → placedChildren nodes W.1 p) →
  childWrites (LNg fuel) cx cs cy Wc s →
  NoDup (id <$> cs) → (∀ c, c ∈ cs → c ∈ layoutChildrenOf nodes i) →
  (∀ c x y h W, c ∈ cs →
     LNg fuel (id c) x y noWrites = Some (h, W) → i ∉ dom W.1) →
  stacked nodes Wc.1 cx cs cy ∧
  (∀ p, p ∈ dom Wc.1 → placedChildren nodes Wc.1 p) ∧
  (i ∉ dom Wc.1) ∧
  (∀ j, j ∈ dom Wc.1 →
     (∃ c, c ∈ cs ∧ id c = j) ∨
     ∃ c p, c ∈ layoutChildrenOf nodes p ∧ id c = j ∧ p ∈ dom Wc.1).
Proof.
  intros IHf.
  induction 1 as [y0|c0 rest y0 h W0 Wrest s Hc Hcw IH];
    intros Hnds Hcs Hni.
  - split_and!; [constructor|by simpl; rewrite dom_empty_L..].
  - apply NoDup_cons in Hnds as [Hc0 Hnds]. fold (fmap id rest) in Hc0, Hnds.
    destruct IH as (Hst & Hpl & Hi & Hvis); [done|..].
    { intros c ?. apply Hcs. by right. }
    { intros c ???? ?. apply Hni. by right. }
    assert (id c0 ∉ dom Wrest.1) as Hc0r.
    { intros [(c & Hin & Hid)|(c & p & Hcp & Hid & Hp)]%Hvis.
      - apply Hc0. rewrite <-Hid. by apply list_elem_of_fmap_2.
      - assert (p = i) as ->; [|done].
        eapply child_parent_unique; [done| |done]. apply Hcs. by left. }
    assert (∀ j, j ∈ dom Wrest.1 → (Wrest.1 ∪ W0.1) !! j = Wrest.1 !! j) as Hl.
    { intros j [v Hv]%elem_of_dom. by rewrite (lookup_union_Some_l _ _ _ _ Hv). }
    split_and!.
    + apply (stacked_cons _ _ _ _ _ _ h).
      * simpl. rewrite lookup_union_r by by apply not_elem_of_dom.
        eapply layoutNode_self; [done|].
        eapply list_find_elem_of; [|done].
        eapply layoutChildrenOf_elem, Hcs. by left.
      * by exists fuel, cx, y0, noWrites, W0.
      * eapply stacked_agree; [done|].
        intros c Hin. apply Hl. by eapply stacked_dom.
    + simpl. intros p. rewrite dom_union_L.
      destruct (decide (p ∈ dom Wrest.1)) as [Hpr|Hpr].
      * intros _. eapply placedChildren_agree; [by apply Hpl|done|done].
      * intros [?|Hp0]%elem_of_union; [done|].
        intros k node Hfind Hopen.
        destruct (IHf _ _ _ _ _ Hc p Hp0 k node Hfind Hopen)
          as (pos & Hpos & Hst0).
        exists pos. split.
        { rewrite lookup_union_r; [done|by apply not_elem_of_dom]. }
        eapply stacked_agree; [done|]. intros d Hd.
        apply lookup_union_r, not_elem_of_dom.
        intros [(c & Hin & Hid)|(c & p' & Hcp & Hid & Hp')]%Hvis.
        -- assert (i = p) as <-.
           { eapply child_parent_unique; [|done|done]. apply Hcs. by right. }
           by eapply Hni; [by left|done|].
        -- assert (p' = p) as -> by by eapply child_parent_unique. done.
    + simpl. rewrite dom_union_L, not_elem_of_union. split; [done|].
      eapply Hni; [by left|done].
    + simpl. intros j. rewrite dom_union_L.
      intros [[(c & ? & ?)|(c & p & ? & ? & ?)]%Hvis|Hj]%elem_of_union.
      * left. exists c. split; [by right|done].
      * right. exists c, p. split_and!; [done..|set_solver].
      * destruct (layoutNode_parent_visited _ _ _ _ _ _ _ Hc Hj)
          as [->|(c & p & ? & ? & ?)].
        -- left. exists c0. split; [by left|done].
        -- right. exists c, p. split_and!; [done..|set_solver].
Qed.

Lemma layoutNode_stacked fuel i x y h W p :
  LNg fuel i x y noWrites = Some (h, W) → p ∈ dom W.1 →
  placedChildren nodes W.1 p.
Proof.
  revert i x y h W p. induction fuel as [|fuel IH]; intros i x y h W p; [done|].
  intros Hrun. pose proof Hrun as Hrun'. revert Hrun'.
  rewrite layoutNode_unfold.
  destruct (list_find _ nodes) as [[k node]|] eqn:Hfind;
    [|by intros [-> ->]; simpl; rewrite dom_empty_L].
  destruct (truthy_bool _) eqn:Hcol.
  { intros [-> ->]. simpl. rewrite dom_singleton_L.
    intros ->%elem_of_singleton k' node' Hfind'. congruence. }
  destruct (default [] (buildChildrenMap nodes !! i)) as [|c cs] eqn:Hch.
  { intros [-> ->]. simpl. rewrite dom_singleton_L.
    intros ->%elem_of_singleton k' node' Hfind' _.
    exists (mkPosition x y). rewrite lookup_singleton_eq. split; [done|].
    unfold layoutChildrenOf. rewrite Hch. constructor. }
  intros (Wc & s & Hcw & -> & ->).
  assert (layoutChildrenOf nodes i = c :: cs) as Hcs
    by (unfold layoutChildrenOf; by rewrite Hch).
  destruct (childWrites_stacked fuel i _ _ _ _ _
              (λ j x0 y0 h0 W0 H0 p0, IH j x0 y0 h0 W0 p0 H0) Hcw)
    as (Hst & Hpl & Hi & _).
  { rewrite <-Hcs, layoutChildrenOf_filter. by apply NoDup_id_filter. }
  { intros c' ?. by rewrite Hcs. }
  { intros c' x' y' h' W' Hin Hrun'.
    eapply layoutNode_not_inside; [done..| |done]. by rewrite Hcs. }
  assert (∀ j, j ∈ dom Wc.1 →
            (Wc.1 ∪ {[i := mkPosition x y]}) !! j = Wc.1 !! j) as Hl.
  { intros j [v Hv]%elem_of_dom. by rewrite (lookup_union_Some_l _ _ _ _ Hv). }
  simpl. rewrite dom_union_L, dom_singleton_L.
  destruct (decide (p ∈ dom Wc.1)) as [Hpc|Hpc].
  - intros _. eapply placedChildren_agree; [by apply Hpl|done|done].
  - intros [?| ->%elem_of_singleton]%elem_of_union; [done|].
    intros k' node' Hfind' _. assert (node' = node) as -> by congruence.
    exists (mkPosition x y). split.
    + rewrite lookup_union_r by by apply not_elem_of_dom.
      apply lookup_singleton_eq.
    + rewrite Hcs. eapply stacked_agree; [done|].
      intros d Hd. apply Hl. by eapply stacked_dom.
Qed.

Lemma rootWrites_stacked fuel rs F :
  rootWrites (LNg fuel) rs F →
  (∀ r p, r ∈ rs → r ∈ nodes ∧ r ∉ layoutChildrenOf nodes p) →
  (∀ p, p ∈ dom F.1 → placedChildren nodes F.1 p) ∧
  (∀ j, j ∈ dom F.1 →
     (∃ r, r ∈ rs ∧ id r = j) ∨
     ∃ c p, c ∈ layoutChildrenOf nodes p ∧ id c = j ∧ p ∈ dom F.1).
Proof.
  induction 1 as [|r rest h W Wrest Hr Hrw IH]; intros Hrs.
  - split; intros ?; simpl; by rewrite dom_empty_L.
  - destruct IH as [Hpl Hvis]. { intros r' p ?. apply Hrs. by right. }
    split.
    + simpl. intros p. rewrite dom_union_L.
      destruct (decide (p ∈ dom Wrest.1)) as [Hpr|Hpr].
      * intros _. eapply placedChildren_agree; [by apply Hpl|done|].
        intros j [v Hv]%elem_of_dom. by rewrite (lookup_union_Some_l _ _ _ _ Hv).
      * intros [?|Hp0]%elem_of_union; [done|].
        intros k node Hfind Hopen.
        destruct (layoutNode_stacked _ _ _ _ _ _ p Hr Hp0 k node Hfind Hopen)
          as (pos & Hpos & Hst0).
        exists pos. split.
        { rewrite lookup_union_r; [done|by apply not_elem_of_dom]. }
        eapply stacked_agree; [done|]. intros d Hd.
        apply lookup_union_r, not_elem_of_dom.
        intros [(r' & Hin & Hid)|(c & p' & Hcp & Hid & Hp')]%Hvis.
        -- destruct (Hrs r' p) as [Hr'n Hr'c]; [by right|].
           apply Hr'c. assert (r' = d) as ->; [|done].
           eapply NoDup_id_inj; [done|done| |done].
           by eapply layoutChildrenOf_elem.
        -- assert (p' = p) as -> by by eapply child_parent_unique. done.
    + simpl. intros j. rewrite dom_union_L.
      intros [[(r' & ? & ?)|(c & p & ? & ? & ?)]%Hvis|Hj]%elem_of_union.
      * left. exists r'. split; [by right|done].
      * right. exists c, p. split_and!; [done..|set_solver].
      * destruct (layoutNode_parent_visited _ _ _ _ _ _ _ Hr Hj)
          as [->|(c & p & ? & ? & ?)].
        -- left. exists r. split; [by left|done].
        -- right. exists c, p. split_and!; [done..|set_solver].
Qed.
End Geometry.

Lemma rootsParentless_not_child nodes r p :
  rootsParentless nodes → r ∈ nodes → isRoot r = true →
  r ∉ layoutChildrenOf nodes p.
Proof.
  intros Hroots Hr Hroot [_ Hp]%layoutChildrenOf_elem.
  by rewrite (Hroots r Hr Hroot) in Hp.
Qed.

Lemma layoutChildrenOf_applyLayout F nodes p :
  layoutChildrenOf (applyLayout F <$> nodes) p
  = applyLayout F <$> layoutChildrenOf nodes p.
Proof.
  rewrite !layoutChildrenOf_filter, filter_fmap. f_equal.
  apply list_filter_iff. intros n. simpl. by rewrite applyLayout_parent.
Qed.

Lemma layoutMaps_placed fuel nodes F p :
  layoutMaps fuel nodes = Some F → NoDup (id <$> nodes) →
  rootsParentless nodes → p ∈ dom F.1 → placedChildren nodes F.1 p.
Proof.
  intros HF%layoutMaps_spec Hnd Hroots.
  apply (rootWrites_stacked nodes Hnd fuel _ F HF).
  intros r q [Hr Hroot]%list_elem_of_filter. split; [done|].
  by apply rootsParentless_not_child.
Qed.

Lemma layoutMaps_column fuel nodes F p :
  layoutMaps fuel nodes = Some F →
  NoDup (id <$> nodes) → rootsParentless nodes →
  p ∈ nodes → laidOut nodes (id p) → truthy_bool (collapsed p) = false →
  column nodes (x (position (applyLayout F p)) +ₙ INDENT_X)
    (applyLayout F <$> layoutChildrenOf nodes (id p))
    (y (position (applyLayout F p)) +ₙ getNodeHeight p +ₙ GAP_Y).
Proof.
  intros HF Hnd Hroots Hp Hlaid%(layoutMaps_reaches _ _ _ _ HF) Hopen.
  destruct (list_find_NoDup nodes p Hnd Hp) as [k Hfind].
  destruct (layoutMaps_placed _ _ _ _ HF Hnd Hroots Hlaid k p Hfind Hopen)
    as (pos & Hpos & Hst).
  destruct (layoutMaps_applied _ _ _ _ _ HF Hnd Hp Hpos) as (_ & -> & _).
  assert (∀ c, c ∈ layoutChildrenOf nodes (id p) → c ∈ nodes) as Hin
    by (intros c ?; by eapply layoutChildrenOf_elem).
  revert Hst Hin. generalize (y pos +ₙ getNodeHeight p +ₙ GAP_Y).
  generalize (layoutChildrenOf nodes (id p)).
  induction 1 as [|c rest y0 h Hc Hfp _ IH]; intros Hin; csimpl;
    [constructor|].
  apply (column_cons _ _ _ _ _ h).
  - eapply layoutMaps_applied; [done..| |done]. apply Hin. by left.
  - by rewrite applyLayout_id.
  - apply IH. intros c' ?. apply Hin. by right.
Qed.

(** X7: After a layout pass over nodes with unique ids whose roots have no
    parent, the children of every reached, open node stand in one column,
    at the node's [x] plus [INDENT_X]: the first at the node's [y] plus its
    height plus [GAP_Y], each next one at the [y] of the one before plus
    (its footprint plus [GAP_Y]), every sum being the code's own, taken in
    the code's order on the doubles. *)
Theorem children_stacked_below_parent fuel nodes laid p :
  computeSmartLayout fuel nodes = Some laid →
  NoDup (id <$> nodes) → rootsParentless nodes →
  p ∈ laid → laidOut nodes (id p) → truthy_bool (collapsed p) = false →
  column nodes (x (position p) +ₙ INDENT_X) (layoutChildrenOf laid (id p))
    (y (position p) +ₙ getNodeHeight p +ₙ GAP_Y).
Proof.
  intros (F & HF & ->)%computeSmartLayout_maps Hnd Hroots
    (p0 & -> & Hp0)%list_elem_of_fmap.
  rewrite applyLayout_id, applyLayout_collapsed, applyLayout_height.
  rewrite layoutChildrenOf_applyLayout. intros Hlo Hopen.
  by apply (layoutMaps_column fuel).
Qed.

(** ** What a call on a root reaches *)

Lemma layoutNode_reach_gen nodes fuel m x y h W c :
  NoDup (id <$> nodes) →
  (∀ m k, m ∈ nodes → k ∈ nodes → parentId k = Some (id m) →
          k ∈ layoutChildrenOf nodes (id m)) →
  layoutNode nodes (buildChildrenMap nodes) fuel (id m) x y noWrites
  = Some (h, W) →
  m ∈ nodes → reachFrom nodes m c → id c ∈ dom W.1.
Proof.
  intros Hnd Hkids Hrun Hm Hreach. revert fuel x y h W Hrun Hm.
  induction Hreach as [m|m k c Hopen Hk Hp _ IH]; intros fuel x y h W Hrun Hm.
  - apply elem_of_dom. eexists. eapply layoutNode_self; [done|].
    by eapply list_find_elem_of.
  - destruct fuel as [|fuel]; [done|].
    apply layoutNode_unfold in Hrun.
    destruct (list_find_NoDup nodes m Hnd Hm) as [km Hfind].
    rewrite Hfind, Hopen in Hrun.
    pose proof (Hkids m k Hm Hk Hp) as Hkc.
    unfold layoutChildrenOf in Hkc.
    destruct (default [] (buildChildrenMap nodes !! id m)) as [|c0 cs];
      [by apply elem_of_nil in Hkc|].
    destruct Hrun as (Wc & s & Hcw & _ & ->).
    destruct (childWrites_dom_child _ _ _ _ _ _ _ Hcw Hkc)
      as (yc & hc & Wk & Hrunk & Hsub).
    simpl. rewrite dom_union_L. apply elem_of_union_l, Hsub.
    by eapply IH.
Qed.

Section RootLayers.
Variable nodes : list NodeData.
Hypothesis Hnd : NoDup (id <$> nodes).
Hypothesis Hroots : rootsParentless nodes.
Abbreviation LNr := (layoutNode nodes (buildChildrenMap nodes)).

Lemma layoutNode_visits_descendant fuel i x y h W j :
  LNr fuel i x y noWrites = Some (h, W) → j ∈ dom W.1 →
  j = i ∨ descendant nodes i j.
Proof.
  revert i x y h W. induction fuel as [|fuel IH]; intros i x y h W; [done|].
  rewrite layoutNode_unfold.
  destruct (list_find _ nodes) as [[k node]|];
    [|by intros [-> ->]; simpl; rewrite dom_empty_L].
  destruct (truthy_bool _);
    [intros [-> ->]; simpl; rewrite dom_singleton_L, elem_of_singleton; auto|].
  destruct (default [] (buildChildrenMap nodes !! i)) as [|c cs] eqn:Hch;
    [intros [-> ->]; simpl; rewrite dom_singleton_L, elem_of_singleton; auto|].
  intros (Wc & s & Hcw & -> & ->). simpl.
  rewrite dom_union_L, dom_singleton_L.
  intros [Hj| ->%elem_of_singleton]%elem_of_union; [|by left].
  destruct (childWrites_elem _ _ _ _ _ _ _
              (layoutNode_nonneg nodes _ fuel) Hcw Hj)
    as (c' & yc & hc & Wc' & Hin & Hc & Hjc & _).
  assert (c' ∈ layoutChildrenOf nodes i) as [Hc'n Hc'p]%layoutChildrenOf_elem
    by (unfold layoutChildrenOf; by rewrite Hch).
  right. destruct (IH _ _ _ _ _ Hc Hjc) as [->|Hd].
  - by apply desc_child.
  - eapply descendant_trans; [done|]. by apply desc_child.
Qed.

(** The calls on two different roots visit different ids. *)
Lemma root_layers_disjoint fuel fuel' r r' x y h W x' y' h' W' j :
  r ∈ nodes → isRoot r = true → r' ∈ nodes → isRoot r' = true →
  id r ≠ id r' →
  LNr fuel (id r) x y noWrites = Some (h, W) →
  LNr fuel' (id r') x' y' noWrites = Some (h', W') →
  j ∈ dom W.1 → j ∉ dom W'.1.
Proof.
  intros Hr Hroot Hr' Hroot' Hne Hrun Hrun' Hj.
  assert (id r ∉ dom W'.1) as Hself.
  { intros [?|(c & p & Hc & Hid & _)]%(layoutNode_parent_visited nodes Hnd
                                        _ _ _ _ _ _ _ Hrun'); [done|].
    eapply (rootsParentless_not_child nodes r p); [done..|].
    assert (c = r) as <-; [|done].
    eapply NoDup_id_inj; [done| |done|done]. by eapply layoutChildrenOf_elem. }
  assert (∀ n, n ∈ nodes → is_Some (parentId n) → id n ≠ id r') as Hnr.
  { intros n Hn [q Hq] Hid.
    assert (n = r') as -> by by eapply NoDup_id_inj.
    by rewrite (Hroots r' Hr' Hroot') in Hq. }
  assert (∀ n q, n ∈ nodes → parentId n = Some q → id n ∈ dom W'.1 →
            q ∈ dom W'.1) as Hup.
  { intros n q Hn Hq
      [Hid|(c & p & [Hc Hp]%layoutChildrenOf_elem & Hid & Hpd)]%(
        layoutNode_parent_visited nodes Hnd _ _ _ _ _ _ _ Hrun').
    - by destruct (Hnr n Hn (mk_is_Some _ _ Hq)).
    - assert (c = n) as -> by by eapply NoDup_id_inj. congruence. }
  destruct (layoutNode_visits_descendant _ _ _ _ _ _ _ Hrun Hj) as [->|Hd];
    [done|].
  clear Hj. induction Hd as [n Hn Hp|n p Hn Hp _ IH]; intros Hin.
  - by apply Hself, (Hup n).
  - by apply IH, (Hup n).
Qed.

(** In the maps of a whole pass, the ids a root's call visits hold what
    that call wrote. *)
Lemma rootWrites_resolve fuel rs F r :
  rootWrites (LNr fuel) rs F →
  NoDup (id <$> rs) →
  (∀ r, r ∈ rs → ∃ r0, r0 ∈ nodes ∧ isRoot r0 = true ∧ id r0 = id r) →
  r ∈ rs →
  ∃ h W,
    LNr fuel (id r) (x (position r)) (y (position r)) noWrites = Some (h, W) ∧
    ∀ j, j ∈ dom W.1 → F.1 !! j = W.1 !! j ∧ F.2 !! j = W.2 !! j.
Proof.
  induction 1 as [|r0 rest h W Wrest Hr Hrw IH]; intros Hndr Hrs;
    [by intros ?%elem_of_nil|].
  apply NoDup_cons in Hndr as [Hr0 Hndr]. fold (fmap id rest) in Hr0, Hndr.
  intros [->|Hin]%elem_of_cons.
  - exists h, W. split; [done|]. intros j Hj.
    assert (j ∉ dom Wrest.1) as Hjr.
    { intros (r' & h' & W' & Hr' & Hrun' & Hj' & _)%(rootWrites_elem _ _ _ _ Hrw).
      destruct (Hrs r0) as (q0 & ? & ? & Hq0); [by left|].
      destruct (Hrs r') as (q' & ? & ? & Hq'); [by right|].
      rewrite <-Hq0 in Hr. rewrite <-Hq' in Hrun'.
      eapply (root_layers_disjoint fuel fuel q0 q'); [done..| |done|done|done|done].
      rewrite Hq0, Hq'. intros Hid. apply Hr0. rewrite Hid.
      by apply list_elem_of_fmap_2. }
    pose proof Hjr as Hjr2. rewrite (rootWrites_balanced _ _ _ _ _ Hrw) in Hjr2.
    apply not_elem_of_dom in Hjr, Hjr2. simpl.
    by rewrite !lookup_union_r.
  - destruct IH as (h' & W' & Hrun' & Hag); [done| |done|].
    { intros r' ?. apply Hrs. by right. }
    exists h', W'. split; [done|]. intros j Hj.
    destruct (Hag j Hj) as [H1 H2]. rewrite <-H1, <-H2.
    assert (j ∈ dom W'.2) as Hj2.
    { by destruct (layoutNode_shift _ _ _ _ _ _ _ _ Hrun') as [<- _]. }
    apply elem_of_dom in Hj as [v Hv], Hj2 as [v2 Hv2].
    rewrite Hv in H1. rewrite Hv2 in H2. simpl.
    by rewrite (lookup_union_Some_l _ _ _ _ H1), (lookup_union_Some_l _ _ _ _ H2).
Qed.

(** What a call on a node visits is what is reached from the node through
    open nodes. *)
Lemma layoutNode_reach fuel m x y h W c :
  LNr fuel (id m) x y noWrites = Some (h, W) → m ∈ nodes →
  reachFrom nodes m c → id c ∈ dom W.1.
Proof.
  apply layoutNode_reach_gen; [done|].
  intros m0 k _ Hk Hp. rewrite layoutChildrenOf_filter.
  apply list_elem_of_filter. split; [|done]. split; [done|]. intros Hempty.
  assert (isRoot k = true) as Hroot.
  { unfold isRoot. rewrite Hp, Hempty. apply orb_true_r. }
  by rewrite (Hroots k Hk Hroot) in Hp.
Qed.

Lemma layoutNode_visited_reach fuel m x y h W j :
  LNr fuel (id m) x y noWrites = Some (h, W) → m ∈ nodes → j ∈ dom W.1 →
  ∃ c, reachFrom nodes m c ∧ id c = j.
Proof.
  revert m x y h W. induction fuel as [|fuel IH]; intros m x y h W; [done|].
  intros Hrun Hm. apply layoutNode_unfold in Hrun.
  destruct (list_find_NoDup nodes m Hnd Hm) as [km Hfind].
  rewrite Hfind in Hrun.
  assert (j ∈ dom (ownWrite (id m) x y m).1 →
          ∃ c, reachFrom nodes m c ∧ id c = j) as Hown.
  { simpl. rewrite dom_singleton_L. intros ->%elem_of_singleton.
    exists m. split; [constructor|done]. }
  destruct (truthy_bool _) eqn:Hopen; [by destruct Hrun as [-> ->]|].
  destruct (default [] (buildChildrenMap nodes !! id m)) as [|c0 cs] eqn:Hch;
    [by destruct Hrun as [-> ->]|].
  destruct Hrun as (Wc & s & Hcw & -> & ->). simpl.
  rewrite dom_union_L. intros [Hj|Hj]%elem_of_union; [|by apply Hown].
  destruct (childWrites_elem _ _ _ _ _ _ _
              (layoutNode_nonneg nodes _ fuel) Hcw Hj)
    as (c' & yc & hc & Wc' & Hin & Hc & Hjc & _).
  assert (c' ∈ layoutChildrenOf nodes (id m)) as [Hc'n Hc'p]%layoutChildrenOf_elem
    by (unfold layoutChildrenOf; by rewrite Hch).
  destruct (IH _ _ _ _ _ Hc Hc'n Hjc) as (c & Hreach & Hid).
  exists c. split; [|done]. by apply (reach_step _ _ c').
Qed.
End RootLayers.

Lemma reachFrom_applyLayout_inv F (nodes : list NodeData) m n :
  reachFrom (applyLayout F <$> nodes) m n →
  ∀ m0, m = applyLayout F m0 →
  ∃ n0, n = applyLayout F n0 ∧ reachFrom nodes m0 n0.
Proof.
  induction 1 as [m|m k c Hopen Hk Hp _ IH]; intros m0 ->.
  - exists m0. split; [done|constructor].
  - apply list_elem_of_fmap in Hk as (k0 & -> & Hk0).
    destruct (IH k0 eq_refl) as (n0 & -> & Hreach).
    exists n0. split; [done|]. apply (reach_step _ _ k0); [|done| |done].
    + by rewrite applyLayout_collapsed in Hopen.
    + by rewrite applyLayout_parent, applyLayout_id in Hp.
Qed.

(** The maps of a whole pass hold, for what is reached from a root, the
    boxes that root's call wrote. *)
Lemma layoutMaps_tree fuel nodes F r :
  layoutMaps fuel nodes = Some F → NoDup (id <$> nodes) →
  rootsParentless nodes → r ∈ nodes → isRoot r = true →
  ∃ h W,
    layoutNode nodes (buildChildrenMap nodes) fuel (id r)
      (x (position r)) (y (position r)) noWrites = Some (h, W) ∧
    (∀ j, j ∈ dom W.1 → F.1 !! j = W.1 !! j ∧ F.2 !! j = W.2 !! j) ∧
    (∀ j, j ∈ dom W.1 ↔ ∃ c, reachFrom nodes r c ∧ id c = j).
Proof.
  intros HF%layoutMaps_spec Hnd Hroots Hr Hroot.
  destruct (rootWrites_resolve nodes Hnd Hroots fuel _ F r HF)
    as (h & W & Hrun & Hag).
  - by apply NoDup_id_filter.
  - intros r' [? ?]%list_elem_of_filter. by exists r'.
  - by apply list_elem_of_filter.
  - exists h, W. split_and!; [done..|]. intros j. split.
    + by eapply layoutNode_visited_reach.
    + intros (c & Hreach & <-). by eapply layoutNode_reach.
Qed.

(** ** Dragging a root *)

Lemma rootWrites_anywhere nodes cm fuel (g : NodeData → NodeData) rs F :
  (∀ n, id (g n) = id n) →
  rootWrites (layoutNode nodes cm fuel) rs F →
  ∃ F', rootWrites (layoutNode nodes cm fuel) (g <$> rs) F'.
Proof.
  intros g_id. induction 1 as [|r rest h W Wrest Hr Hrw [F' IH]].
  - exists noWrites. constructor.
  - destruct (layoutNode_shift _ _ _ _ _ _ _ _ Hr) as [_ Hs].
    destruct (Hs (x (position (g r))) (y (position (g r)))) as (W' & Hr' & _).
    exists (overlay F' W'). csimpl. econstructor; [|done]. by rewrite g_id.
Qed.

Lemma layoutMaps_moved fuel i pos nodes :
  layoutMaps fuel (moveNode i pos <$> nodes)
  = layoutRoots nodes (buildChildrenMap nodes) fuel
      (moveNode i pos <$> filter (λ n, isRoot n = true) nodes) noWrites.
Proof.
  unfold layoutMaps.
  assert (∀ n, isRoot (moveNode i pos n) = isRoot n) as g_root.
  { intros n. unfold isRoot.
    by destruct (moveNode_same i pos n) as (_ & -> & -> & _). }
  assert (∀ n, getNodeHeight (moveNode i pos n) = getNodeHeight n) as g_h.
  { intros n. unfold getNodeHeight.
    by destruct (moveNode_same i pos n) as (_ & _ & -> & _ & -> & ->). }
  rewrite (buildChildrenMap_fmap (moveNode i pos)), (roots_fmap _ g_root)
    by (intros n; apply moveNode_same).
  apply layoutRoots_fmap; [| |done]; intros n; apply moveNode_same.
Qed.

Section DragRoot.
Variable nodes : list NodeData.
Hypothesis Hnd : NoDup (id <$> nodes).
Hypothesis Hroots : rootsParentless nodes.
Variables (fuel : nat) (F F' : LayoutState) (r : NodeData) (pos : Position).
Hypothesis Hr : r ∈ nodes.
Hypothesis Hroot : isRoot r = true.
Abbreviation LNd := (layoutNode nodes (buildChildrenMap nodes)).
Abbreviation rootsOf := (filter (λ n, isRoot n = true) nodes).
Hypothesis HF : rootWrites (LNd fuel) rootsOf F.
Hypothesis HF' : rootWrites (LNd fuel) (moveNode (id r) pos <$> rootsOf) F'.
Variables (h : Z) (W : LayoutState).
Hypothesis Hrun :
  LNd fuel (id r) (x (position r)) (y (position r)) noWrites = Some (h, W).

Lemma moved_roots_ok q' :
  q' ∈ moveNode (id r) pos <$> rootsOf →
  ∃ r0, r0 ∈ nodes ∧ isRoot r0 = true ∧ id r0 = id q'.
Proof.
  intros (q & -> & [? ?]%list_elem_of_filter)%list_elem_of_fmap.
  exists q. split_and!; [done..|]. symmetry. apply moveNode_same.
Qed.

Lemma moved_roots_NoDup : NoDup (id <$> (moveNode (id r) pos <$> rootsOf)).
Proof.
  rewrite <-list_fmap_compose.
  assert (id ∘ moveNode (id r) pos <$> rootsOf = id <$> rootsOf) as ->.
  { apply list_fmap_ext. intros _ n _. apply moveNode_same. }
  by apply NoDup_id_filter.
Qed.

Lemma drag_tree_maps j :
  j ∈ dom W.1 →
  is_Some (F'.1 !! j) ∧ F'.2 !! j = F.2 !! j ∧
  (j = id r → F'.1 !! j = Some pos).
Proof.
  intros Hj.
  destruct (rootWrites_resolve nodes Hnd Hroots fuel _ F r HF)
    as (h0 & W0 & Hrun0 & Hag).
  { by apply NoDup_id_filter. }
  { intros r' [? ?]%list_elem_of_filter. by exists r'. }
  { by apply list_elem_of_filter. }
  rewrite Hrun in Hrun0. injection Hrun0 as <- <-.
  destruct (rootWrites_resolve nodes Hnd Hroots fuel _ F'
              (moveNode (id r) pos r) HF' moved_roots_NoDup moved_roots_ok)
    as (h1 & W1 & Hrun1 & Hag1).
  { apply list_elem_of_fmap_2. by apply list_elem_of_filter. }
  assert (id (moveNode (id r) pos r) = id r) as Hid by apply moveNode_same.
  assert (position (moveNode (id r) pos r) = pos) as Hpos.
  { unfold moveNode. by rewrite bool_decide_eq_true_2. }
  rewrite Hid, Hpos in Hrun1.
  destruct (layoutNode_footprint_eq _ _ _ _ _ _ _ _ _ _ _ _ _ Hrun Hrun1)
    as (_ & Hd & Hh).
  assert (j ∈ dom W1.1) as Hj1 by by rewrite Hd.
  destruct (Hag j Hj) as [_ ->]. destruct (Hag1 j Hj1) as [-> ->].
  split_and!; [by apply elem_of_dom|by rewrite Hh|].
  intros ->. rewrite (layoutNode_self _ _ _ _ _ _ _ _ Hrun1);
    [by destruct pos|by eapply list_find_elem_of].
Qed.

Lemma drag_other_maps j :
  j ∉ dom W.1 → F'.1 !! j = F.1 !! j ∧ F'.2 !! j = F.2 !! j.
Proof.
  intros Hj.
  destruct (decide (j ∈ dom F.1)) as [HjF|HjF].
  - destruct (rootWrites_elem _ _ _ _ HF HjF)
      as (r' & h' & W' & Hr' & Hrun' & Hj' & _).
    pose proof Hr' as [Hr'n Hr'root]%list_elem_of_filter.
    assert (id r' ≠ id r) as Hne.
    { intros Hid. assert (r' = r) as -> by by eapply NoDup_id_inj.
      rewrite Hrun in Hrun'. by injection Hrun' as <- <-. }
    destruct (rootWrites_resolve nodes Hnd Hroots fuel _ F r' HF)
      as (h0 & W0 & Hrun0 & Hag); [by apply NoDup_id_filter| |done|].
    { intros q [? ?]%list_elem_of_filter. by exists q. }
    rewrite Hrun' in Hrun0. injection Hrun0 as <- <-.
    destruct (rootWrites_resolve nodes Hnd Hroots fuel _ F' r' HF'
                moved_roots_NoDup moved_roots_ok)
      as (h1 & W1 & Hrun1 & Hag1).
    { apply list_elem_of_fmap. exists r'. split; [|done].
      unfold moveNode. by rewrite bool_decide_eq_false_2. }
    rewrite Hrun' in Hrun1. injection Hrun1 as <- <-.
    destruct (Hag j Hj') as [-> ->]. by destruct (Hag1 j Hj') as [-> ->].
  - assert (j ∉ dom F'.1) as HjF'.
    { intros (q' & h' & W' & (q & -> & Hq)%list_elem_of_fmap & Hrun' & Hj' & _)%(
        rootWrites_elem _ _ _ _ HF').
      destruct (rootWrites_dom _ _ _ _ HF Hq) as (hq & Wq & Hrunq & Hsub).
      assert (id (moveNode (id r) pos q) = id q) as Hid by apply moveNode_same.
      rewrite Hid in Hrun'.
      destruct (layoutNode_footprint_eq _ _ _ _ _ _ _ _ _ _ _ _ _ Hrunq Hrun')
        as (_ & Hd & _).
      apply HjF, Hsub. by rewrite <-Hd. }
    pose proof HjF as HjF2. pose proof HjF' as HjF2'.
    rewrite (rootWrites_balanced _ _ _ _ _ HF) in HjF2.
    rewrite (rootWrites_balanced _ _ _ _ _ HF') in HjF2'.
    apply not_elem_of_dom in HjF, HjF', HjF2, HjF2'. by rewrite HjF, HjF', HjF2, HjF2'.
Qed.
End DragRoot.

(** X9: Dragging a root of a laid-out node set (unique ids, roots without a
    parent) to [pos] puts the root at [pos], changes nothing but the position
    of the nodes shown under that root, and leaves every other node as it
    was. *)
Theorem drag_root_moves_only_its_tree fuel nodes laid r pos :
  computeSmartLayout fuel nodes = Some laid →
  NoDup (id <$> nodes) → rootsParentless nodes →
  r ∈ nodes → isRoot r = true →
  ∃ moved,
    handleUpdatePosition fuel (id r) pos nodes = Some moved ∧
    Forall2 (λ n n',
       (id n = id r → position n' = pos) ∧
       ((∃ c, reachFrom nodes r c ∧ id c = id n) →
        n' = setPosition (position n') n) ∧
       (¬ (∃ c, reachFrom nodes r c ∧ id c = id n) → n' = n))
      laid moved.
Proof.
  unfold computeSmartLayout, handleUpdatePosition, computeSmartLayout.
  destruct (layoutMaps fuel nodes) as [F|] eqn:HF; [|done].
  intros [= <-] Hnd Hroots Hr Hroot.
  destruct (layoutMaps_tree _ _ _ _ HF Hnd Hroots Hr Hroot)
    as (h & W & Hrun & Hag & Hdom).
  pose proof HF as Hrw%layoutMaps_spec.
  destruct (rootWrites_anywhere _ _ _ (moveNode (id r) pos) _ _
              (λ n, proj1 (moveNode_same (id r) pos n)) Hrw) as [F' Hrw'].
  assert (layoutMaps fuel (moveNode (id r) pos <$> nodes) = Some F') as ->.
  { rewrite layoutMaps_moved. apply layoutRoots_spec. exists F'.
    by rewrite overlay_empty_r. }
  eexists. split; [done|].
  apply Forall2_fmap, Forall2_fmap_r, Forall_Forall2_diag, Forall_forall.
  intros n Hn.
  destruct (decide (id n ∈ dom W.1)) as [Hin|Hout].
  - destruct (drag_tree_maps nodes Hnd Hroots fuel F F' r pos Hr Hroot
                Hrw Hrw' h W Hrun (id n) Hin) as ([p' H1] & H2 & H3).
    rewrite applyLayout_id.
    pose proof Hin as Hin'. destruct (Hag _ Hin') as [Hp _].
    apply elem_of_dom in Hin' as [p Hp']. rewrite Hp' in Hp.
    destruct (layoutMaps_applied _ _ _ _ _ HF Hnd Hn Hp) as (Hh & _ & _).
    rewrite Hh in H2.
    assert (id (moveNode (id r) pos n) = id n) as Hid by apply moveNode_same.
    pose proof (getNodeHeight_pos n) as Hpos.
    assert (applyLayout F' (moveNode (id r) pos n)
            = setPosition p' (applyLayout F n)) as Heq.
    { unfold applyLayout. rewrite Hid, H1, H2, Hp, Hh. simpl.
      destruct (Z.eqb_spec (getNodeHeight n) 0); [lia|]. simpl.
      unfold setPosition, moveNode. by case_bool_decide. }
    simpl. rewrite Heq.
    split_and!; [|done|by intros []; apply Hdom].
    intros Hid'. specialize (H3 Hid'). simpl. congruence.
  - destruct (drag_other_maps nodes Hnd Hroots fuel F F' r pos Hr
                Hrw Hrw' h W Hrun (id n) Hout) as [H1 H2].
    rewrite applyLayout_id.
    assert (id n ≠ id r) as Hne.
    { intros Hid. apply Hout. rewrite Hid. apply Hdom.
      exists r. split; [constructor|done]. }
    split_and!; [done|by intros ?%Hdom|intros _].
    assert (moveNode (id r) pos n = n) as ->.
    { unfold moveNode. by rewrite bool_decide_eq_false_2. }
    unfold applyLayout. by rewrite H1, H2.
Qed.

(** ** Roots stay where they are; toggling the content twice *)

Lemma layoutMaps_root_position fuel nodes F r :
  layoutMaps fuel nodes = Some F → NoDup (id <$> nodes) →
  rootsParentless nodes → r ∈ nodes → isRoot r = true →
  F.1 !! id r = Some (position r).
Proof.
  intros HF Hnd Hroots Hr Hroot.
  destruct (layoutMaps_tree _ _ _ _ HF Hnd Hroots Hr Hroot)
    as (h & W & Hrun & Hag & Hdom).
  destruct (Hag (id r)) as [-> _].
  { apply Hdom. exists r. split; [constructor|done]. }
  rewrite (layoutNode_self _ _ _ _ _ _ _ _ Hrun);
    [by destruct (position r)|by eapply list_find_elem_of].
Qed.

(** X10: A layout pass over nodes with unique ids whose roots have no parent
    leaves every root at its stored position. *)
Theorem layout_keeps_roots_in_place fuel nodes laid :
  computeSmartLayout fuel nodes = Some laid →
  NoDup (id <$> nodes) → rootsParentless nodes →
  Forall2 (λ n n', isRoot n = true → position n' = position n) nodes laid.
Proof.
  unfold computeSmartLayout.
  destruct (layoutMaps fuel nodes) as [F|] eqn:HF; [|done].
  intros [= <-] Hnd Hroots.
  apply Forall2_fmap_r, Forall_Forall2_diag, Forall_forall. intros n Hn Hroot.
  destruct (layoutMaps_applied fuel nodes F n (position n) HF Hnd Hn)
    as (_ & ? & _); [by apply (layoutMaps_root_position fuel nodes)|done].
Qed.

Lemma reachFrom_fmap_inv g (nodes : list NodeData) m n :
  (∀ n, id (g n) = id n) → (∀ n, parentId (g n) = parentId n) →
  (∀ n, truthy_bool (collapsed (g n)) = truthy_bool (collapsed n)) →
  reachFrom (g <$> nodes) m n →
  ∀ m0, m = g m0 → ∃ n0, n = g n0 ∧ reachFrom nodes m0 n0.
Proof.
  intros g_id g_parent g_col.
  induction 1 as [m|m k c Hopen Hk Hp _ IH]; intros m0 ->.
  - exists m0. split; [done|constructor].
  - apply list_elem_of_fmap in Hk as (k0 & -> & Hk0).
    destruct (IH k0 eq_refl) as (n0 & -> & Hreach).
    exists n0. split; [done|]. apply (reach_step _ _ k0); [|done| |done].
    + by rewrite g_col in Hopen.
    + by rewrite g_parent, g_id in Hp.
Qed.

Lemma visibleId_fmap g (nodes : list NodeData) i :
  (∀ n, id (g n) = id n) → (∀ n, parentId (g n) = parentId n) →
  (∀ n, isRoot (g n) = isRoot n) →
  (∀ n, truthy_bool (collapsed (g n)) = truthy_bool (collapsed n)) →
  visibleId (g <$> nodes) i ↔ visibleId nodes i.
Proof.
  intros g_id g_parent g_root g_col. split.
  - intros (r & c & (r0 & -> & Hr0)%list_elem_of_fmap & Hroot & Hreach & <-).
    destruct (reachFrom_fmap_inv g _ _ _ g_id g_parent g_col Hreach r0 eq_refl)
      as (c0 & -> & Hreach0).
    exists r0, c0. by rewrite <-g_root, g_id.
  - intros (r & c & Hr & Hroot & Hreach & <-).
    exists (g r), (g c). split_and!.
    + by apply list_elem_of_fmap_2.
    + by rewrite g_root.
    + apply reachFrom_fmap_open; [done..| |done|done].
      intros n _. by rewrite g_col.
    + apply g_id.
Qed.

Lemma toggleContent_twice_flag i n :
  truthy_bool (contentMinimized (toggleContent i (toggleContent i n)))
  = truthy_bool (contentMinimized n).
Proof.
  unfold toggleContent.
  destruct (bool_decide (id n = i)) eqn:Hi; simpl; rewrite Hi; simpl;
    [apply negb_involutive|done].
Qed.

Lemma toggleContent_height i n n' :
  id n' = id n → nodeType n' = nodeType n → data n' = data n →
  truthy_bool (contentMinimized n') = truthy_bool (contentMinimized n) →
  getNodeHeight (toggleContent i n') = getNodeHeight (toggleContent i n).
Proof.
  intros Hid Ht Hd Hm. unfold toggleContent, getNodeHeight. rewrite Hid.
  case_bool_decide; simpl; by rewrite ?Hm, Ht, Hd.
Qed.

Lemma toggleContent_isRoot i n : isRoot (toggleContent i n) = isRoot n.
Proof.
  unfold isRoot. by destruct (toggleContent_same i n) as (_ & -> & -> & _).
Qed.

Lemma toggleContent_twice i n :
  (id n = i → is_Some (contentMinimized n)) →
  toggleContent i (toggleContent i n) = n.
Proof.
  intros Hdef. unfold toggleContent.
  destruct (bool_decide (id n = i)) eqn:Hi; simpl; rewrite Hi; [|done].
  apply bool_decide_eq_true_1 in Hi. destruct (Hdef Hi) as [b Hb].
  destruct n as [? ? ? ? ? ? ? cm ? ? ?]. simpl in *. subst cm.
  unfold setContentMinimized. simpl. by rewrite negb_involutive.
Qed.

(** X11: Toggling the content of a node twice gives back the laid-out node set
    there was: heights and positions return to what they were.  The ids
    are unique, no root has a parent, and the node has its
    [contentMinimized] flag set, as every node the application creates
    has. *)
Theorem toggle_content_twice fuel i nodes once :
  NoDup (id <$> nodes) → rootsParentless nodes →
  (∀ n, n ∈ nodes → id n = i → is_Some (contentMinimized n)) →
  handleToggleContent fuel i nodes = Some once →
  handleToggleContent fuel i once = computeSmartLayout fuel nodes.
Proof.
  intros Hnd Hroots Hdef. unfold handleToggleContent, computeSmartLayout.
  destruct (layoutMaps fuel (toggleContent i <$> nodes)) as [F1|] eqn:HF1;
    [|done].
  intros [= <-].
  set (tg := toggleContent i).
  assert (∀ n, id (tg n) = id n) as tg_id by (intros n; apply toggleContent_same).
  assert (∀ n, parentId (tg n) = parentId n) as tg_parent
    by (intros n; apply toggleContent_same).
  assert (∀ n, collapsed (tg n) = collapsed n) as tg_col
    by (intros n; apply toggleContent_same).
  assert (∀ n, position (tg n) = position n) as tg_pos
    by (intros n; apply toggleContent_same).
  assert (NoDup (id <$> (tg <$> nodes))) as Hnd1.
  { rewrite <-list_fmap_compose.
    assert (id ∘ tg <$> nodes = id <$> nodes) as ->; [|done].
    apply list_fmap_ext. intros _ n _. apply tg_id. }
  assert (rootsParentless (tg <$> nodes)) as Hroots1.
  { intros r (r0 & -> & Hr0)%list_elem_of_fmap. unfold tg.
    rewrite toggleContent_isRoot, tg_parent. by apply Hroots. }
  set (g := λ n, tg (applyLayout F1 (tg n))).
  assert (tg <$> (applyLayout F1 <$> (tg <$> nodes)) = g <$> nodes) as ->
    by by rewrite <-!list_fmap_compose.
  assert (layoutMaps fuel (g <$> nodes) = layoutMaps fuel nodes) as ->.
  { apply layoutMaps_relabel; unfold g.
    - intros n. by rewrite tg_id, applyLayout_id, tg_id.
    - intros n. by rewrite tg_parent, applyLayout_parent, tg_parent.
    - intros n. by rewrite tg_col, applyLayout_collapsed, tg_col.
    - intros n. unfold tg.
      rewrite (toggleContent_height i (toggleContent i n));
        try apply applyLayout_same.
      + unfold getNodeHeight. rewrite toggleContent_twice_flag.
        destruct (toggleContent_same i (toggleContent i n))
          as (_ & _ & -> & _ & _ & ->).
        by destruct (toggleContent_same i n) as (_ & _ & -> & _ & _ & ->).
      + f_equal. apply applyLayout_same.
    - intros n. unfold tg.
      by rewrite toggleContent_isRoot, applyLayout_isRoot, toggleContent_isRoot.
    - intros n Hn Hroot. rewrite tg_pos, <-(tg_pos n).
      destruct (layoutMaps_applied fuel _ F1 (tg n) (position (tg n)) HF1 Hnd1)
        as (_ & ? & _); [by apply list_elem_of_fmap_2| |done].
      apply (layoutMaps_root_position fuel (tg <$> nodes)); [done..| |].
      + by apply list_elem_of_fmap_2.
      + unfold tg. by rewrite toggleContent_isRoot. }
  destruct (layoutMaps fuel nodes) as [F|] eqn:HF; [|done].
  f_equal. rewrite <-list_fmap_compose. apply list_fmap_ext.
  intros _ n Hn%list_elem_of_lookup_2. simpl.
  assert (id (g n) = id n) as Hid
    by (unfold g; by rewrite tg_id, applyLayout_id, tg_id).
  assert (tg (tg n) = n) as Htt
    by (apply toggleContent_twice; intros ?; by apply Hdef).
  destruct (F.1 !! id n) as [pos|] eqn:Hp.
  - destruct (layoutMaps_applied _ _ _ _ _ HF Hnd Hn Hp) as (Hh & _ & _).
    pose proof (getNodeHeight_pos n).
    unfold applyLayout. rewrite Hid, Hp, Hh. simpl.
    destruct (Z.eqb_spec (getNodeHeight n) 0); [lia|]. simpl.
    pose proof (applyLayout_same F1 (tg n))
      as (_ & E2 & E3 & E4 & E5 & E6 & E7 & E8 & E9).
    assert (sameButLayout (tg n) (applyLayout F1 (tg n))) as Hs
      by apply applyLayout_same.
    assert (∀ a b, sameButLayout a b → sameButLayout (tg a) (tg b)) as Htg.
    { intros a b (S1 & S2 & S3 & S4 & S5 & S6 & S7 & S8 & S9).
      unfold tg, toggleContent. rewrite S1.
      case_bool_decide; unfold sameButLayout; simpl; by rewrite ?S7. }
    apply Htg in Hs. rewrite Htt in Hs. fold (g n) in Hs.
    destruct Hs as (_ & -> & -> & -> & -> & -> & -> & -> & ->). done.
  - rewrite !applyLayout_unvisited by by rewrite ?Hid.
    unfold g. rewrite applyLayout_unvisited; [done|].
    apply not_elem_of_dom. rewrite tg_id. intros Hin.
    apply (layoutMaps_reaches _ _ _ _ HF1), (laidOut_visibleId _ _ Hnd1) in Hin.
    apply visibleId_fmap in Hin;
      [|done|done|apply toggleContent_isRoot|by intros m; rewrite tg_col].
    apply (laidOut_visibleId _ _ Hnd), (layoutMaps_reaches _ _ _ _ HF) in Hin.
    by apply not_elem_of_dom in Hp.
Qed.

(** ** Connectors *)

Lemma nodeMap_snoc nodes a : nodeMap (nodes ++ [a]) = <[id a := a]> (nodeMap nodes).
Proof. unfold nodeMap. by rewrite foldl_app. Qed.

Lemma nodeMap_elem nodes i p :
  nodeMap nodes !! i = Some p → p ∈ nodes ∧ id p = i.
Proof.
  induction nodes as [|a nodes IH] using rev_ind; [done|].
  rewrite nodeMap_snoc. intros [[<- <-]|[_ H]]%lookup_insert_Some.
  - split; [|done]. apply elem_of_app. right. by left.
  - destruct (IH H). split; [|done]. apply elem_of_app. by left.
Qed.

Lemma nodeMap_lookup nodes n :
  NoDup (id <$> nodes) → n ∈ nodes → nodeMap nodes !! id n = Some n.
Proof.
  induction nodes as [|a nodes IH] using rev_ind; [by intros _ ?%elem_of_nil|].
  rewrite fmap_app, nodeMap_snoc.
  intros (Hnd & Hdis & _)%NoDup_app [Hn|Hn%list_elem_of_singleton]%elem_of_app.
  - rewrite lookup_insert_ne; [by apply IH|].
    intros Hid. apply (Hdis (id n)); [by apply list_elem_of_fmap_2|].
    rewrite <-Hid. by left.
  - subst n. apply lookup_insert_eq.
Qed.

Lemma reachFrom_parent nodes r c :
  reachFrom nodes r c →
  c = r ∨ ∃ m, reachFrom nodes r m ∧ truthy_bool (collapsed m) = false ∧
               parentId c = Some (id m).
Proof.
  induction 1 as [|m k c Hcol Hk Hp _ IH]; [by left|]. right.
  destruct IH as [->|(m' & Hreach & Hopen & Hpc)].
  - exists m. split; [constructor|done].
  - exists m'. split; [|done]. by apply (reach_step _ _ k).
Qed.

Lemma visibleNodes_NoDup fv nodes vis :
  visibleNodes fv nodes = Some vis → NoDup (id <$> nodes) → NoDup (id <$> vis).
Proof.
  unfold visibleNodes. destruct (visibleSetOf fv nodes) as [vs|]; [|done].
  intros [= <-]. apply NoDup_id_filter.
Qed.

(** A shown node that is not a root has its parent shown and open. *)
Lemma visible_parent fv nodes vis n :
  visibleNodes fv nodes = Some vis → NoDup (id <$> nodes) →
  n ∈ vis → isRoot n = false →
  ∃ p, p ∈ vis ∧ parentId n = Some (id p) ∧ truthy_bool (collapsed p) = false.
Proof.
  intros Hvis Hnd Hn Hnr.
  pose proof Hn as [Hnn (r & c & Hr & Hroot & Hreach & Hid)]%(
    visibleNodes_spec _ _ _ Hvis).
  assert (c = n) as ->.
  { eapply NoDup_id_inj; [done| |done|done]. by eapply reachFrom_elem. }
  destruct (reachFrom_parent _ _ _ Hreach) as [->|(m & Hm & Hopen & Hp)];
    [congruence|].
  exists m. split_and!; [|done..].
  apply (visibleNodes_spec _ _ _ Hvis). split; [by eapply reachFrom_elem|].
  by exists r, m.
Qed.

(** What a drawn connector tells: the parent it comes from is in the node
    list and open. *)
Lemma renderConnection_inv nodes n c :
  renderConnection nodes n = Some c →
  ∃ p, p ∈ nodes ∧ parentId n = Some (id p) ∧ id p ≠ EmptyString ∧
       truthy_bool (collapsed p) = false ∧
       startX c = x (position p) +ₙ 30 ∧
       startY c = y (position p) +ₙ heightOr100 (height p) ∧
       endX c = x (position n) ∧
       endY c = (y (position n)
                 + double_of_Z (heightOr100 (height n)) / 2)%float.
Proof.
  unfold renderConnection.
  destruct (parentId n) as [q|] eqn:Hq; [|done]. simpl.
  destruct (String.eqb_spec q EmptyString) as [|Hne]; [done|]. simpl.
  destruct (nodeMap nodes !! q) as [p|] eqn:Hp; [|done].
  apply nodeMap_elem in Hp as [Hp <-].
  destruct (truthy_bool (collapsed p)) eqn:Hopen; [done|].
  intros [= <-]. exists p. by split_and!.
Qed.

(** X12: Among the shown nodes of a set with unique ids whose roots have no
    parent, exactly the nodes that are not roots get a connector, and it
    comes from the node's parent, which is shown and open. *)
Theorem visible_nonroots_get_connectors fv nodes vis n :
  visibleNodes fv nodes = Some vis →
  NoDup (id <$> nodes) → rootsParentless nodes → n ∈ vis →
  if isRoot n then renderConnection vis n = None
  else ∃ p, p ∈ vis ∧ parentId n = Some (id p) ∧
            truthy_bool (collapsed p) = false ∧
            renderConnection vis n
            = Some {| key := String.append (id p) (String.append "-" (id n));
                      startX := x (position p) +ₙ 30;
                      startY := y (position p) +ₙ heightOr100 (height p);
                      endX := x (position n);
                      endY := (y (position n)
                               + double_of_Z (heightOr100 (height n)) / 2)%float
                   |}.
Proof.
  intros Hvis Hnd Hroots Hn.
  destruct (isRoot n) eqn:Hroot.
  - unfold renderConnection. rewrite (Hroots n); [done| |done].
    by apply (visibleNodes_spec _ _ _ Hvis) in Hn as [? _].
  - destruct (visible_parent _ _ _ _ Hvis Hnd Hn Hroot) as (p & Hp & Hpar & Hopen).
    exists p. split_and!; [done..|].
    unfold renderConnection.
    assert (truthy_string (parentId n) = true) as ->.
    { unfold isRoot in Hroot. apply orb_false_elim in Hroot as [_ Hroot].
      by apply negb_false_iff in Hroot. }
    rewrite Hpar. simpl.
    rewrite nodeMap_lookup; [by rewrite Hopen|by eapply visibleNodes_NoDup|done].
Qed.

Lemma column_elem nodes cx cs y0 c :
  column nodes cx cs y0 → c ∈ cs → x (position c) = cx.
Proof.
  induction 1 as [|c0 rest y1 h Hpos Hfp _ IH]; [by intros ?%elem_of_nil|].
  intros [->|Hin]%elem_of_cons; [by rewrite Hpos|by apply IH].
Qed.

Lemma heightOr100_fresh n : heightOr100 (Some (getNodeHeight n)) = getNodeHeight n.
Proof.
  unfold heightOr100. simpl. pose proof (getNodeHeight_pos n).
  by destruct (Z.eqb_spec (getNodeHeight n) 0); [lia|].
Qed.

(** X13: After a layout pass (unique ids, roots without a parent), every
    connector drawn between shown nodes follows the boxes of the layout: it
    leaves the parent's box 30 to the right of its left edge, at its bottom
    edge, the height being the one the layout computed and never the
    fallback 100; it ends at the child's left edge, which is the parent's
    [x] plus [INDENT_X], halfway down the height computed for the child. *)
Theorem connectors_follow_layout fuel fv nodes laid vis n c :
  computeSmartLayout fuel nodes = Some laid →
  NoDup (id <$> nodes) → rootsParentless nodes →
  visibleNodes fv laid = Some vis → n ∈ vis →
  renderConnection vis n = Some c →
  ∃ p, p ∈ vis ∧ parentId n = Some (id p) ∧
       startX c = x (position p) +ₙ 30 ∧
       startY c = y (position p) +ₙ getNodeHeight p ∧
       endX c = x (position p) +ₙ INDENT_X ∧
       endY c = (y (position n) + double_of_Z (getNodeHeight n) / 2)%float.
Proof.
  intros (F & HF & ->)%computeSmartLayout_maps Hnd Hroots Hvis Hn Hc.
  assert (∀ m, m ∈ vis →
            ∃ m0, m0 ∈ nodes ∧ m = applyLayout F m0 ∧ laidOut nodes (id m0))
    as Hshown.
  { intros m [(m0 & -> & Hm0)%list_elem_of_fmap Hv]%(visibleNodes_spec _ _ _ Hvis).
    exists m0. split_and!; [done..|].
    apply (laidOut_visibleId _ _ Hnd). rewrite applyLayout_id in Hv.
    apply visibleId_fmap in Hv;
      auto using applyLayout_id, applyLayout_parent, applyLayout_isRoot,
        applyLayout_truthy_collapsed. }
  destruct (renderConnection_inv _ _ _ Hc)
    as (p & Hp & Hpar & Hne & Hopen & Hsx & Hsy & Hex & Hey).
  destruct (Hshown n Hn) as (n0 & Hn0 & -> & Hlon).
  destruct (Hshown p Hp) as (p0 & Hp0 & -> & Hlop).
  rewrite applyLayout_parent, applyLayout_id in Hpar.
  rewrite applyLayout_id in Hne. rewrite applyLayout_collapsed in Hopen.
  pose proof Hlon as [posn Hposn]%(layoutMaps_reaches _ _ _ _ HF)%elem_of_dom.
  pose proof Hlop as [posp Hposp]%(layoutMaps_reaches _ _ _ _ HF)%elem_of_dom.
  destruct (layoutMaps_applied _ _ _ _ _ HF Hnd Hn0 Hposn) as (_ & _ & Hhn).
  destruct (layoutMaps_applied _ _ _ _ _ HF Hnd Hp0 Hposp) as (_ & _ & Hhp).
  rewrite Hhn, heightOr100_fresh in Hey. rewrite Hhp, heightOr100_fresh in Hsy.
  pose proof (layoutMaps_column _ _ _ _ HF Hnd Hroots Hp0 Hlop Hopen) as Hcol.
  pose proof (column_elem _ _ _ _ (applyLayout F n0) Hcol) as Hx.
  rewrite Hx in Hex.
  { exists (applyLayout F p0).
    rewrite applyLayout_parent, applyLayout_id, !applyLayout_height.
    by split_and!. }
  apply list_elem_of_fmap_2. rewrite layoutChildrenOf_filter.
  by apply list_elem_of_filter.
Qed.

(** ** Learning a root *)

Lemma spanDigits_number d rest :
  spanDigits rest = (EmptyString, rest) →
  spanDigits (String.append (DecimalString.NilEmpty.string_of_uint d) rest)
  = (DecimalString.NilEmpty.string_of_uint d, rest).
Proof. intros Hrest. induction d; simpl; by rewrite ?IHd. Qed.

Lemma numberToString_nonempty n : numberToString n ≠ EmptyString.
Proof.
  unfold numberToString.
  assert (Nat.to_uint n ≠ Decimal.Nil) as Hnn.
  { rewrite <-(DecimalNat.Unsigned.of_to n) at 1.
    rewrite DecimalNat.Unsigned.to_of. apply DecimalFacts.unorm_nonnil. }
  by destruct (Nat.to_uint n).
Qed.

Lemma chapterNumOf_chapterTitle dflt index t :
  chapterNumOf dflt (chapterTitle index t) = numberToString (index + 1).
Proof.
  unfold chapterNumOf, matchChapterNumber, chapterTitle, numberToString.
  rewrite spanDigits_number by done.
  pose proof (numberToString_nonempty (index + 1)) as Hne.
  unfold numberToString in Hne.
  destruct (String.eqb_spec
              (DecimalString.NilEmpty.string_of_uint (Nat.to_uint (index + 1)))
              EmptyString); done.
Qed.

Lemma chapterNodes_lookup genId node chapters k chNode :
  chapterNodes genId node chapters !! k = Some chNode ↔
  ∃ ch, chapters !! k = Some ch ∧ chNode = chapterNode node (genId k) k ch.
Proof.
  unfold chapterNodes. rewrite list_lookup_imap.
  destruct (chapters !! k) as [ch|]; simpl.
  - split; [intros [= <-]; eauto|by intros (? & [= <-] & ->)].
  - split; [done|by intros (? & ? & _)].
Qed.

(** X14: The chapters the root branch creates are numbered, and the numbers
    are read back: for the [k]-th chapter node, the waterfall and the
    chapter branch both title its [j]-th subchapter [k+1.j+1 title], with
    the title cleaned; the fallback numbers are never used. *)
Theorem subchapters_carry_chapter_number cleanTitle genId genId' node chapters
    subChapters k chNode j sub :
  chapterNodes genId node chapters !! k = Some chNode →
  subChapters !! j = Some sub →
  title <$> waterfallSubNodes cleanTitle genId' chNode subChapters !! j
  = Some (subChapterTitle cleanTitle (numberToString (k + 1)) j (sub_title sub)) ∧
  title <$> manualSubNodes cleanTitle genId' chNode subChapters !! j
  = Some (subChapterTitle cleanTitle (numberToString (k + 1)) j (sub_title sub)).
Proof.
  intros (ch & _ & ->)%chapterNodes_lookup Hj.
  unfold waterfallSubNodes, manualSubNodes, waterfallChapterNum, manualChapterNum.
  rewrite !list_lookup_imap, Hj. simpl.
  by rewrite !chapterNumOf_chapterTitle.
Qed.



Section LearnRoot.
Variables (genId : nat → string) (r : NodeData).
Variables (chapters : list GeneratedChapter) (nodes : list NodeData).
Hypothesis Hnd : NoDup (id <$> nodes).
Hypothesis Hroots : rootsParentless nodes.
Hypothesis Hr : r ∈ nodes.
Hypothesis Hid : id r ≠ EmptyString.
Hypothesis Hfresh : ∀ k, (k < length chapters)%nat → freshId nodes (genId k).
Hypothesis Hinj : ∀ j k, (j < length chapters)%nat → (k < length chapters)%nat →
  genId j = genId k → j = k.
Abbreviation chs := (chapterNodes genId r chapters).






End LearnRoot.


(** ** Termination, and what happens on a circle *)

(** X16: On every acyclic node set the layout pass and the visibility resolver
    both return: from some fuel on, neither runs out. *)
Theorem acyclic_sets_are_handled rk nodes :
  ranked rk nodes →
  ∃ fuel0, ∀ fuel, (fuel0 ≤ fuel)%nat →
    is_Some (computeSmartLayout fuel nodes) ∧ is_Some (visibleNodes fuel nodes).
Proof.
  intros Hrk. destruct (enoughFuel_exists rk nodes) as [fuel0 Hfuel0].
  exists fuel0. intros fuel Hle.
  pose proof (enoughFuel_mono _ _ _ _ Hle Hfuel0) as Hfuel.
  split; [by eapply enoughFuel_layout|by eapply visibleNodes_total].
Qed.

Lemma reachesOpenCycle_step nodes x :
  reachesOpenCycle nodes x →
  truthy_bool (collapsed x) = false ∧
  ∃ k, k ∈ nodes ∧ parentId k = Some (id x) ∧ reachesOpenCycle nodes k.
Proof.
  intros (m & k & Hreach & Hopen & Hk & Hp & Hback).
  inversion Hreach as [|? k' ? Hopen' Hk' Hp' Hrest]; subst.
  - split; [done|]. exists k. split_and!; [done..|]. by exists m, k.
  - split; [done|]. exists k'. split_and!; [done..|]. by exists m, k.
Qed.

Lemma visitQueue_circle nodes fuel queue vs x :
  (∀ q, q ∈ queue → id q ∈ vs) → x ∈ queue → reachesOpenCycle nodes x →
  visitQueue nodes fuel queue vs = None.
Proof.
  revert queue vs x. induction fuel as [|fuel IH]; intros queue vs x Hvs Hx Hcyc.
  - destruct queue; [by apply elem_of_nil in Hx|done].
  - destruct queue as [|current rest]; [by apply elem_of_nil in Hx|]. simpl.
    assert (id current ∈ vs) as Hcur by (apply Hvs; by left).
    rewrite bool_decide_eq_true_2 by done. simpl.
    set (children := filter (λ n, parentId n = Some (id current)) nodes).
    assert (∀ q, q ∈ rest ++ children → id q ∈ addAll vs children) as Hvs'.
    { intros q [Hq|Hq]%elem_of_app; apply addAll_elem.
      - left. apply Hvs. by right.
      - right. by exists q. }
    apply elem_of_cons in Hx as [->|Hx].
    + destruct (reachesOpenCycle_step _ _ Hcyc) as (Hopen & k & Hk & Hp & Hcyck).
      rewrite Hopen. simpl. apply (IH _ _ k); [done| |done].
      apply elem_of_app. right. by apply list_elem_of_filter.
    + destruct (truthy_bool (collapsed current)); simpl.
      * apply (IH _ _ x); [|done|done]. intros q ?. apply Hvs. by right.
      * apply (IH _ _ x); [done| |done]. apply elem_of_app. by left.
Qed.

(** X17: If from a root, through open nodes, a circle of open nodes is reached,
    the visibility resolver never returns: its queue never runs empty. *)
Theorem resolver_never_returns_on_open_cycle nodes r fuel :
  r ∈ nodes → isRoot r = true → reachesOpenCycle nodes r →
  visibleNodes fuel nodes = None.
Proof.
  intros Hr Hroot Hcyc. unfold visibleNodes, visibleSetOf.
  rewrite (visitQueue_circle nodes fuel _ _ r); [done| | |done].
  - intros q Hq. apply addAll_elem. right. by exists q.
  - by apply list_elem_of_filter.
Qed.

(** X18: If from a root, through open nodes, a circle of open nodes is
    reached, the layout pass never returns either, when the ids are unique
    and none is empty: the recursion on the children never ends. *)
Theorem layout_never_returns_on_open_cycle nodes r fuel :
  NoDup (id <$> nodes) → (∀ n, n ∈ nodes → id n ≠ EmptyString) →
  r ∈ nodes → isRoot r = true → reachesOpenCycle nodes r →
  computeSmartLayout fuel nodes = None.
Proof.
  intros Hnd Hids Hr Hroot (m & k & Hreach & Hopen & Hk & Hp & Hback).
  destruct (computeSmartLayout fuel nodes) as [laid|] eqn:Hlaid; [|done].
  exfalso. unfold computeSmartLayout in Hlaid.
  destruct (layoutMaps fuel nodes) as [F|] eqn:HF; [|done]. clear Hlaid.
  apply layoutMaps_spec in HF.
  assert (∀ m k, m ∈ nodes → k ∈ nodes → parentId k = Some (id m) →
            k ∈ layoutChildrenOf nodes (id m)) as Hkids.
  { intros m0 k0 Hm0 Hk0 Hp0. rewrite layoutChildrenOf_filter.
    apply list_elem_of_filter. split; [|done]. split; [done|by apply Hids]. }
  destruct (rootWrites_dom _ _ _ r HF) as (h & W & Hrun & _);
    [by apply list_elem_of_filter|].
  assert (m ∈ nodes) as Hm by by eapply reachFrom_elem.
  pose proof (layoutNode_reach_gen _ _ _ _ _ _ _ _ Hnd Hkids Hrun Hr Hreach) as Hvis.
  destruct (layoutNode_visits _ _ _ _ _ _ _ _ _ Hrun Hvis)
    as (xm & ym & hm & Wm & Hrunm & _).
  destruct (list_find_NoDup nodes m Hnd Hm) as [km Hfind].
  destruct fuel as [|fuel]; [done|].
  pose proof Hrunm as Hun. apply layoutNode_unfold in Hun.
  rewrite Hfind, Hopen in Hun.
  pose proof (Hkids m k Hm Hk Hp) as Hkc. pose proof Hkc as Hkc'.
  unfold layoutChildrenOf in Hkc'.
  destruct (default [] (buildChildrenMap nodes !! id m)) as [|c0 cs];
    [by apply elem_of_nil in Hkc'|].
  destruct Hun as (Wc & s & Hcw & _ & _).
  destruct (childWrites_dom_child _ _ _ _ _ _ _ Hcw Hkc')
    as (yc & hc & Wk & Hrunk & _).
  pose proof (layoutNode_reach_gen _ _ _ _ _ _ _ _ Hnd Hkids Hrunk Hk Hback) as Hin.
  eapply (layoutNode_not_inside nodes);
    [exact Hrunm|exact Hfind|exact Hopen|exact Hkc|exact Hrunk|exact Hin].
Qed.

(** ** Indentation by level *)

Lemma reachFrom_laid_step fuel nodes laid m k :
  computeSmartLayout fuel nodes = Some laid →
  NoDup (id <$> nodes) → rootsParentless nodes →
  m ∈ laid → laidOut nodes (id m) → truthy_bool (collapsed m) = false →
  k ∈ laid → parentId k = Some (id m) →
  laidOut nodes (id k) ∧ x (position k) = x (position m) +ₙ INDENT_X.
Proof.
  intros (F & HF & ->)%computeSmartLayout_maps Hnd Hroots Hm Hlo Hopen Hk Hp.
  apply list_elem_of_fmap in Hm as (m0 & -> & Hm0).
  apply list_elem_of_fmap in Hk as (k0 & -> & Hk0).
  rewrite applyLayout_id in Hlo. rewrite applyLayout_collapsed in Hopen.
  rewrite applyLayout_parent, applyLayout_id in Hp.
  assert (k0 ∈ layoutChildrenOf nodes (id m0)) as Hkc.
  { rewrite layoutChildrenOf_filter. apply list_elem_of_filter.
    split; [|done]. split; [done|]. intros Hempty.
    assert (isRoot k0 = true) as Hroot.
    { unfold isRoot. rewrite Hp, Hempty. apply orb_true_r. }
    by rewrite (Hroots k0 Hk0 Hroot) in Hp. }
  split.
  { rewrite applyLayout_id.
    destruct (list_find_NoDup nodes m0 Hnd Hm0) as [km Hfind].
    by apply (lo_child nodes (id m0) km m0 k0). }
  pose proof (layoutMaps_column _ _ _ _ HF Hnd Hroots Hm0 Hlo Hopen) as Hcol.
  apply (column_elem _ _ _ _ (applyLayout F k0)) in Hcol; [done|].
  by apply list_elem_of_fmap_2.
Qed.

(** X19: After a layout pass (unique ids, roots without a parent, every child
    one level below its parent) a node shown under a root is no level above
    the root and stands at the root's [x] with [INDENT_X] added once for
    each level it is below the root, in the code's own addition on the
    doubles. *)
Theorem indent_follows_level fuel nodes laid r n :
  computeSmartLayout fuel nodes = Some laid →
  NoDup (id <$> nodes) → rootsParentless nodes → levelsConsistent nodes →
  r ∈ laid → isRoot r = true → reachFrom laid r n →
  level r ≤ level n ∧
  x (position n)
  = Nat.iter (Z.to_nat (level n - level r)) (λ v, v +ₙ INDENT_X)
      (x (position r)).
Proof.
  intros Hlaid Hnd Hroots Hlevels Hr Hroot Hreach.
  assert (laidOut nodes (id r)) as Hlo.
  { destruct (computeSmartLayout_shape _ _ _ Hlaid) as [F ->].
    apply list_elem_of_fmap in Hr as (r0 & -> & Hr0).
    rewrite applyLayout_id. rewrite applyLayout_isRoot in Hroot.
    by constructor. }
  assert (∀ p c, p ∈ laid → c ∈ laid → parentId c = Some (id p) →
            level c = level p + 1) as Hlv.
  { destruct (computeSmartLayout_shape _ _ _ Hlaid) as [F ->].
    intros p c (p0 & -> & Hp0)%list_elem_of_fmap (c0 & -> & Hc0)%list_elem_of_fmap.
    rewrite applyLayout_parent, applyLayout_id.
    destruct (applyLayout_same F p0) as (_ & _ & _ & -> & _).
    destruct (applyLayout_same F c0) as (_ & _ & _ & -> & _).
    by apply Hlevels. }
  clear Hroot. revert Hr Hlo.
  induction Hreach as [m|m k c Hopen Hk Hp _ IH]; intros Hm Hlo.
  - split; [lia|]. by rewrite Z.sub_diag.
  - destruct (reachFrom_laid_step _ _ _ _ _ Hlaid Hnd Hroots Hm Hlo Hopen Hk Hp)
      as (Hlok & Hx).
    destruct (IH Hk Hlok) as [Hle Hxc].
    pose proof (Hlv m k Hm Hk Hp) as Hlk. split; [lia|].
    rewrite Hxc, Hx.
    replace (level c - level m) with (Z.succ (level c - level k)) by lia.
    rewrite Z2Nat.inj_succ by lia. by rewrite Nat.iter_succ_r.
Qed.

(** ** Deleting in one tree leaves the other trees alone *)

Lemma descendant_chain nodes a b j :
  NoDup (id <$> nodes) →
  descendant nodes a j → descendant nodes b j →
  a = b ∨ descendant nodes a b ∨ descendant nodes b a.
Proof.
  intros Hnd Ha. revert b.
  induction Ha as [n Hn Hp|n p Hn Hp Ha IH]; intros b Hb.
  - inversion Hb as [n' Hn' Hp' Hid|n' q Hn' Hp' Hq Hid].
    + assert (n' = n) as -> by by eapply NoDup_id_inj. left. congruence.
    + assert (n' = n) as -> by by eapply NoDup_id_inj.
      right. right. congruence.
  - inversion Hb as [n' Hn' Hp' Hid|n' q Hn' Hp' Hq Hid].
    + assert (n' = n) as -> by by eapply NoDup_id_inj.
      right. left. congruence.
    + assert (n' = n) as -> by by eapply NoDup_id_inj.
      apply IH. congruence.
Qed.

Lemma descendant_has_parent nodes a j :
  descendant nodes a j → ∃ n p, n ∈ nodes ∧ id n = j ∧ parentId n = Some p.
Proof. destruct 1; eauto. Qed.

Lemma root_not_descendant nodes a r :
  NoDup (id <$> nodes) → rootsParentless nodes →
  r ∈ nodes → isRoot r = true → ¬ descendant nodes a (id r).
Proof.
  intros Hnd Hroots Hr Hroot (n & p & Hn & Hid & Hp)%descendant_has_parent.
  assert (n = r) as -> by by eapply NoDup_id_inj.
  by rewrite (Hroots r Hr Hroot) in Hp.
Qed.

Lemma filter_filter_weaker {A} (P Q : A → Prop) `{!∀ a, Decision (P a)}
    `{!∀ a, Decision (Q a)} (l : list A) :
  (∀ a, a ∈ l → P a → Q a) → filter P (filter Q l) = filter P l.
Proof.
  intros Hw. induction l as [|a l IH]; [done|].
  rewrite !(filter_cons _ a).
  destruct (decide (Q a)) as [HQ|HQ].
  - rewrite filter_cons. destruct (decide (P a)); (rewrite IH; [done|]);
      intros b ?; apply Hw; by right.
  - rewrite decide_False.
    + apply IH. intros b ?. apply Hw. by right.
    + intros HP. apply HQ, Hw; [by left|done].
Qed.

(** Two node lists that hold the same nodes, with the same children in the
    same order, for every id of a set closed under children, are laid out
    alike from any id of the set. *)
Lemma layoutNode_local (P : string → Prop) nodes nodes' fuel i x y st :
  NoDup (id <$> nodes) → NoDup (id <$> nodes') →
  (∀ j n, P j → id n = j → (n ∈ nodes' ↔ n ∈ nodes)) →
  (∀ j, P j → layoutChildrenOf nodes' j = layoutChildrenOf nodes j) →
  (∀ j c, P j → c ∈ layoutChildrenOf nodes j → P (id c)) →
  P i →
  layoutNode nodes' (buildChildrenMap nodes') fuel i x y st
  = layoutNode nodes (buildChildrenMap nodes) fuel i x y st.
Proof.
  intros Hnd Hnd' Hsame Hkids Hclosed. revert i x y st.
  induction fuel as [|fuel IH]; intros i x y st Hi; [done|].
  rewrite !layoutNode_eq.
  assert (snd <$> list_find (λ n, id n = i) nodes'
          = snd <$> list_find (λ n, id n = i) nodes) as Hfind.
  { destruct (list_find (λ n, id n = i) nodes) as [[k node]|] eqn:Hf.
    - pose proof Hf as (Hk%list_elem_of_lookup_2 & Hid & _)%list_find_Some.
      apply (Hsame i node Hi Hid) in Hk.
      destruct (list_find_NoDup nodes' node Hnd' Hk) as [k' Hf'].
      rewrite Hid in Hf'. by rewrite Hf'.
    - destruct (list_find (λ n, id n = i) nodes') as [[k' node']|] eqn:Hf';
        [|done].
      pose proof Hf' as (Hk%list_elem_of_lookup_2 & Hid & _)%list_find_Some.
      apply (Hsame i node' Hi Hid) in Hk.
      destruct (list_find_NoDup nodes node' Hnd Hk) as [k Hf2].
      rewrite Hid in Hf2. congruence. }
  destruct (list_find (λ n, id n = i) nodes) as [[k node]|],
           (list_find (λ n, id n = i) nodes') as [[k' node']|];
    simpl in Hfind; try done.
  injection Hfind as ->. cbv zeta.
  destruct (truthy_bool _); [done|].
  change (default [] (buildChildrenMap nodes' !! i))
    with (layoutChildrenOf nodes' i).
  change (default [] (buildChildrenMap nodes !! i))
    with (layoutChildrenOf nodes i).
  rewrite (Hkids i Hi).
  destruct (layoutChildrenOf nodes i) as [|c cs] eqn:Hcs; [done|].
  rewrite (layoutChildren_ext
             (layoutNode nodes (buildChildrenMap nodes) fuel)); [done|].
  intros m ? ? ? Hm. apply IH. apply (Hclosed i); [done|]. by rewrite Hcs.
Qed.

Lemma layoutMaps_tree_only fuel nodes F r h W j :
  layoutMaps fuel nodes = Some F → NoDup (id <$> nodes) →
  rootsParentless nodes → r ∈ nodes → isRoot r = true →
  layoutNode nodes (buildChildrenMap nodes) fuel (id r)
    (x (position r)) (y (position r)) noWrites = Some (h, W) →
  j ∈ dom F.1 → (j = id r ∨ descendant nodes (id r) j) → j ∈ dom W.1.
Proof.
  intros HF%layoutMaps_spec Hnd Hroots Hr Hroot Hrun Hj Hin.
  destruct (rootWrites_elem _ _ _ _ HF Hj)
    as (r2 & h2 & W2 & [Hr2 Hroot2]%list_elem_of_filter & Hrun2 & Hj2 & _).
  destruct (decide (id r2 = id r)) as [Hid|Hne].
  { assert (r2 = r) as -> by by eapply NoDup_id_inj.
    rewrite Hrun in Hrun2. by injection Hrun2 as <- <-. }
  exfalso.
  assert (∀ a b, a ∈ nodes → isRoot a = true → b ∈ nodes → isRoot b = true →
            id a ≠ id b → (j = id a ∨ descendant nodes (id a) j) →
            (j = id b ∨ descendant nodes (id b) j) → False) as Hsep.
  { intros a b Ha Hra Hb Hrb Hab [->|Hda] [Heq|Hdb].
    - done.
    - by eapply (root_not_descendant nodes (id b) a).
    - rewrite Heq in Hda. by eapply (root_not_descendant nodes (id a) b).
    - destruct (descendant_chain _ _ _ _ Hnd Hda Hdb) as [?|[Hd|Hd]]; [done| |].
      + by eapply (root_not_descendant nodes (id a) b).
      + by eapply (root_not_descendant nodes (id b) a). }
  apply (Hsep r2 r); [done|done|done|done|done| |done].
  by eapply layoutNode_visits_descendant.
Qed.

(** X20: Deleting a node (unique ids, roots without a parent) changes nothing
    under a root that the node is not under: every node of such a tree
    comes out of the delete exactly as the layout had it, position and
    height included. *)
Theorem delete_leaves_other_trees fuel nodes laid out i r n :
  NoDup (id <$> nodes) → rootsParentless nodes →
  computeSmartLayout fuel nodes = Some laid →
  handleDelete fuel i nodes = Some out →
  r ∈ nodes → isRoot r = true → id r ≠ i → ¬ descendant nodes (id r) i →
  n ∈ laid → (id n = id r ∨ descendant nodes (id r) (id n)) →
  n ∈ out.
Proof.
  intros Hnd Hroots Hlaid Hdel Hr Hroot Hri Hrd Hn Hin.
  unfold handleDelete in Hdel.
  destruct (deleteRecursive fuel i nodes) as [rem|] eqn:Hrem; [|done].
  destruct (deleteRecursive_spec _ _ _ _ Hrem) as (C & HiC & -> & _ & HC).
  set (rem := filter (λ m, id m ∉ C) nodes) in *.
  set (T := λ j, j = id r ∨ descendant nodes (id r) j).
  assert (∀ j, T j → j ∉ C) as HTC.
  { intros j [->|Hj] [Heq|Hd]%HC.
    - done.
    - by eapply (root_not_descendant nodes i r).
    - apply Hrd. by rewrite <-Heq.
    - destruct (descendant_chain _ _ _ _ Hnd Hj Hd) as [?|[?|Hir]]; [done..|].
      by eapply (root_not_descendant nodes i r). }
  assert (NoDup (id <$> rem)) as Hndr by by apply NoDup_id_filter.
  assert (rootsParentless rem) as Hrootsr.
  { intros q [_ Hq]%list_elem_of_filter. by apply Hroots. }
  assert (∀ m, m ∈ nodes → T (id m) → m ∈ rem) as Hkeep.
  { intros m Hm HT. apply list_elem_of_filter. split; [by apply HTC|done]. }
  assert (∀ j c, T j → c ∈ layoutChildrenOf nodes j → T (id c)) as Hclosed.
  { intros j c [->|Hj] [Hc Hp]%layoutChildrenOf_elem; right.
    - by apply desc_child.
    - by eapply desc_step. }
  assert (∀ j, T j → layoutChildrenOf rem j = layoutChildrenOf nodes j) as Hkids.
  { intros j Hj. rewrite !layoutChildrenOf_filter. unfold rem.
    apply filter_filter_weaker. intros c Hc [Hp Hne]. apply HTC, (Hclosed j); [done|].
    rewrite layoutChildrenOf_filter. by apply list_elem_of_filter. }
  unfold computeSmartLayout in Hlaid, Hdel.
  destruct (layoutMaps fuel nodes) as [F|] eqn:HF; [|done].
  destruct (layoutMaps fuel rem) as [F'|] eqn:HF'; [|done].
  injection Hlaid as <-. injection Hdel as <-.
  apply list_elem_of_fmap in Hn as (n0 & -> & Hn0).
  rewrite applyLayout_id in Hin.
  assert (r ∈ rem) as Hrr by (apply Hkeep; [done|by left]).
  destruct (layoutMaps_tree _ _ _ _ HF Hnd Hroots Hr Hroot)
    as (h & W & Hrun & Hag & _).
  destruct (layoutMaps_tree _ _ _ _ HF' Hndr Hrootsr Hrr Hroot)
    as (h' & W' & Hrun' & Hag' & _).
  pose proof Hrun' as Hrunrem.
  rewrite (layoutNode_local T nodes rem) in Hrun'; [|done..| |done|done|by left].
  2:{ intros j m Hj Hid. split; [by intros [_ ?]%list_elem_of_filter|].
      intros Hm. apply Hkeep; [done|by rewrite Hid]. }
  rewrite Hrun in Hrun'. injection Hrun' as <- <-.
  assert (∀ d, descendant nodes (id r) d → descendant rem (id r) d) as Hdrem.
  { induction 1 as [m Hm Hp|m p Hm Hp Hd IH].
    - apply desc_child; [|done]. apply Hkeep; [done|]. right. by apply desc_child.
    - eapply desc_step; [|done|done]. apply Hkeep; [done|]. right.
      by eapply desc_step. }
  apply list_elem_of_fmap. exists n0. split; [|by apply Hkeep].
  destruct (decide (id n0 ∈ dom W.1)) as [Hd|Hd].
  - destruct (Hag _ Hd) as [H1 H2], (Hag' _ Hd) as [H1' H2'].
    unfold applyLayout. by rewrite H1, H2, H1', H2'.
  - rewrite !applyLayout_unvisited; [done| |].
    + apply not_elem_of_dom. intros HdF. apply Hd.
      eapply (layoutMaps_tree_only fuel rem F' r h W); [done..|].
      destruct Hin as [?|Hdesc]; [by left|right; by apply Hdrem].
    + apply not_elem_of_dom. intros HdF. apply Hd.
      by eapply (layoutMaps_tree_only fuel nodes F r h W).
Qed.

(** ** Learning a chapter: by hand, and in the waterfall *)

(** X22: Learning a chapter by hand while it is collapsed leaves it
    collapsed: none of the subchapters the chapter branch adds is shown.
    The chapter's id is not empty and the new ids are fresh. *)
Theorem manual_learn_keeps_subchapters_hidden cleanTitle fuel fv genId node
    subChapters prev out vis k :
  id node ≠ EmptyString →
  (∀ m, m ∈ prev → id m = id node → truthy_bool (collapsed m) = true) →
  (∀ j, (j < length subChapters)%nat → freshId prev (genId j)) →
  learnChapter cleanTitle fuel genId node subChapters prev = Some out →
  visibleNodes fv out = Some vis →
  (k < length subChapters)%nat → genId k ∉ id <$> vis.
Proof.
  intros Hid Hcol Hfresh (F & _ & ->)%computeSmartLayout_maps Hvis Hk.
  intros (n & Hidn & [Hn Hv]%(visibleNodes_spec _ _ _ Hvis))%list_elem_of_fmap.
  destruct Hv as (r & c & (r0 & -> & Hr0)%list_elem_of_fmap & Hroot & Hreach & Hidc).
  rewrite applyLayout_isRoot in Hroot.
  destruct (reachFrom_applyLayout_inv _ _ _ _ Hreach r0 eq_refl)
    as (c0 & -> & Hreach0).
  rewrite applyLayout_id, <-Hidn in Hidc. clear n Hn Hidn.
  set (subs := manualSubNodes cleanTitle genId node subChapters) in *.
  assert (∀ m, m ∈ subs →
            parentId m = Some (id node) ∧ nodeType m = subchapter ∧
            truthy_bool (collapsed m) = true) as Hsubs.
  { intros m (j & Hj)%list_elem_of_lookup. unfold subs, manualSubNodes in Hj.
    rewrite list_lookup_imap in Hj.
    destruct (subChapters !! j); [|done]. by injection Hj as <-. }
  assert (c0 ∈ subs) as Hc0.
  { apply reachFrom_elem in Hreach0; [|done].
    apply elem_of_app in Hreach0 as [Hm|Hm]; [|done].
    by destruct (Hfresh k Hk c0 Hm). }
  destruct (Hsubs c0 Hc0) as (Hpar & Htype & _).
  destruct (reachFrom_parent _ _ _ Hreach0) as [->|(m & Hm & Hopen & Hp)].
  - unfold isRoot in Hroot. rewrite Htype, Hpar in Hroot. simpl in Hroot.
    by destruct (String.eqb_spec (id node) EmptyString).
  - assert (m ∈ prev ++ subs) as Hmin by by eapply reachFrom_elem.
    apply elem_of_app in Hmin as [Hmp|Hms].
    + rewrite (Hcol m Hmp) in Hopen; congruence.
    + destruct (Hsubs m Hms) as (_ & _ & Hc). congruence.
Qed.




(** ** Checking the further assumptions on a concrete node set *)

Lemma rootsParentless_check nodes :
  forallb (λ n, negb (isRoot n)
                || match parentId n with Some _ => false | None => true end)
    nodes = true →
  rootsParentless nodes.
Proof.
  rewrite forallb_forall. intros H r Hr%list_elem_of_In Hroot.
  specialize (H r Hr). rewrite Hroot in H. simpl in H.
  by destruct (parentId r).
Qed.

Lemma laidOut_check fuel nodes j :
  match layoutMaps fuel nodes with
  | Some F => bool_decide (is_Some (F.1 !! j))
  | None => false
  end = true →
  laidOut nodes j.
Proof.
  destruct (layoutMaps fuel nodes) as [F|] eqn:HF; [|done].
  intros H%bool_decide_eq_true. eapply layoutMaps_visited_laidOut; [done|].
  by apply elem_of_dom.
Qed.


Lemma flag_set_check nodes i :
  forallb (λ n, negb (String.eqb (id n) i)
                || match contentMinimized n with Some _ => true | None => false end)
    nodes = true →
  ∀ n, n ∈ nodes → id n = i → is_Some (contentMinimized n).
Proof.
  rewrite forallb_forall. intros H n Hn%list_elem_of_In Hid.
  specialize (H n Hn). rewrite Hid, String.eqb_refl in H. simpl in H.
  by destruct (contentMinimized n).
Qed.

Lemma ids_nonempty_check nodes :
  forallb (λ n, negb (String.eqb (id n) EmptyString)) nodes = true →
  ∀ n, n ∈ nodes → id n ≠ EmptyString.
Proof.
  rewrite forallb_forall. intros H n Hn%list_elem_of_In Hid.
  specialize (H n Hn). by rewrite Hid in H.
Qed.

Lemma levelsConsistent_check nodes :
  forallb (λ c, forallb (λ p, negb (bool_decide (parentId c = Some (id p)))
                              || Z.eqb (level c) (level p + 1)) nodes)
    nodes = true →
  levelsConsistent nodes.
Proof.
  rewrite forallb_forall. intros H p c Hp%list_elem_of_In Hc%list_elem_of_In Hpar.
  specialize (H c Hc). rewrite forallb_forall in H. specialize (H p Hp).
  rewrite bool_decide_eq_true_2 in H by done. by apply Z.eqb_eq.
Qed.

Lemma not_descendant_check rk nodes a d :
  ranked rk nodes → Nat.leb (rk a) (rk d) = true → ¬ descendant nodes a d.
Proof.
  intros Hrk Hle%Nat.leb_le Hd.
  pose proof (descendant_rank rk nodes a d Hrk Hd). lia.
Qed.

(** ** The further theorems at work on the sample maps *)

Lemma visible_ids_unchanged_witness :
  ∃ out,
    handleToggleContent 3 "a" sampleTree = Some out ∧
    option_map (fmap id) (visibleNodes 200 out)
    = option_map (fmap id) (visibleNodes 200 sampleTree).
Proof.
  eexists. split; [vm_compute; reflexivity|].
  destruct (visible_ids_unchanged 3 200 "a" "Judul" (mkPosition 1 2) sampleTree)
    as (_ & Htoggle & _).
  apply Htoggle. vm_compute. reflexivity.
Defined.

Lemma laid_out_height_is_fresh_witness :
  ∃ laid a,
    computeSmartLayout 3 sampleTree = Some laid ∧ laid !! 1%nat = Some a ∧
    height a = Some (getNodeHeight a).
Proof.
  eexists _, _. split; [vm_compute; reflexivity|]. split; [reflexivity|].
  eapply (laid_out_height_is_fresh 3 sampleTree).
  - vm_compute. reflexivity.
  - apply (bool_decide_unpack _). vm_compute. exact I.
  - repeat constructor.
  - apply (laidOut_check 3). vm_compute. reflexivity.
Defined.

Lemma shown_iff_laid_out_witness :
  ∃ F vis,
    layoutMaps 3 sampleTree = Some F ∧ visibleNodes 200 sampleTree = Some vis ∧
    (sampleD ∈ vis ↔ sampleD ∈ sampleTree ∧ id sampleD ∈ dom F.1).
Proof.
  eexists _, _. split; [vm_compute; reflexivity|].
  split; [vm_compute; reflexivity|].
  eapply (shown_iff_laid_out 3 200 sampleTree).
  - apply (bool_decide_unpack _). vm_compute. exact I.
  - vm_compute. reflexivity.
  - vm_compute. reflexivity.
Defined.


Lemma handleAddRoot_moves_nothing_witness :
  handleAddRoot 3 "baru" 1000.5 500.25 sampleTree
  = option_map
      (λ laid, laid ++ [mkNode "baru" None "Topik Baru"
                          (mkPosition 825.5 430.25) 0
                          root (Some false) (Some true) (Some 80) (Some false)
                          None])
      (computeSmartLayout 3 sampleTree).
Proof.
  apply (handleAddRoot_moves_nothing 2 "baru" 1000.5 500.25 sampleTree).
  apply freshId_check. vm_compute. reflexivity.
Defined.

Lemma children_stacked_below_parent_witness :
  ∃ laid r,
    computeSmartLayout 3 farTree = Some laid ∧ laid !! 0%nat = Some r ∧
    position <$> laid !! 1%nat
    = Some (mkPosition 380.5 72057594037928064) ∧
    column farTree (x (position r) +ₙ INDENT_X) (layoutChildrenOf laid (id r))
      (y (position r) +ₙ getNodeHeight r +ₙ GAP_Y).
Proof.
  eexists _, _. split; [vm_compute; reflexivity|]. split; [reflexivity|].
  split; [reflexivity|].
  eapply (children_stacked_below_parent 3 farTree).
  - vm_compute. reflexivity.
  - apply (bool_decide_unpack _). vm_compute. exact I.
  - apply rootsParentless_check. vm_compute. reflexivity.
  - repeat constructor.
  - apply (laidOut_check 3). vm_compute. reflexivity.
  - reflexivity.
Defined.

Lemma drag_root_moves_only_its_tree_witness :
  ∃ laid moved,
    computeSmartLayout 3 twoTrees = Some laid ∧
    handleUpdatePosition 3 "r" (mkPosition 310.5 90.25) twoTrees = Some moved ∧
    Forall2 (λ n n',
       (id n = "r"%string → position n' = mkPosition 310.5 90.25) ∧
       ((∃ c, reachFrom twoTrees sampleRoot c ∧ id c = id n) →
        n' = setPosition (position n') n) ∧
       (¬ (∃ c, reachFrom twoTrees sampleRoot c ∧ id c = id n) → n' = n))
      laid moved.
Proof.
  eexists. 
  destruct (drag_root_moves_only_its_tree 3 twoTrees
              (default [] (computeSmartLayout 3 twoTrees)) sampleRoot
              (mkPosition 310.5 90.25)) as (moved & Hmoved & Hall).
  - vm_compute. reflexivity.
  - apply (bool_decide_unpack _). vm_compute. exact I.
  - apply rootsParentless_check. vm_compute. reflexivity.
  - repeat constructor.
  - reflexivity.
  - exists moved. split; [vm_compute; reflexivity|]. split; [exact Hmoved|].
    exact Hall.
Defined.

Lemma layout_keeps_roots_in_place_witness :
  ∃ laid,
    computeSmartLayout 3 twoTrees = Some laid ∧
    Forall2 (λ n n', isRoot n = true → position n' = position n) twoTrees laid.
Proof.
  eexists. split; [vm_compute; reflexivity|].
  eapply (layout_keeps_roots_in_place 3 twoTrees).
  - vm_compute. reflexivity.
  - apply (bool_decide_unpack _). vm_compute. exact I.
  - apply rootsParentless_check. vm_compute. reflexivity.
Defined.

Lemma toggle_content_twice_witness :
  ∃ once,
    handleToggleContent 3 "a" sampleTree = Some once ∧
    handleToggleContent 3 "a" once = computeSmartLayout 3 sampleTree.
Proof.
  eexists. split; [vm_compute; reflexivity|].
  eapply (toggle_content_twice 3 "a" sampleTree).
  - apply (bool_decide_unpack _). vm_compute. exact I.
  - apply rootsParentless_check. vm_compute. reflexivity.
  - apply flag_set_check. vm_compute. reflexivity.
  - vm_compute. reflexivity.
Defined.

Lemma visible_nonroots_get_connectors_witness :
  ∃ vis p,
    visibleNodes 200 sampleTree = Some vis ∧
    p ∈ vis ∧ parentId sampleB = Some (id p) ∧
    truthy_bool (collapsed p) = false ∧
    renderConnection vis sampleB
    = Some {| key := String.append (id p) (String.append "-" (id sampleB));
              startX := x (position p) +ₙ 30;
              startY := y (position p) +ₙ heightOr100 (height p);
              endX := x (position sampleB);
              endY := (y (position sampleB)
                       + double_of_Z (heightOr100 (height sampleB)) / 2)%float
           |}.
Proof.
  eexists. 
  assert (visibleNodes 200 sampleTree
          = Some [sampleRoot; sampleA; sampleB; sampleC]) as Hvis
    by (vm_compute; reflexivity).
  pose proof (visible_nonroots_get_connectors 200 sampleTree _ sampleB Hvis)
    as H.
  simpl in H. destruct H as (p & Hp); [| |repeat constructor|].
  - apply (bool_decide_unpack _). vm_compute. exact I.
  - apply rootsParentless_check. vm_compute. reflexivity.
  - exists p. split; [exact Hvis|exact Hp].
Defined.

Lemma connectors_follow_layout_witness :
  ∃ laid vis b c p,
    computeSmartLayout 3 sampleTree = Some laid ∧
    visibleNodes 200 laid = Some vis ∧ vis !! 2%nat = Some b ∧
    renderConnection vis b = Some c ∧
    p ∈ vis ∧ parentId b = Some (id p) ∧
    startX c = x (position p) +ₙ 30 ∧
    startY c = y (position p) +ₙ getNodeHeight p ∧
    endX c = x (position p) +ₙ INDENT_X ∧
    endY c = (y (position b) + double_of_Z (getNodeHeight b) / 2)%float.
Proof.
  eexists _, _, _, _.
  assert (∀ (P : NodeData → Prop) (A B C D : Prop),
            A → B → C → D → (A → B → C → D → ∃ p, P p) →
            ∃ p, A ∧ B ∧ C ∧ D ∧ P p) as Hpack.
  { intros P A B C D a b c0 d H. destruct (H a b c0 d) as [p Hp]. eauto 10. }
  apply Hpack; [vm_compute; reflexivity|vm_compute; reflexivity|reflexivity
               |vm_compute; reflexivity|].
  intros Hlaid Hvis Hb Hc.
  eapply (connectors_follow_layout 3 200 sampleTree _ _ _ _ Hlaid).
  - apply (bool_decide_unpack _). vm_compute. exact I.
  - apply rootsParentless_check. vm_compute. reflexivity.
  - exact Hvis.
  - repeat constructor.
  - exact Hc.
Defined.

Lemma subchapters_carry_chapter_number_witness :
  title <$> waterfallSubNodes (λ t, t) sampleGenId
              (chapterNode loneRoot "n1" 1 (mkChapter "Lanjut" "ringkasan"))
              sampleSubChapters !! 0%nat
  = Some "2.1 Konsep"%string ∧
  title <$> manualSubNodes (λ t, t) sampleGenId
              (chapterNode loneRoot "n1" 1 (mkChapter "Lanjut" "ringkasan"))
              sampleSubChapters !! 0%nat
  = Some "2.1 Konsep"%string.
Proof.
  apply (subchapters_carry_chapter_number (λ t, t) sampleGenId sampleGenId
           loneRoot sampleChapters sampleSubChapters 1
           (chapterNode loneRoot "n1" 1 (mkChapter "Lanjut" "ringkasan"))
           0 (mkSubChapter "Konsep" ["satu"; "dua"]%string));
    reflexivity.
Defined.


Lemma acyclic_sets_are_handled_witness :
  ∃ fuel0, ∀ fuel, (fuel0 ≤ fuel)%nat →
    is_Some (computeSmartLayout fuel sampleTree) ∧
    is_Some (visibleNodes fuel sampleTree).
Proof.
  apply (acyclic_sets_are_handled sampleRank sampleTree).
  apply ranked_check. vm_compute. reflexivity.
Defined.

Lemma resolver_never_returns_on_open_cycle_witness :
  visibleNodes 1000 circularSet = None.
Proof.
  apply (resolver_never_returns_on_open_cycle circularSet circularRoot 1000).
  - repeat constructor.
  - reflexivity.
  - exists circularRoot, circularChapter.
    split_and!; [apply reach_refl|reflexivity|repeat constructor|reflexivity|].
    eapply reach_step;
      [reflexivity|repeat constructor|reflexivity|apply reach_refl].
Defined.

Lemma layout_never_returns_on_open_cycle_witness :
  computeSmartLayout 1000 circularSet = None.
Proof.
  apply (layout_never_returns_on_open_cycle circularSet circularRoot 1000).
  - apply (bool_decide_unpack _). vm_compute. exact I.
  - apply ids_nonempty_check. vm_compute. reflexivity.
  - repeat constructor.
  - reflexivity.
  - exists circularRoot, circularChapter.
    split_and!; [apply reach_refl|reflexivity|repeat constructor|reflexivity|].
    eapply reach_step;
      [reflexivity|repeat constructor|reflexivity|apply reach_refl].
Defined.

Lemma indent_follows_level_witness :
  ∃ laid r b,
    computeSmartLayout 3 sampleTree = Some laid ∧
    laid !! 0%nat = Some r ∧ laid !! 2%nat = Some b ∧
    level r ≤ level b ∧
    x (position b)
    = Nat.iter (Z.to_nat (level b - level r)) (λ v, v +ₙ INDENT_X)
        (x (position r)).
Proof.
  eexists _, _, _. split; [vm_compute; reflexivity|].
  do 2 (split; [reflexivity|]).
  eapply (indent_follows_level 3 sampleTree).
  - vm_compute. reflexivity.
  - apply (bool_decide_unpack _). vm_compute. exact I.
  - apply rootsParentless_check. vm_compute. reflexivity.
  - apply levelsConsistent_check. vm_compute. reflexivity.
  - repeat constructor.
  - reflexivity.
  - eapply reach_step; [reflexivity|repeat constructor|reflexivity|].
    eapply reach_step;
      [reflexivity|repeat constructor|reflexivity|apply reach_refl].
Defined.

Lemma delete_leaves_other_trees_witness :
  ∃ laid out e,
    computeSmartLayout 3 twoTrees = Some laid ∧
    handleDelete 3 "a" twoTrees = Some out ∧
    laid !! 6%nat = Some e ∧ e ∈ out.
Proof.
  eexists _, _, _. split; [vm_compute; reflexivity|].
  split; [vm_compute; reflexivity|]. split; [reflexivity|].
  eapply (delete_leaves_other_trees 3 twoTrees _ _ "a" secondRoot).
  - apply (bool_decide_unpack _). vm_compute. exact I.
  - apply rootsParentless_check. vm_compute. reflexivity.
  - vm_compute. reflexivity.
  - vm_compute. reflexivity.
  - repeat constructor.
  - reflexivity.
  - discriminate.
  - apply (not_descendant_check twoTreesRank); [|reflexivity].
    apply ranked_check. vm_compute. reflexivity.
  - repeat constructor.
  - right. apply (desc_child _ _ secondChapter); [repeat constructor|reflexivity].
Defined.

Lemma manual_learn_keeps_subchapters_hidden_witness :
  ∃ out vis,
    learnChapter (λ t, t) 4 sampleGenId secondChapter sampleSubChapters twoTrees
    = Some out ∧
    visibleNodes 20 out = Some vis ∧ "n1"%string ∉ id <$> vis.
Proof.
  eexists _, _. split; [vm_compute; reflexivity|].
  split; [vm_compute; reflexivity|].
  eapply (manual_learn_keeps_subchapters_hidden (λ t, t) 4 20 sampleGenId
            secondChapter sampleSubChapters twoTrees _ _ 1).
  - discriminate.
  - intros m Hm Hid. unfold twoTrees, sampleTree in Hm.
    repeat (apply elem_of_cons in Hm as [->|Hm]); try discriminate Hid;
      [reflexivity|by apply elem_of_nil in Hm].
  - intros [|[|j]] Hj; [apply freshId_check; vm_compute; reflexivity..|].
    simpl in Hj. lia.
  - vm_compute. reflexivity.
  - vm_compute. reflexivity.
  - simpl. lia.
Defined.

